(** * funmatrix: a verification development for the dense matrix engine

    The development embeds [src/matrix.js] (Matrix: construction, structural
    operations, elementwise arithmetic, dot product, LU decomposition, RREF,
    solve, rank, inverse, determinant) together with the helpers it calls
    ([util/transpose], [util/dot], [util/round], [util/concat],
    [util/identity] and fun.js' array [map], [fold] and [concat]).

    Numbers.  JavaScript numbers are modelled by exact rationals ([rat]):
    every statement below is a statement about the algorithms over exact
    arithmetic.  Rounding error, [NaN], infinities and signed zeros are outside
    the model.

    Arrays.  A JavaScript array is a [seq].  A write [a[i] = v] is
    [set_nth]: inside the array it replaces the cell, past the end it extends
    the array (JavaScript does the same; the holes are filled with the default
    value).  A read [a[i]] is [nth]; a read past the end is [undefined] in
    JavaScript and the default value here, so the theorems carry the shape
    hypotheses under which the code performs no such read.  Where the code
    dereferences an absent row ([undefined[j]], [undefined.length]) JavaScript
    raises a [TypeError], and the model does so explicitly. *)

Set Warnings "-inconsistent-scopes,-notation-overridden,-ambiguous-paths,-redundant-canonical-projection,-projection-no-head-constant,-notation-incompatible-prefix,-deprecated".
From Stdlib Require Import String Lia.
From HB Require Import structures.
From mathcomp Require Import ssreflect ssrfun ssrbool eqtype ssrnat div seq.
From mathcomp Require Import choice fintype finfun bigop order ssralg ssrnum.
From mathcomp Require Import ssrint rat archimedean perm matrix.

Set Implicit Arguments.
Unset Strict Implicit.
Unset Printing Implicit Defensive.

Import Order.TTheory GRing.Theory Num.Theory.
Local Open Scope ring_scope.

(** ** Outcomes of a call *)

(** A call either returns a value or throws; the thrown value is recorded by
    its message ([TypeError] is the message used for the errors the
    JavaScript runtime raises by itself).  [OutOfFuel] is not an outcome of
    the program: it is what a [while] loop of the model answers when the
    bound on its number of turns is used up, and the loops below are proved
    never to give it. *)
Inductive result (T : Type) : Type :=
  | Ok (x : T)
  | Throw (msg : string)
  | OutOfFuel.
Arguments Ok {T} x.
Arguments Throw {T} msg.
Arguments OutOfFuel {T}.

Definition bind {T U : Type} (r : result T) (f : T -> result U) : result U :=
  match r with
  | Ok x => f x
  | Throw msg => Throw msg
  | OutOfFuel => OutOfFuel
  end.

Notation "'let*' x ':=' r 'in' k" := (bind r (fun x => k))
  (at level 200, x name, r at level 100, k at level 200, right associativity).

Definition TypeError : string := "TypeError"%string.

Definition is_ok {T : Type} (r : result T) : bool :=
  if r is Ok _ then true else false.

(** ** fun.js: array map and fold *)

(** [array/map.js]: [r[i] = cb(a[i], i, a)] for [i] from [0] to
    [a.length - 1]. *)
Fixpoint amap_from {T U : Type} (cb : T -> nat -> U) (i : nat) (a : seq T)
  : seq U :=
  if a is x :: a' then cb x i :: amap_from cb i.+1 a' else [::].

Definition amap {T U : Type} (cb : T -> nat -> U) (a : seq T) : seq U :=
  amap_from cb 0 a.

(** [array/fold.js]: [r = cb(r, a[i], i, a)] for [i] from [0] to
    [a.length - 1], starting from [init]. *)
Fixpoint afold_from {T R : Type} (cb : R -> T -> nat -> R) (i : nat) (r : R)
  (a : seq T) : R :=
  if a is x :: a' then afold_from cb i.+1 (cb r x i) a' else r.

Definition afold {T R : Type} (cb : R -> T -> nat -> R) (init : R)
  (a : seq T) : R :=
  afold_from cb 0 init a.

(** ** The Matrix object *)

Definition num : Type := rat.
Definition array2 : Type := seq (seq num).

(** A Matrix instance: its [__value] and the [precision] it reads (the
    prototype's [4] unless [setPrecision] replaced it). *)
Record Matrix : Type := MkMatrix {
  value : array2;
  precision : int
}.

(** [Matrix.of] on an array that is not a Matrix: [new Matrix(val)], which
    reads [precision] from the prototype. *)
Definition Matrix_of (val : array2) : Matrix :=
  {| value := val; precision := 4%:Z |}.

Definition setPrecision (M : Matrix) (p : int) : Matrix :=
  {| value := value M; precision := p |}.

(** [m[i][j]]: the cell read. *)
Definition get2 (v : array2) (i j : nat) : num := nth 0 (nth [::] v i) j.

(** [m[i][j] = x] on an existing row [i]. *)
Definition set2 (v : array2) (i j : nat) (x : num) : array2 :=
  set_nth [::] v i (set_nth 0 (nth [::] v i) j x).

Definition getRows (M : Matrix) : nat := size (value M).

(** [this.__value[0].length]: a [TypeError] when there is no row 0. *)
Definition getCols (M : Matrix) : result nat :=
  if value M is r :: _ then Ok (size r) else Throw TypeError.

Definition equals (A B : Matrix) : bool := value A == value B.

(** [Matrix.prototype.map]: [Matrix.of(map(f)(this.__value))]. *)
Definition Matrix_map (f : seq num -> nat -> seq num) (M : Matrix) : Matrix :=
  Matrix_of (amap f (value M)).

(** The rows all have length [n] and there are [m] of them. *)
Definition has_shape (m n : nat) (v : array2) : bool :=
  (size v == m) && all (fun r => size r == n) v.

(** ** transpose *)

(** [util/transpose.js]:
    [(prev, next) => map((item, i) => (prev[i] || []).concat(next[i]))(next)]. *)
Definition transpose_cb (prev : array2) (next : seq num) : array2 :=
  amap (fun (_ : num) i => nth [::] prev i ++ [:: nth 0 next i]) next.

(** [Matrix.prototype.transpose]:
    [Matrix.of(fold(transpose, [], this.__value))]. *)
Definition transpose (M : Matrix) : Matrix :=
  Matrix_of (afold (fun prev next (_ : nat) => transpose_cb prev next) [::]
                   (value M)).

(** ** Elementwise arithmetic *)

(** The argument of [add], [subtract] and [multiply]: [M instanceof Matrix]
    or a number. *)
Inductive operand : Type :=
  | Mat (M : Matrix)
  | Scalar (x : num).

Definition msg_add : string := "Matrices do not match, cannot add"%string.
Definition msg_subtract : string :=
  "Matrices do not match, cannot subtract"%string.
Definition msg_hadamard : string :=
  "Matrices do not match, cannot create hadamard product"%string.

(** [this.getCols() !== M.getCols() || this.getRows() !== M.getRows()]. *)
Definition shapes_differ (this M : Matrix) : result bool :=
  let* c := getCols this in
  let* c' := getCols M in
  Ok ((c != c') || (getRows this != getRows M)).

Definition add (this : Matrix) (M : operand) : result Matrix :=
  match M with
  | Mat M =>
      let* differ := shapes_differ this M in
      if differ then Throw msg_add
      else Ok (Matrix_map (fun row idx =>
                 amap (fun val jdx => val + get2 (value M) idx jdx) row) this)
  | Scalar M => Ok (Matrix_map (fun row _ => amap (fun x _ => x + M) row) this)
  end.

Definition subtract (this : Matrix) (M : operand) : result Matrix :=
  match M with
  | Mat M =>
      let* differ := shapes_differ this M in
      if differ then Throw msg_subtract
      else Ok (Matrix_map (fun row idx =>
                 amap (fun val jdx => val - get2 (value M) idx jdx) row) this)
  | Scalar M => Ok (Matrix_map (fun row _ => amap (fun x _ => x - M) row) this)
  end.

(** The [console.log] that precedes the throw is not modelled. *)
Definition multiply (this : Matrix) (M : operand) : result Matrix :=
  match M with
  | Mat M =>
      let* differ := shapes_differ this M in
      if differ then Throw msg_hadamard
      else Ok (Matrix_map (fun row idx =>
                 amap (fun col jdx => col * get2 (value M) idx jdx) row) this)
  | Scalar M => Ok (Matrix_map (fun row _ => amap (fun x _ => x * M) row) this)
  end.

(** ** dot *)

(** [util/round.js]:
    [Number(Math.round(value + 'e' + decimals) + 'e-' + decimals)].
    [value + 'e' + decimals] read back as a number is [value * 10^decimals],
    [Math.round x] is [floor (x + 1/2)], and the trailing ['e-' + decimals]
    divides by [10^decimals]. *)
Definition round (value : num) (decimals : int) : num :=
  (Num.floor (value * 10%:Q ^ decimals + 2%:Q^-1))%:~R / 10%:Q ^ decimals.

(** A [map] whose callback may throw: the first throw ends the call. *)
Fixpoint amapM_from {T U : Type} (cb : T -> nat -> result U) (i : nat)
  (a : seq T) : result (seq U) :=
  if a is x :: a' then
    let* y := cb x i in
    let* r := amapM_from cb i.+1 a' in
    Ok (y :: r)
  else Ok [::].

Definition amapM {T U : Type} (cb : T -> nat -> result U) (a : seq T)
  : result (seq U) :=
  amapM_from cb 0 a.

(** A [fold] whose callback may throw. *)
Fixpoint afoldM_from {T R : Type} (cb : R -> T -> nat -> result R) (i : nat)
  (r : R) (a : seq T) : result R :=
  if a is x :: a' then
    let* r' := cb r x i in afoldM_from cb i.+1 r' a'
  else Ok r.

Definition afoldM {T R : Type} (cb : R -> T -> nat -> result R) (init : R)
  (a : seq T) : result R :=
  afoldM_from cb 0 init a.

(** [util/dot.js]: for the row [a] of the left matrix,
    [map((item, i) => fold((acc, x, j) =>
       acc += round(x * B.__value[j][i], decimals), 0)(a))(B.__value[0])].
    Mapping over [B.__value[0]] when [B] has no row is a [TypeError], and so
    is reading [B.__value[j][i]] when [B] has no row [j]. *)
Definition dot_cb (decimals : int) (B : Matrix) (a : seq num)
  : result (seq num) :=
  if value B is b0 :: _ then
    amapM (fun (_ : num) i =>
      afoldM (fun acc x j =>
                if (j < size (value B))%N
                then Ok (acc + round (x * get2 (value B) j i) decimals)
                else Throw TypeError)
             0 a) b0
  else Throw TypeError.

(** [Matrix.prototype.dot]:
    [this.concat(Matrix.of(M), dot(this.precision))], where
    [concat(M, f)] is [this.map(f(M))]. *)
Definition dot (this M : Matrix) : result Matrix :=
  let* rows := amapM (fun a (_ : nat) => dot_cb (precision this) M a)
                     (value this) in
  Ok (Matrix_of rows).

(** ** Loops *)

(** [for (let i = lo; i < hi; ++i) body]: the state after the loop. *)
Definition for_range {S : Type} (lo hi : nat) (body : S -> nat -> S) (s : S)
  : S :=
  foldl body s (iota lo (hi - lo)).

(** The same loop when the body may throw. *)
Fixpoint for_eachM {S : Type} (body : S -> nat -> result S) (s : S)
  (ks : seq nat) : result S :=
  if ks is k :: ks' then
    let* s' := body s k in for_eachM body s' ks'
  else Ok s.

Definition for_rangeM {S : Type} (lo hi : nat) (body : S -> nat -> result S)
  (s : S) : result S :=
  for_eachM body s (iota lo (hi - lo)).

(** ** clone, fill, zeros *)

(** [Matrix.fromArray]: [Matrix.of(map(row => map(col => col)(row))(arr))]. *)
Definition fromArray (arr : array2) : Matrix :=
  Matrix_of (amap (fun row (_ : nat) => amap (fun col (_ : nat) => col) row) arr).

(** [Matrix.prototype.clone]: [fromArray(this.__value)], then
    [setPrecision(this.precision)] on the copy. *)
Definition clone (this : Matrix) : Matrix :=
  setPrecision (fromArray (value this)) (precision this).

(** [Matrix.prototype.fill]: [this.map(map(x => f(x)))]. *)
Definition fill (f : num -> num) (this : Matrix) : Matrix :=
  Matrix_map (fun row (_ : nat) => amap (fun x (_ : nat) => f x) row) this.

Definition zeros (this : Matrix) : Matrix := fill (fun _ => 0) this.

(** ** LU decomposition *)

(** [const tol = 1e-6]. *)
Definition tol : num := (10%:Q ^+ 6)^-1.

Definition msg_row_exchange : string :=
  "Cannot proceed without a row exchange"%string.

(** The three arrays the loops of [lu] write: [A.__value], [L.__value] and
    [U.__value]. *)
Record lu_state : Type := LuState {
  luA : array2;
  luL : array2;
  luU : array2
}.

(** [for (let j = k + 1; j < n; ++j)
       A[i][j] = A[i][j] - L[i][k] * A[k][j]]. *)
Definition lu_eliminate_row (n k i : nat) (L A : array2) : array2 :=
  for_range k.+1 n
    (fun A j => set2 A i j (get2 A i j - get2 L i k * get2 A k j)) A.

(** [for (let i = k + 1; i < n; ++i) {
       L[i][k] = A[i][k] / A[k][k]; (the loop on j) }]. *)
Definition lu_eliminate (n k : nat) (AL : array2 * array2) : array2 * array2 :=
  for_range k.+1 n
    (fun AL i =>
       let L := set2 AL.2 i k (get2 AL.1 i k / get2 AL.1 k k) in
       (lu_eliminate_row n k i L AL.1, L)) AL.

(** [for (let l = k; l < n; ++l) U[k][l] = A[k][l]]. *)
Definition lu_copy_row (n k : nat) (A U : array2) : array2 :=
  for_range k n (fun U l => set2 U k l (get2 A k l)) U.

(** The body of the loop on [k] after its guard. *)
Definition lu_body (n k : nat) (st : lu_state) : lu_state :=
  let L := set2 (luL st) k k 1 in
  let AL := lu_eliminate n k (luA st, L) in
  {| luA := AL.1; luL := AL.2; luU := lu_copy_row n k AL.1 (luU st) |}.

(** One turn of the loop on [k]: the guard
    [if (Math.abs(A[k][k]) < tol) throw Error(...)], then the body. *)
Definition lu_step (n : nat) (st : lu_state) (k : nat) : result lu_state :=
  if `|get2 (luA st) k k| < tol then Throw msg_row_exchange
  else Ok (lu_body n k st).

(** The arrays [lu] starts from: [this.clone()], [this.zeros()],
    [this.zeros()]. *)
Definition lu_init (this : Matrix) : lu_state :=
  {| luA := value (clone this);
     luL := value (zeros this);
     luU := value (zeros this) |}.

(** [Matrix.prototype.lu]; the result is the pair [[L, U]]. *)
Definition lu (this : Matrix) : result (Matrix * Matrix) :=
  let n := getRows this in
  let* st := for_rangeM 0 n (lu_step n) (lu_init this) in
  Ok (Matrix_of (luL st), Matrix_of (luU st)).

(** The arrays at the start of turn [k] when no guard has fired before, and
    the pivot [A[k][k]] that turn [k] tests. *)
Definition lu_working (this : Matrix) (k : nat) : lu_state :=
  for_range 0 k (fun st k' => lu_body (getRows this) k' st) (lu_init this).

Definition lu_pivot (this : Matrix) (k : nat) : num :=
  get2 (luA (lu_working this k)) k k.

(** The product of two matrices over exact arithmetic: [n] is the common
    dimension, the result has the rows of [L] and the columns of [U]. *)
Definition matmul (n p : nat) (L U : array2) : array2 :=
  [seq [seq \sum_(0 <= k < n) nth 0 l k * get2 U k j | j <- iota 0 p] | l <- L].

(** The multiplier of row [i] at turn [k]: [A[i][k] / A[k][k]]. *)
Definition multiplier (k : nat) (A : array2) (i : nat) : num :=
  get2 A i k / get2 A k k.

(** Turn [k] is the first one whose guard fires. *)
Definition first_small_pivot (M : Matrix) (k : nat) : Prop :=
  (forall k', (k' < k)%N -> ~~ (`|lu_pivot M k'| < tol))
  /\ `|lu_pivot M k| < tol.

(** The invariant of the loop on [k] of [lu], for the [n] x [n] matrix with
    cells [a].  Before turn [k]: the first [k] columns of [L] and rows of [U]
    are final and already reproduce the rows and columns of [a] with an
    index below [k]; the block of [A] from [k] on holds what remains of
    [a]. *)
Record lu_inv (n : nat) (a : nat -> nat -> num) (k : nat) (st : lu_state)
  : Prop := LuInv {
  inv_rest : forall i j, (k <= i < n)%N -> (k <= j < n)%N ->
    get2 (luA st) i j
    = a i j - \sum_(0 <= p < k) get2 (luL st) i p * get2 (luU st) p j;
  inv_done : forall i j, (i < n)%N -> (j < n)%N -> (i < k)%N || (j < k)%N ->
    a i j = \sum_(0 <= p < k) get2 (luL st) i p * get2 (luU st) p j;
  inv_L0 : forall i p, (k <= p)%N || (i < p)%N -> get2 (luL st) i p = 0;
  inv_L1 : forall p, (p < k)%N -> get2 (luL st) p p = 1;
  inv_U0 : forall p j, (k <= p)%N || (j < p)%N -> get2 (luU st) p j = 0
}.

(** ** solve *)

(** [for (var j = 0; j < k; ++j) s = s + L[k][j] * c[j];
     c[k] = b[k] - s; s = 0;] for [k] from [0] to [n - 1], starting from
    [s = 0] and [c = []]. *)
Definition forward_substitution (n : nat) (L : array2) (b : seq num)
  : seq num :=
  (for_range 0 n
     (fun (sc : num * seq num) k =>
        let s := for_range 0 k
                   (fun s j => s + get2 L k j * nth 0 sc.2 j) sc.1 in
        (0, set_nth 0 sc.2 k (nth 0 b k - s)))
     (0, [::])).2.

(** [for (var a = n - 1; a > -1; --a) { var t = 0;
       for (var b = a + 1; b < n; ++b) t = t + U[a][b] * x[b];
       x[a] = (c[a] - t) / U[a][a]; }], starting from [x = []]. *)
Definition back_substitution (n : nat) (U : array2) (c : seq num) : seq num :=
  foldl
    (fun x a =>
       let t := for_range a.+1 n (fun t b => t + get2 U a b * nth 0 x b) 0 in
       set_nth 0 x a ((nth 0 c a - t) / get2 U a a))
    [::] (rev (iota 0 n)).

(** [Matrix.prototype.solve]: the LU factors of a clone, then the two
    substitutions. *)
Definition solve (this : Matrix) (b : seq num) : result (seq num) :=
  let A := clone this in
  let* LU := lu A in
  let n := getRows this in
  let c := forward_substitution n (value LU.1) b in
  Ok (back_substitution n (value LU.2) c).

(** ** determinant *)

Definition msg_not_square : string :=
  "The Matrix needs to be a square Matrix to calculate the determinant"%string.

(** [Matrix.prototype.isSquare]: [equals(this.getCols(), this.getRows())]. *)
Definition isSquare (this : Matrix) : result bool :=
  let* cols := getCols this in Ok (cols == getRows this).

(** [Matrix.prototype.diagproduct]:
    [fold((acc, x, idx) => { acc *= x[idx]; return acc })(1)(this.__value)]. *)
Definition diagproduct (this : Matrix) : num :=
  afold (fun acc x idx => acc * nth 0 x idx) 1 (value this).

(** [Matrix.prototype.determinant]. *)
Definition determinant (this : Matrix) : result num :=
  let* square := isSquare this in
  if square then
    let* cols := getCols this in
    if cols == 2%N then
      let a := get2 (value this) 0 0 in
      let b := get2 (value this) 0 1 in
      let c := get2 (value this) 1 0 in
      let d := get2 (value this) 1 1 in
      Ok (a * d - b * c)
    else
      let* lu := lu this in
      let detA := diagproduct lu.1 in
      let detB := diagproduct lu.2 in
      Ok (detA * detB)
  else Throw msg_not_square.

(** ** rref and rank *)

(** How the [while] loop of [rref] ends: with a row [i] and a column [lead]
    whose cell is not zero, or by the [return] inside it. *)
Inductive search : Type :=
  | Found (i lead : nat)
  | Exhausted
  | SearchOutOfFuel.

(** [while (R[i][lead] === 0) {
       ++i;
       if (rows === i) { i = r; ++lead; if (cols === lead) return R }
     }], with a bound [fuel] on the number of tests of the condition. *)
Fixpoint rref_search (fuel : nat) (R : array2) (rows cols r i lead : nat)
  : search :=
  if fuel is fuel'.+1 then
    if get2 R i lead == 0 then
      if rows == i.+1 then
        if cols == lead.+1 then Exhausted
        else rref_search fuel' R rows cols r r lead.+1
      else rref_search fuel' R rows cols r i.+1 lead
    else Found i lead
  else SearchOutOfFuel.

(** [tmp = R[i]; R[i] = R[r]; R[r] = tmp]. *)
Definition swap_rows (R : array2) (i r : nat) : array2 :=
  let tmp := nth [::] R i in
  set_nth [::] (set_nth [::] R i (nth [::] R r)) r tmp.

(** The list [s] with its cells [i] and [r] exchanged, which is what these
    three statements do to an array, and the index whose cell the cell [k]
    of the result holds. *)
Definition exchange (T : Type) (x0 : T) (s : seq T) (i r : nat) : seq T :=
  set_nth x0 (set_nth x0 s i (nth x0 s r)) r (nth x0 s i).

Definition exchange_index (i r k : nat) : nat :=
  if k == r then i else if k == i then r else k.

(** [val = R[r][lead]; for (j = 0; j < cols; ++j) R[r][j] /= val]. *)
Definition rref_normalize (cols r lead : nat) (R : array2) : array2 :=
  let val := get2 R r lead in
  for_range 0 cols (fun R j => set2 R r j (get2 R r j / val)) R.

(** [for (i = 0; i < rows; ++i) {
       if (i === r) continue;
       val = R[i][lead];
       for (j = 0; j < cols; ++j) R[i][j] -= val * R[r][j] }]. *)
Definition rref_eliminate (rows cols r lead : nat) (R : array2) : array2 :=
  for_range 0 rows
    (fun R i =>
       if i == r then R
       else
         let val := get2 R i lead in
         for_range 0 cols
           (fun R j => set2 R i j (get2 R i j - val * get2 R r j)) R) R.

(** What a turn of a loop with a [return] in its body does. *)
Inductive turn (S T : Type) : Type :=
  | Next (s : S)
  | Return (x : T)
  | TurnOutOfFuel.
Arguments Next {S T} s.
Arguments Return {S T} x.
Arguments TurnOutOfFuel {S T}.

Fixpoint for_each_return {S T : Type} (body : S -> nat -> turn S T) (s : S)
  (ks : seq nat) : turn S T :=
  if ks is k :: ks' then
    match body s k with
    | Next s' => for_each_return body s' ks'
    | Return x => Return x
    | TurnOutOfFuel => TurnOutOfFuel
    end
  else Next s.

(** The turn [r] of the loop of [rref]; the state is [lead] and the rows of
    [resultMatrix]. *)
Definition rref_turn (rows cols : nat) (st : nat * array2) (r : nat)
  : turn (nat * array2) array2 :=
  let: (lead, R) := st in
  if (cols <= lead)%N then Return R
  else
    match rref_search (rows * cols).+1 R rows cols r r lead with
    | Found i lead =>
        let R := swap_rows R i r in
        let R := rref_normalize cols r lead R in
        let R := rref_eliminate rows cols r lead R in
        Next (lead.+1, R)
    | Exhausted => Return R
    | SearchOutOfFuel => TurnOutOfFuel
    end.

(** [Matrix.prototype.rref].  [this.getCols()] is only called inside the
    loop, where [this] has a row 0: it is the length of that row. *)
Definition rref (this : Matrix) : result Matrix :=
  let resultMatrix := clone this in
  let rows := getRows this in
  let cols := size (head [::] (value this)) in
  match for_each_return (rref_turn rows cols) (0%N, value resultMatrix)
                        (iota 0 rows) with
  | Next (_, R) => Ok {| value := R; precision := precision resultMatrix |}
  | Return R => Ok {| value := R; precision := precision resultMatrix |}
  | TurnOutOfFuel => OutOfFuel
  end.

(** [Matrix.prototype.rank]:
    [for (let i = 0; i < rref.getCols(); ++i) result += rref.__value[i][i]].
    Reading a cell of an absent row [rref.__value[i]] is a [TypeError]. *)
Definition rank (this : Matrix) : result num :=
  let* rref := rref this in
  let* cols := getCols rref in
  for_rangeM 0 cols
    (fun result i =>
       if (i < getRows rref)%N then Ok (result + get2 (value rref) i i)
       else Throw TypeError) 0.

(** * The object store

    The operations above take and return values.  [lu], [rref] and [inverse]
    are written with assignments to the cells of arrays that other Matrix
    instances could share, so what they leave of the caller's matrix is a
    statement about the store: the rows (arrays of numbers), the arrays of
    rows, and the Matrix instances, each reached through a reference. *)

Module Heap.

(** A JavaScript value as far as [Matrix.of] and [__value] go: a reference to
    a Matrix instance, a reference to an array of rows, or anything else (a
    function, a number, ...), named by a tag. *)
Inductive val : Type :=
  | VMatrix (m : nat)
  | VArray (a : nat)
  | VOther (tag : nat).

(** A Matrix instance: [__value], and [precision] when [setPrecision] gave
    the instance one of its own (it reads the prototype's [4] otherwise). *)
Record instance : Type := Instance {
  inst_value : val;
  inst_precision : option int
}.

(** The store.  A cell of an array of rows holds a reference to a row, or
    [None] for [undefined] (a hole left by a write past the end). *)
Record heap : Type := MkHeap {
  rows : seq (seq num);
  arrays : seq (seq (option nat));
  objects : seq instance
}.

(** A piece of program: from a store to the store it leaves and its
    outcome. *)
Definition prog (X : Type) : Type := heap -> heap * result X.

Definition ret {X : Type} (x : X) : prog X := fun h => (h, Ok x).

Definition throw {X : Type} (msg : string) : prog X := fun h => (h, Throw msg).

Definition out_of_fuel {X : Type} : prog X := fun h => (h, OutOfFuel).

Definition pbind {X Y : Type} (p : prog X) (f : X -> prog Y) : prog Y :=
  fun h =>
    match p h with
    | (h', Ok x) => f x h'
    | (h', Throw msg) => (h', Throw msg)
    | (h', OutOfFuel) => (h', OutOfFuel)
    end.

Notation "'let!' x ':=' p 'in' k" := (pbind p (fun x => k))
  (at level 200, x name, p at level 100, k at level 200, right associativity).

Notation "p ';;' k" := (pbind p (fun _ => k))
  (at level 100, k at level 200, right associativity).

(** ** Allocation, loads and stores *)

Definition alloc_row (r : seq num) : prog nat :=
  fun h => (MkHeap (rcons (rows h) r) (arrays h) (objects h),
            Ok (size (rows h))).

Definition alloc_array (s : seq (option nat)) : prog nat :=
  fun h => (MkHeap (rows h) (rcons (arrays h) s) (objects h),
            Ok (size (arrays h))).

Definition alloc_object (o : instance) : prog nat :=
  fun h => (MkHeap (rows h) (arrays h) (rcons (objects h) o),
            Ok (size (objects h))).

Definition load_row (ra : nat) : prog (seq num) :=
  fun h => (h, Ok (nth [::] (rows h) ra)).

Definition load_array (a : nat) : prog (seq (option nat)) :=
  fun h => (h, Ok (nth [::] (arrays h) a)).

Definition load_object (m : nat) : prog instance :=
  fun h => (h, Ok (nth (Instance (VOther 0) None) (objects h) m)).

Definition store_row (ra : nat) (r : seq num) : prog unit :=
  fun h => (MkHeap (set_nth [::] (rows h) ra r) (arrays h) (objects h), Ok tt).

Definition store_array (a : nat) (s : seq (option nat)) : prog unit :=
  fun h => (MkHeap (rows h) (set_nth [::] (arrays h) a s) (objects h), Ok tt).

Definition store_object (m : nat) (o : instance) : prog unit :=
  fun h =>
    (MkHeap (rows h) (arrays h)
            (set_nth (Instance (VOther 0) None) (objects h) m o), Ok tt).

(** ** Loops *)

Fixpoint for_each (body : nat -> prog unit) (ks : seq nat) : prog unit :=
  if ks is k :: ks' then body k ;; for_each body ks' else ret tt.

(** [for (let i = lo; i < hi; ++i) body] with [hi] a constant. *)
Definition for_range (lo hi : nat) (body : nat -> prog unit) : prog unit :=
  for_each body (iota lo (hi - lo)).

(** [for (let i = lo; i < bound(); ++i) body]: the bound is a call, made at
    every test.  The number of turns is bounded by the value of the first
    call (plus one for the last test). *)
Fixpoint for_dyn (fuel : nat) (bound : prog nat) (body : nat -> prog unit)
  (i : nat) : prog unit :=
  if fuel is fuel'.+1 then
    let! n := bound in
    if (i < n)%N then body i ;; for_dyn fuel' bound body i.+1 else ret tt
  else out_of_fuel.

Definition for_to (lo : nat) (bound : prog nat) (body : nat -> prog unit)
  : prog unit :=
  let! n := bound in for_dyn (n - lo).+1 bound body lo.

Fixpoint mapM {X Y : Type} (f : X -> prog Y) (s : seq X) : prog (seq Y) :=
  if s is x :: s' then
    let! y := f x in let! ys := mapM f s' in ret (y :: ys)
  else ret [::].

(** ** Reading and writing a Matrix *)

(** [this.__value], which the methods take for an array of rows. *)
Definition value_of (this : nat) : prog nat :=
  let! o := load_object this in
  if inst_value o is VArray a then ret a else throw TypeError.

(** The row [a[i]]; using an [undefined] row is a [TypeError]. *)
Definition row_of (a i : nat) : prog nat :=
  let! s := load_array a in
  if nth None s i is Some ra then ret ra else throw TypeError.

(** [a[i][j]]. *)
Definition read (a i j : nat) : prog num :=
  let! ra := row_of a i in
  let! r := load_row ra in
  ret (nth 0 r j).

(** [a[i][j] = x]. *)
Definition write (a i j : nat) (x : num) : prog unit :=
  let! ra := row_of a i in
  let! r := load_row ra in
  store_row ra (set_nth 0 r j x).

Definition getRows (this : nat) : prog nat :=
  let! a := value_of this in
  let! s := load_array a in
  ret (size s).

Definition getCols (this : nat) : prog nat :=
  let! a := value_of this in
  let! ra := row_of a 0 in
  let! r := load_row ra in
  ret (size r).

Definition precision_of (this : nat) : prog int :=
  let! o := load_object this in
  ret (if inst_precision o is Some p then p else 4%:Z).

Definition setPrecision (this : nat) (p : int) : prog unit :=
  let! o := load_object this in
  store_object this (Instance (inst_value o) (Some p)).

(** The rows of [this.__value], as [map] and [reduce] see them. *)
Definition contents (this : nat) : prog (seq (seq num)) :=
  let! a := value_of this in
  let! s := load_array a in
  mapM (fun o => if o is Some ra then load_row ra else throw TypeError) s.

(** [Matrix.of(val)]: [val instanceof Matrix] returns [val]; a call with a
    Matrix instance as [this] re-seats its [__value]; otherwise
    [new Matrix(val)]. *)
Definition Matrix_of (this : val) (v : val) : prog nat :=
  if v is VMatrix m then ret m
  else if this is VMatrix t then
    let! o := load_object t in
    store_object t (Instance v (inst_precision o)) ;;
    ret t
  else alloc_object (Instance v None).

(** [Matrix.of] on an array of rows that was just built ([map] returns a new
    array whose rows are the arrays its callback returned). *)
Definition new_matrix (rs : seq (seq num)) : prog nat :=
  let! ras := mapM alloc_row rs in
  let! a := alloc_array (map Some ras) in
  Matrix_of (VOther 0) (VArray a).

(** [Matrix.prototype.map] with a callback that returns a new row. *)
Definition map_rows (f : seq num -> nat -> seq num) (this : nat) : prog nat :=
  let! rs := contents this in
  new_matrix (amap f rs).

Definition clone (this : nat) : prog nat :=
  let! M := map_rows (fun row (_ : nat) => amap (fun col (_ : nat) => col) row)
                     this in
  let! p := precision_of this in
  setPrecision M p ;;
  ret M.

Definition zeros (this : nat) : prog nat :=
  map_rows (fun row (_ : nat) => amap (fun (_ : num) (_ : nat) => 0) row) this.

(** [Matrix.prototype.identity], with [util/identity.js]:
    [map((rows, jdx) => (idx === jdx) * 1)(m)] for the row [m] at [idx]. *)
Definition identity (this : nat) : prog nat :=
  map_rows (fun m idx => amap (fun (_ : num) jdx => (idx == jdx)%:R) m) this.

(** [Matrix.prototype.concat] with [util/concat.js]:
    [concat(m, M.__value[idx])] for the row [m] at [idx]. *)
Definition concat (this M : nat) : prog nat :=
  let! other := contents M in
  map_rows (fun m idx => m ++ nth [::] other idx) this.

(** ** lu *)

(** [for (let j = k + 1; j < n; ++j)
       A[i][j] = A[i][j] - L[i][k] * A[k][j]]. *)
Definition lu_eliminate_row (n k i a l : nat) : prog unit :=
  for_range k.+1 n (fun j =>
    let! aij := read a i j in
    let! lik := read l i k in
    let! akj := read a k j in
    write a i j (aij - lik * akj)).

(** [for (let i = k + 1; i < n; ++i) {
       L[i][k] = A[i][k] / A[k][k]; (the loop on j) }]. *)
Definition lu_eliminate (n k a l : nat) : prog unit :=
  for_range k.+1 n (fun i =>
    let! aik := read a i k in
    let! akk := read a k k in
    write l i k (aik / akk) ;;
    lu_eliminate_row n k i a l).

(** [for (let l = k; l < n; ++l) U[k][l] = A[k][l]]. *)
Definition lu_copy_row (n k a u : nat) : prog unit :=
  for_range k n (fun l' =>
    let! akl := read a k l' in
    write u k l' akl).

(** One turn of the loop on [k]. *)
Definition lu_turn (n a l u k : nat) : prog unit :=
  let! akk := read a k k in
  if `|akk| < tol then throw msg_row_exchange
  else
    write l k k 1 ;;
    lu_eliminate n k a l ;;
    lu_copy_row n k a u.

Definition lu (this : nat) : prog (nat * nat) :=
  let! n := getRows this in
  let! A := clone this in
  let! L := zeros this in
  let! U := zeros this in
  let! a := value_of A in
  let! l := value_of L in
  let! u := value_of U in
  for_range 0 n (lu_turn n a l u) ;;
  ret (L, U).

(** ** rref *)

(** The [while] loop, with a bound on the number of its tests. *)
Fixpoint rref_search (fuel : nat) (this R r i lead : nat) : prog search :=
  if fuel is fuel'.+1 then
    let! x := read R i lead in
    if x == 0 then
      let! nrows := getRows this in
      if nrows == i.+1 then
        let! ncols := getCols this in
        if ncols == lead.+1 then ret Exhausted
        else rref_search fuel' this R r r lead.+1
      else rref_search fuel' this R r i.+1 lead
    else ret (Found i lead)
  else ret SearchOutOfFuel.

(** [tmp = R[i]; R[i] = R[r]; R[r] = tmp] on the array of rows. *)
Definition swap (R i r : nat) : prog unit :=
  let! s := load_array R in
  let tmp := nth None s i in
  store_array R (set_nth None s i (nth None s r)) ;;
  let! s := load_array R in
  store_array R (set_nth None s r tmp).

Definition normalize (this R r lead : nat) : prog unit :=
  let! val := read R r lead in
  for_to 0 (getCols this) (fun j =>
    let! x := read R r j in
    write R r j (x / val)).

Definition eliminate (this R r lead : nat) : prog unit :=
  for_to 0 (getRows this) (fun i =>
    if i == r then ret tt
    else
      let! val := read R i lead in
      for_to 0 (getCols this) (fun j =>
        let! x := read R i j in
        let! y := read R r j in
        write R i j (x - val * y))).

(** The loop on [r], from the turn [r] on; [ret tt] is both the end of the
    loop and the [return resultMatrix] inside it. *)
Fixpoint rref_loop (fuel : nat) (this R r lead : nat) : prog unit :=
  if fuel is fuel'.+1 then
    let! nrows := getRows this in
    if (r < nrows)%N then
      let! ncols := getCols this in
      if (ncols <= lead)%N then ret tt
      else
        let! found := rref_search (nrows * ncols).+1 this R r r lead in
        match found with
        | Found i lead =>
            swap R i r ;;
            normalize this R r lead ;;
            eliminate this R r lead ;;
            rref_loop fuel' this R r.+1 lead.+1
        | Exhausted => ret tt
        | SearchOutOfFuel => out_of_fuel
        end
    else ret tt
  else out_of_fuel.

Definition rref (this : nat) : prog nat :=
  let! resultMatrix := clone this in
  let! R := value_of resultMatrix in
  let! nrows := getRows this in
  rref_loop nrows.+1 this R 0 0 ;;
  ret resultMatrix.

(** ** inverse *)

(** [Inv.__value.reduce((result, x) => {
       const half = x.length / 2;
       result.push(x.slice(half, x.length)); return result }, [])]:
    [slice] truncates [half]. *)
Definition inverse (this : nat) : prog nat :=
  let! A := clone this in
  let! I := identity A in
  let! C := concat A I in
  let! Inv := rref C in
  let! xs := contents Inv in
  new_matrix [seq drop (size x %/ 2)%N x | x <- xs].

(** ** What a call leaves of the store *)

(** Every row, array of rows and instance of [h] is in [h'], unchanged. *)
Definition extends (h h' : heap) : Prop :=
  [/\ take (size (rows h)) (rows h') = rows h,
      take (size (arrays h)) (arrays h') = arrays h
    & take (size (objects h)) (objects h') = objects h].

(** The instance [this] and the arrays it reaches are in [h]. *)
Definition allocated (h : heap) (this : nat) : bool :=
  (this < size (objects h))%N &&
  match inst_value (nth (Instance (VOther 0) None) (objects h) this) with
  | VArray a =>
      (a < size (arrays h))%N &&
      all (fun o => if o is Some ra then (ra < size (rows h))%N else false)
          (nth [::] (arrays h) a)
  | _ => false
  end.

(** [p], started in a store where [P] holds, ends in a store where [Q] holds
    of its result, or, when it does not return, where [E] holds. *)
Definition hoare {X : Type} (P : heap -> Prop) (p : prog X)
  (Q : X -> heap -> Prop) (E : heap -> Prop) : Prop :=
  forall h, P h ->
    match p h with
    | (h', Ok x) => Q x h'
    | (h', _) => E h'
    end.

(** The rows that the references [rs] read in the store. *)
Definition view (h : heap) (rs : seq nat) : array2 :=
  [seq nth [::] (rows h) r | r <- rs].

(** The store after the cell [j] of the row at reference [r] is set to
    [x]. *)
Definition written (h : heap) (r j : nat) (x : num) : heap :=
  MkHeap (set_nth [::] (rows h) r (set_nth 0 (nth [::] (rows h) r) j x))
         (arrays h) (objects h).

(** During the loops of [lu] the arrays of rows and the instances of the
    store are [arrs] and [objs], and the references [ra], [rl] and [ru] read
    the three arrays of the value-level state. *)
Record lu_rel (arrs : seq (seq (option nat))) (objs : seq instance)
  (ra rl ru : seq nat) (st : lu_state) (h : heap) : Prop := LuRel {
  rel_arrays : arrays h = arrs;
  rel_objects : objects h = objs;
  rel_A : view h ra = luA st;
  rel_L : view h rl = luL st;
  rel_U : view h ru = luU st
}.

(** The instance [M] of the store holds the matrix [rs]: its [__value] is the
    array of rows [a], whose cells are the references [refs], which read the
    rows [rs]; all of them are in the store. *)
Record holds (h : heap) (M a : nat) (refs : seq nat) (rs : array2)
  : Prop := Holds {
  holds_object : (M < size (objects h))%N;
  holds_value :
    inst_value (nth (Instance (VOther 0) None) (objects h) M) = VArray a;
  holds_array : (a < size (arrays h))%N;
  holds_refs : nth [::] (arrays h) a = [seq Some r | r <- refs];
  holds_rows : all (fun r => r < size (rows h))%N refs;
  holds_view : view h refs = rs
}.

(** During the loop of [rref] the instances of the store are [objs]; the
    array of rows [a] of [this] holds the references [refs_this], which read
    the rows [rs]; the array of rows [R] of [resultMatrix] holds the
    references [refs0] in some order, and they read the rows [st] of the
    value-level state. *)
Record rref_rel (objs : seq instance) (a R : nat) (refs_this refs0 : seq nat)
  (rs : array2) (st : array2) (h : heap) : Prop := RrefRel {
  rr_objects : objects h = objs;
  rr_this : nth [::] (arrays h) a = [seq Some r | r <- refs_this];
  rr_rows : view h refs_this = rs;
  rr_result : exists refs,
    [/\ nth [::] (arrays h) R = [seq Some r | r <- refs], uniq refs,
        size refs = size refs0, {subset refs <= refs0} & view h refs = st]
}.

(** The outcome of a program against the outcome of its value-level
    counterpart: both return, in related states, or both throw the same
    message. *)
Definition same_outcome {S X : Type} (rel : S -> heap -> Prop)
  (r : result S) (out : heap * result X) : Prop :=
  match r, out with
  | Ok s, (h, Ok _) => rel s h
  | Throw msg, (_, Throw msg') => msg = msg'
  | _, _ => False
  end.

(** [p] leaves the store as it found it. *)
Definition reads {X : Type} (p : prog X) : Prop := forall h, (p h).1 = h.

(** A reference to a row that did not exist in a store with [n] rows
    ([undefined] counts as one). *)
Definition fresh_ref (n : nat) (o : option nat) : bool :=
  if o is Some ra then (n <= ra)%N else true.

(** The invariant of a call started in [h0], with [ms] the instances it has
    created so far: the store extends [h0]; the arrays of rows created since
    hold only rows created since; the instances created since have only
    arrays created since as [__value]. *)
Record frame_inv (h0 : heap) (ms : seq nat) (h : heap) : Prop := FrameInv {
  inv_extends : extends h0 h;
  inv_arrays : forall a, (size (arrays h0) <= a)%N ->
    all (fresh_ref (size (rows h0))) (nth [::] (arrays h) a);
  inv_objects : forall m, (size (objects h0) <= m < size (objects h))%N ->
    if inst_value (nth (Instance (VOther 0) None) (objects h) m) is VArray a
    then (size (arrays h0) <= a)%N else true;
  inv_live : all (fun m => size (objects h0) <= m < size (objects h))%N ms
}.

(** [keeps I p]: the invariant [I] holds when [p] ends, however it ends. *)
Notation keeps I p := (hoare I p (fun _ => I) I).

(** The rows of the matrix a call returns, read in the store it leaves. *)
Definition returned_rows (p : prog nat) (h : heap) : result (seq (seq num)) :=
  match p h with
  | (h', Ok M) => (contents M h').2
  | (_, Throw msg) => Throw msg
  | (_, OutOfFuel) => OutOfFuel
  end.

(** The store that holds the matrix [rs] and nothing else: its rows, the
    array of them, and the instance, at reference 0. *)
Definition store_of (rs : seq (seq num)) : heap :=
  {| rows := rs;
     arrays := [:: [seq Some ra | ra <- iota 0 (size rs)]];
     objects := [:: Instance (VArray 0) None] |}.

End Heap.

(** * More of the Matrix methods

    The methods below are embedded on values, like the ones of the first
    part. *)

(** ** identity, concat, combine and empty *)

(** [util/identity.js]:
    [(m, idx) => map((rows, jdx) => (idx === jdx) * 1)(m)]; the cells of [m]
    are not read. *)
Definition identity_cb {T : Type} (m : seq T) (idx : nat) : seq num :=
  amap (fun (_ : T) jdx => (idx == jdx)%:R) m.

(** [Matrix.prototype.identity]: [Matrix.of(matrixIdentity).ap(this)], where
    [F.ap(M)] is [Matrix.of(M).map(F.__value)]. *)
Definition identity (this : Matrix) : Matrix := Matrix_map identity_cb this.

(** The static [Matrix.identity(rows, cols)] of the bundle:
    [m = Array.apply(null, Array(rows)).map(x => Array.apply(null, Array(cols)))]
    is an array of [rows] arrays of [cols] cells [undefined] (the unit
    value here), and the result is [Matrix.of(matrixIdentity).ap(m)]. *)
Definition Matrix_identity (rows cols : nat) : Matrix :=
  Matrix_of (amap identity_cb (nseq rows (nseq cols tt))).

(** [util/concat.js]: [(M, m, idx) => concat(m, M.__value[idx])], where
    fun.js' [concat] on arrays is [Array.prototype.concat(a, b)].  When [M]
    has no row [idx] JavaScript appends the cell [undefined]; the theorems
    take an [M] that has the rows of the receiver. *)
Definition concat_cb (M : Matrix) (m : seq num) (idx : nat) : seq num :=
  m ++ nth [::] (value M) idx.

(** [Matrix.prototype.concat] with its default [f = concat]:
    [this.map(f(M))]. *)
Definition concat (this M : Matrix) : Matrix := Matrix_map (concat_cb M) this.

(** [Matrix.prototype.combine]: [this.concat(Matrix.of(M), concat)]. *)
Definition combine (this M : Matrix) : Matrix := concat this M.

(** [util/empty.js] is [m => []]; [Matrix.prototype.empty] is
    [this.map(empty)]. *)
Definition empty (this : Matrix) : Matrix :=
  Matrix_map (fun (_ : seq num) (_ : nat) => [::]) this.

(** ** ones, toArray, additiveinverse, hadamard *)

(** [Matrix.prototype.ones]: [this.fill(x => 1)]. *)
Definition ones (this : Matrix) : Matrix := fill (fun _ => 1) this.

(** [Matrix.prototype.toArray]:
    [this.__value.map(row => row.map(col => col))]. *)
Definition toArray (this : Matrix) : array2 :=
  [seq [seq col | col <- row] | row <- value this].

(** [Matrix.prototype.additiveinverse]: [this.multiply(-1)]. *)
Definition additiveinverse (this : Matrix) : result Matrix :=
  multiply this (Scalar (-1)).

(** [Matrix.prototype.hadamard]: [this.multiply(M)]. *)
Definition hadamard (this : Matrix) (M : operand) : result Matrix :=
  multiply this M.

(** ** sum *)

(** [Matrix.prototype.sum]:
    [fold((acc, x) => { acc += fold((prev, next) => prev + next)(0)(x);
                        return acc })(0)(this.__value)]. *)
Definition sum (this : Matrix) : num :=
  afold (fun acc x (_ : nat) =>
           acc + afold (fun prev next (_ : nat) => prev + next) 0 x)
        0 (value this).

(** ** fun.js: equals *)

(** [equals] on two numbers is [identical]: [x === y] (the signed zeros and
    [NaN], which [identical] tells apart from [===], are outside the
    model). *)
Definition equals_number (x y : num) : bool := x == y.

(** [array/equals.js]:
    [if (x.length !== y.length) return false;
     for (i = 0; i < x.length; i++) if (not(equals(x[i], y[i]))) return false;
     return true], with [eq] the [equals] of the cells. *)
Fixpoint equalsArray_from {T : Type} (eq : T -> T -> bool) (x y : seq T)
  : bool :=
  match x, y with
  | a :: x', b :: y' => if ~~ eq a b then false else equalsArray_from eq x' y'
  | _, _ => true
  end.

Definition equalsArray {T : Type} (eq : T -> T -> bool) (x y : seq T) : bool :=
  if size x != size y then false else equalsArray_from eq x y.

(** [equals] on two arrays of rows.  (Two references to one array are
    [identical], and then the arrays hold the same cells.) *)
Definition equals_rows (a b : array2) : bool :=
  equalsArray (equalsArray equals_number) a b.

(** ** isSymmetric and isOrthogonal *)

(** [Matrix.prototype.isSymmetric]:
    [equals(this.__value, Matrix.transpose(this).__value)]. *)
Definition isSymmetric (this : Matrix) : bool :=
  equals_rows (value this) (value (transpose this)).

(** [Matrix.prototype.isOrthogonal]:
    [equals(this.dot(this.transpose()), this.identity())].  The two
    operands are Matrix instances made by [Matrix.of]: [object/equals.js]
    compares them key by key, the inherited methods and [precision] are the
    prototype's for both, and what is left is [equals] on their
    [__value]. *)
Definition isOrthogonal (this : Matrix) : result bool :=
  let* AxAt := dot this (transpose this) in
  let I := identity this in
  Ok (equals_rows (value AxAt) (value I)).

(** ** inverse and divide *)

(** [Matrix.prototype.inverse]: the right halves of the rows of
    [A.concat(A.identity()).rref()];
    [result.push(x.slice(x.length / 2, x.length))], where [slice] truncates
    its first argument. *)
Definition inverse (this : Matrix) : result Matrix :=
  let A := clone this in
  let I := identity A in
  let* Inv := rref (concat A I) in
  Ok (Matrix_of (foldl (fun result x => rcons result (drop (size x %/ 2) x))
                       [::] (value Inv))).

Definition msg_divide : string :=
  "Matrices do not match, cannot create division"%string.
Definition msg_inverse : string :=
  "Matrix is not square, cannot create inverse"%string.

(** [Matrix.prototype.divide].  With a number [M] it is
    [this.multiply(1 / M)]; [1 / 0] is [Infinity] in JavaScript, so the
    theorems take [M <> 0]. *)
Definition divide (this : Matrix) (M : operand) : result Matrix :=
  match M with
  | Mat M =>
      let* differ := shapes_differ this M in
      if differ then Throw msg_divide
      else
        let* square := isSquare M in
        if ~~ square then Throw msg_inverse
        else
          let* mInv := inverse M in
          dot this mInv
  | Scalar M => multiply this (Scalar (1 / M))
  end.

(** ** The cells as a matrix of the algebra library *)

(** The first [n] rows and columns of the cells [v] as a square matrix, and
    the [n] columns that start at column [o]; the theorems on [determinant],
    [rref], [rank] and [inverse] are stated with them. *)
Definition mx_of (n : nat) (v : array2) : 'M[num]_n :=
  \matrix_(i, j) get2 v i j.

Definition mx_block (n o : nat) (v : array2) : 'M[num]_n :=
  \matrix_(i, j) get2 v i (o + j).

(** ** diag *)

(** [Matrix.prototype.diag]:
    [fold((acc, x, idx) => acc.concat(x[idx]))([])(this.__value)].  A cell
    [x[idx]] past the end of the row is [undefined], and [concat] appends it
    as it is: [None] here. *)
Definition diag (this : Matrix) : seq (option num) :=
  afold (fun acc x idx =>
           acc ++ [:: if (idx < size x)%N then Some (nth 0 x idx) else None])
        [::] (value this).

(** * Facts about the helpers *)

Section ArrayHelpers.

Variables (T U R : Type).

Lemma amap_fromE (cb : T -> nat -> U) (x0 : T) i (a : seq T) :
  amap_from cb i a = [seq cb (nth x0 a k) (i + k)%N | k <- iota 0 (size a)].
Proof.
elim: a i => [//|x a IH] i /=; rewrite addn0; congr cons.
rewrite IH -[1%N]/(1 + 0)%N iotaDl -map_comp.
by apply: eq_map => k /=; rewrite addSnnS.
Qed.

Lemma amapE (cb : T -> nat -> U) (x0 : T) (a : seq T) :
  amap cb a = [seq cb (nth x0 a k) k | k <- iota 0 (size a)].
Proof. by rewrite /amap (amap_fromE _ x0). Qed.

Lemma size_amap (cb : T -> nat -> U) (a : seq T) : size (amap cb a) = size a.
Proof. by rewrite /amap; elim: a 0%N => [//|x a IH] i /=; rewrite IH. Qed.

Lemma nth_amap (cb : T -> nat -> U) (x0 : T) (y0 : U) (a : seq T) k :
  (k < size a)%N -> nth y0 (amap cb a) k = cb (nth x0 a k) k.
Proof.
move=> lt_k; rewrite (amapE _ x0) (nth_map 0%N) ?size_iota //.
by rewrite nth_iota.
Qed.

Lemma afold_from_const (cb : R -> T -> R) i (r : R) (a : seq T) :
  afold_from (fun acc x (_ : nat) => cb acc x) i r a = foldl cb r a.
Proof. by elim: a i r => [//|x a IH] i r /=; rewrite IH. Qed.

End ArrayHelpers.

(** * transpose *)

Section Transpose.

(** Column [i] of a list of rows. *)
Let column (s : array2) (i : nat) : seq num := [seq nth 0 r i | r <- s].

Lemma transpose_fold_rcons (s : array2) (r : seq num) :
  foldl transpose_cb [::] (rcons s r) = transpose_cb (foldl transpose_cb [::] s) r.
Proof. by rewrite -cats1 foldl_cat. Qed.

(** After folding the rows [s], all of length [n], row [i] of the accumulator
    is column [i] of [s]. *)
Lemma transpose_fold_nth (n : nat) (s : array2) (i : nat) :
  all (fun r => size r == n) s -> (i < n)%N ->
  nth [::] (foldl transpose_cb [::] s) i = column s i.
Proof.
elim/last_ind: s i => [|s r IH] i; first by rewrite /= nth_nil.
rewrite all_rcons => /andP[/eqP sz_r all_s] lt_i.
rewrite transpose_fold_rcons /transpose_cb (nth_amap _ 0) ?sz_r //.
by rewrite IH // /column map_rcons cats1.
Qed.

Lemma size_transpose_fold (n : nat) (s : array2) :
  all (fun r => size r == n) s -> s != [::] ->
  size (foldl transpose_cb [::] s) = n.
Proof.
case/lastP: s => [//|s r]; rewrite all_rcons => /andP[/eqP sz_r _] _.
by rewrite transpose_fold_rcons /transpose_cb size_amap.
Qed.

Lemma value_transpose (M : Matrix) :
  value (transpose M) = foldl transpose_cb [::] (value M).
Proof. by rewrite /transpose /afold afold_from_const. Qed.

(** The transpose of a matrix with [m >= 1] rows of length [n], written out. *)
Lemma transposeE (m n : nat) (M : Matrix) :
  (0 < m)%N -> has_shape m n (value M) ->
  value (transpose M) = [seq column (value M) i | i <- iota 0 n].
Proof.
move=> m_gt0 /andP[/eqP sz_M all_n]; rewrite value_transpose.
have nonnil : value M != [::] by rewrite -size_eq0 sz_M -lt0n.
apply: (@eq_from_nth _ [::]).
  by rewrite size_map size_iota (size_transpose_fold all_n).
move=> i; rewrite (size_transpose_fold all_n) // => lt_i.
by rewrite (transpose_fold_nth all_n) // (nth_map 0%N) ?size_iota // nth_iota.
Qed.

Lemma has_shape_transpose (m n : nat) (M : Matrix) :
  (0 < m)%N -> has_shape m n (value M) ->
  has_shape n m (value (transpose M)).
Proof.
move=> m_gt0 shM; rewrite (transposeE m_gt0 shM) /has_shape size_map size_iota.
rewrite eqxx /=; apply/allP => r /mapP[i _ ->].
by rewrite /column size_map; case/andP: shM.
Qed.

Lemma get2_transpose (m n : nat) (M : Matrix) (i j : nat) :
  (0 < m)%N -> has_shape m n (value M) -> (i < n)%N -> (j < m)%N ->
  get2 (value (transpose M)) i j = get2 (value M) j i.
Proof.
move=> m_gt0 shM lt_i lt_j; rewrite (transposeE m_gt0 shM) /get2.
rewrite (nth_map 0%N) ?size_iota // nth_iota // add0n /column.
by rewrite (nth_map [::]) //; case/andP: shM => /eqP->.
Qed.

End Transpose.

(** Two arrays of the same shape with the same cells are equal. *)
Lemma array2_ext (m n : nat) (v w : array2) :
  has_shape m n v -> has_shape m n w ->
  (forall i j, (i < m)%N -> (j < n)%N -> get2 v i j = get2 w i j) -> v = w.
Proof.
case/andP=> /eqP sz_v /allP all_v /andP[/eqP sz_w /allP all_w] eq_vw.
apply: (@eq_from_nth _ [::]); first by rewrite sz_v sz_w.
move=> i; rewrite sz_v => lt_i.
have sz_vi : size (nth [::] v i) = n.
  by apply/eqP/all_v/mem_nth; rewrite sz_v.
have sz_wi : size (nth [::] w i) = n.
  by apply/eqP/all_w/mem_nth; rewrite sz_w.
apply: (@eq_from_nth _ 0); first by rewrite sz_vi sz_wi.
by move=> j; rewrite sz_vi => lt_j; apply: eq_vw.
Qed.

(** C8 (as amended): for every matrix with [m >= 1] rows, all of the same
    length [n >= 1], the transpose has [n] rows of length [m], its cell
    [i][j] is the cell [j][i] of the matrix, and transposing twice gives a
    matrix that [equals] the original. *)
Theorem transpose_involutive_nonempty (m n : nat) (M : Matrix) :
  (0 < m)%N -> (0 < n)%N -> has_shape m n (value M) ->
  [/\ has_shape n m (value (transpose M)),
      forall i j, (i < n)%N -> (j < m)%N ->
        get2 (value (transpose M)) i j = get2 (value M) j i
    & equals (transpose (transpose M)) M].
Proof.
move=> m_gt0 n_gt0 shM; have shT := has_shape_transpose m_gt0 shM.
split=> //; first by move=> i j; apply: get2_transpose.
apply/eqP/(array2_ext (has_shape_transpose n_gt0 shT) shM) => i j lt_i lt_j.
by rewrite (get2_transpose n_gt0 shT) // (get2_transpose m_gt0 shM).
Qed.

Lemma transpose_involutive_nonempty_witness :
  let M := Matrix_of [:: [:: -1; 2]; [:: 3; 4]; [:: -8; 2]] in
  [/\ has_shape 2 3 (value (transpose M)),
      forall i j, (i < 2)%N -> (j < 3)%N ->
        get2 (value (transpose M)) i j = get2 (value M) j i
    & equals (transpose (transpose M)) M].
Proof. by apply: (@transpose_involutive_nonempty 3 2). Defined.

(** C8, the claim as stated, fails on a matrix whose rows are empty: the
    transpose of the 2x0 matrix [[[], []]] is [[]], and so is the transpose
    of that. *)
Lemma transpose_involutive_counterexample :
  let M := Matrix_of [:: [::]; [::]] in
  [/\ has_shape 2 0 (value M), value (transpose (transpose M)) = [::]
     & ~ equals (transpose (transpose M)) M].
Proof. by []. Qed.

(** * Elementwise arithmetic: the shape check *)

Lemma shapes_differE (this M : Matrix) :
  value this != [::] -> value M != [::] ->
  shapes_differ this M =
  Ok ((size (head [::] (value this)) != size (head [::] (value M)))
      || (getRows this != getRows M)).
Proof. by rewrite /shapes_differ /getCols; case: (value this); case: (value M). Qed.

(** C6: on matrices that have a column count (at least one row), [add],
    [subtract] and [multiply] throw their shape-mismatch error exactly when
    the column counts or the row counts of receiver and argument differ, and
    return the elementwise result otherwise; with a number as argument they
    return the broadcast result for every receiver. *)
Theorem arithmetic_shape_check (this M : Matrix) :
  value this != [::] -> value M != [::] ->
  let differ := (size (head [::] (value this)) != size (head [::] (value M)))
                || (getRows this != getRows M) in
  [/\ (add this (Mat M) = Throw msg_add <-> differ)
      /\ (~~ differ -> is_ok (add this (Mat M))),
      (subtract this (Mat M) = Throw msg_subtract <-> differ)
      /\ (~~ differ -> is_ok (subtract this (Mat M))),
      (multiply this (Mat M) = Throw msg_hadamard <-> differ)
      /\ (~~ differ -> is_ok (multiply this (Mat M)))
    & forall (T : Matrix) (x : num),
      [/\ add T (Scalar x) = Ok (Matrix_of [seq [seq y + x | y <- r] | r <- value T]),
          subtract T (Scalar x) = Ok (Matrix_of [seq [seq y - x | y <- r] | r <- value T])
        & multiply T (Scalar x) = Ok (Matrix_of [seq [seq y * x | y <- r] | r <- value T])]].
Proof.
move=> this_n0 M_n0 differ.
have bcast (f : num -> num) (T : Matrix) :
    Matrix_map (fun row _ => amap (fun y _ => f y) row) T
    = Matrix_of [seq [seq f y | y <- r] | r <- value T].
  rewrite /Matrix_map; congr Matrix_of; rewrite /amap.
  have mapE (X Y : Type) (g : X -> Y) (s : seq X) i :
      amap_from (fun y (_ : nat) => g y) i s = map g s.
    by elim: s i => [//|y s IH] i /=; rewrite IH.
  by rewrite mapE; apply: eq_map => r; rewrite mapE.
split; last by move=> T x; split; rewrite /= bcast.
- rewrite /add /= shapes_differE // -/differ /=.
  by case: differ; split=> //; split.
- rewrite /subtract /= shapes_differE // -/differ /=.
  by case: differ; split=> //; split.
- rewrite /multiply /= shapes_differE // -/differ /=.
  by case: differ; split=> //; split.
Qed.

Lemma arithmetic_shape_check_witness :
  let this := Matrix_of [:: [:: 5; 4]] in
  let M := Matrix_of [:: [:: 5; 4]; [:: 1; 2]] in
  add this (Mat M) = Throw msg_add.
Proof.
move=> this M.
have [[H _] _ _ _] := @arithmetic_shape_check this M isT isT.
exact: (proj2 H isT).
Defined.

(** * dot *)

Lemma amapM_from_ok (T : eqType) (U : Type) (cb : T -> nat -> result U)
    (f : T -> nat -> U) i (a : seq T) :
  (forall x k, x \in a -> cb x k = Ok (f x k)) ->
  amapM_from cb i a = Ok (amap_from f i a).
Proof.
elim: a i => [//|x a IH] i cbE /=; rewrite cbE ?mem_head //= IH // => y k y_in.
by apply: cbE; rewrite inE y_in orbT.
Qed.

(** The fold of [acc += F x j] is the sum of the terms. *)
Lemma afold_from_sum (F : num -> nat -> num) i (r : num) (a : seq num) :
  afold_from (fun acc x j => acc + F x j) i r a
  = r + \sum_(0 <= k < size a) F (nth 0 a k) (i + k)%N.
Proof.
elim: a i r => [|x a IH] i r /=; first by rewrite big_nil addr0.
rewrite IH big_nat_recl //= addn0 addrA; congr (_ + _).
by apply: eq_bigr => k _; rewrite addSnnS.
Qed.

Lemma afold_sum (F : num -> nat -> num) (a : seq num) :
  afold (fun acc x j => acc + F x j) 0 a
  = \sum_(0 <= k < size a) F (nth 0 a k) k.
Proof. by rewrite /afold afold_from_sum add0r. Qed.

(** The guarded fold of [dot] returns when the indices stay below the
    bound. *)
Lemma afoldM_from_guard (F : num -> nat -> num) (n i : nat) (r : num)
    (a : seq num) :
  (i + size a <= n)%N ->
  afoldM_from (fun acc x j => if (j < n)%N then Ok (acc + F x j)
                              else Throw TypeError) i r a
  = Ok (afold_from (fun acc x j => acc + F x j) i r a).
Proof.
elim: a i r => [//|x a IH] i r /=; rewrite addnS => lt_n.
have -> : (i < n)%N by apply: leq_trans lt_n; rewrite ltnS leq_addr.
by rewrite /= IH // addSn.
Qed.

Lemma has_shape_row (m n : nat) (v : array2) (i : nat) :
  has_shape m n v -> (i < m)%N -> size (nth [::] v i) = n.
Proof.
by case/andP=> /eqP sz_v /allP all_v lt_i; apply/eqP/all_v/mem_nth; rewrite sz_v.
Qed.

Lemma dot_cb_ok (decimals : int) (B : Matrix) (a : seq num) :
  size a = size (value B) -> (0 < size (value B))%N ->
  dot_cb decimals B a
  = Ok (amap (fun (_ : num) i =>
          afold (fun acc x j => acc + round (x * get2 (value B) j i) decimals)
                0 a) (head [::] (value B))).
Proof.
case: B => [[|b0 B'] p] //= sz_a _; rewrite /dot_cb /= /amapM /amap.
rewrite (@amapM_from_ok _ _ _ (fun (_ : num) i =>
  afold (fun acc x j => acc + round (x * get2 (b0 :: B') j i) decimals) 0 a)) //.
by move=> _ k _; rewrite /afoldM afoldM_from_guard // add0n sz_a.
Qed.



(** The rounding is applied to every term: with precision 1 the two
    products [0.04 * 1] each round to [0], so the dot product is [0], whereas
    their sum [0.08] rounds to [0.1]. *)
Lemma dot_is_not_rounding_of_sum :
  let x : num := 4%:Q / 100%:Q in
  let A := setPrecision (Matrix_of [:: [:: x; x]]) 1%:Z in
  let B := Matrix_of [:: [:: 1]; [:: 1]] in
  dot A B = Ok (Matrix_of [:: [:: 0]]) /\ round (x * 1 + x * 1) 1%:Z != 0.
Proof.
move=> x A B; split; last by vm_compute.
by rewrite /dot /=; congr (Ok (Matrix_of [:: [:: _]])).
Qed.

(** * Cells and loops *)

(** Arithmetic on [nat] by [lia], after moving the boolean comparisons of
    ssrnat to their propositional forms. *)
Ltac nat_prop :=
  repeat match goal with
  | H : is_true (_ && _) |- _ => case/andP: H => ? ?
  | H : is_true (leq _ _) |- _ => move/ssrnat.leP: H => H
  | H : is_true (~~ leq _ _) |- _ => rewrite -ltnNge in H
  | H : leq _ _ = false |- _ => move/negbT: H => H
  | H : is_true (@eq_op _ _ _) |- _ => move/eqP: H => H
  | H : is_true (~~ @eq_op _ _ _) |- _ => move/eqP: H => H
  | H : @eq_op _ _ _ = false |- _ => move/negbT: H => H
  end.

Ltac nlia :=
  nat_prop;
  match goal with
  | |- is_true (leq _ _) => apply/ssrnat.leP
  | |- is_true (@eq_op _ _ _) => apply/eqP
  | |- _ => idtac
  end;
  rewrite -?plusE -?minusE -?multE;
  repeat match goal with
  | H : context [addn] |- _ => rewrite -plusE in H
  | H : context [subn] |- _ => rewrite -minusE in H
  | H : context [muln] |- _ => rewrite -multE in H
  end;
  lia.

Lemma get2_set2 (v : array2) i j x i' j' :
  get2 (set2 v i j x) i' j'
  = if (i' == i) && (j' == j) then x else get2 v i' j'.
Proof.
rewrite /get2 /set2 nth_set_nth /=.
by case: (i' =P i) => [->|//] /=; rewrite nth_set_nth.
Qed.

Section ForRange.

Variables (S : Type) (body : S -> nat -> S).

Lemma for_range_nil lo hi (s : S) :
  (hi <= lo)%N -> for_range lo hi body s = s.
Proof. by rewrite /for_range -subn_eq0 => /eqP->. Qed.

Lemma for_rangeSr lo hi (s : S) :
  (lo <= hi)%N ->
  for_range lo hi.+1 body s = body (for_range lo hi body s) hi.
Proof.
by move=> le_lh; rewrite /for_range subSn // -addn1 iotaD foldl_cat /= subnKC.
Qed.

(** Loop invariants: [P t s] holds of the state before turn [t]. *)
Lemma for_range_ind (P : nat -> S -> Prop) lo hi (s : S) :
  (lo <= hi)%N -> P lo s ->
  (forall t s', (lo <= t < hi)%N -> P t s' -> P t.+1 (body s' t)) ->
  P hi (for_range lo hi body s).
Proof.
move=> le_lh P0 Pstep; elim: hi le_lh Pstep => [|hi IH].
  by rewrite leqn0 => /eqP lo0 _; rewrite for_range_nil ?lo0 // -lo0.
rewrite leq_eqVlt => /predU1P[<-|]; first by rewrite for_range_nil.
rewrite ltnS => le_lh Pstep; rewrite for_rangeSr //.
apply: (Pstep); first by rewrite le_lh /=.
by apply: IH => // t s' /andP[le_lt lt_t]; apply: Pstep; rewrite le_lt ltnW.
Qed.

End ForRange.

(** * LU decomposition: what each loop writes *)

Section LuLoops.

Variables (n k : nat).

(** The loop on [j] subtracts [L[i][k]] times row [k] from the cells of row
    [i] right of column [k]. *)
Lemma lu_eliminate_rowE (i : nat) (L A : array2) (i' j' : nat) :
  get2 (lu_eliminate_row n k i L A) i' j'
  = if (i' == i) && (k < j' < n)%N
    then get2 A i j' - get2 L i k * get2 A k j' else get2 A i' j'.
Proof.
rewrite /lu_eliminate_row.
case: (leqP k.+1 n) => [le_kn|lt_nk]; last first.
  have le_nk : (n <= k.+1)%N by nlia.
  rewrite for_range_nil //.
  by case: ifP => // /andP[_ /andP[lt_kj lt_jn]]; exfalso; nlia.
pose P t (A' : array2) := forall i' j', get2 A' i' j'
  = if (i' == i) && (k < j' < t)%N
    then get2 A i j' - get2 L i k * get2 A k j' else get2 A i' j'.
move: i' j'; apply: (@for_range_ind _ _ P) => // [i' j'|t A' /andP[lt_kt lt_tn] IH i' j'].
  by rewrite ltnNge andNb andbF.
rewrite get2_set2 !IH ltnn !andbF /= ltnS (leq_eqVlt j').
case: (i' =P i) => [->|//] /=.
by case: (j' =P t) => [->|_] /=; rewrite ?lt_kt ?andbT.
Qed.

(** The loop on [i], stopped before row [t]. *)
Lemma lu_eliminate_upto (t : nat) (A L : array2) :
  (k < t)%N ->
  let AL := for_range k.+1 t
    (fun AL i =>
       let L := set2 AL.2 i k (get2 AL.1 i k / get2 AL.1 k k) in
       (lu_eliminate_row n k i L AL.1, L)) (A, L) in
  (forall i j, get2 AL.1 i j
     = if (k < i < t)%N && (k < j < n)%N
       then get2 A i j - multiplier k A i * get2 A k j else get2 A i j)
  /\ (forall i j, get2 AL.2 i j
     = if (k < i < t)%N && (j == k) then multiplier k A i else get2 L i j).
Proof.
move=> lt_kt /=.
pose P t (AL : array2 * array2) :=
  (forall i j, get2 AL.1 i j
     = if (k < i < t)%N && (k < j < n)%N
       then get2 A i j - multiplier k A i * get2 A k j else get2 A i j)
  /\ (forall i j, get2 AL.2 i j
     = if (k < i < t)%N && (j == k) then multiplier k A i else get2 L i j).
apply: (@for_range_ind _ _ P) => //.
  by split=> i j; rewrite ltnNge andNb.
move=> t' [A' L'] /andP[lt_kt' _] /= [IHA IHL].
split=> i j.
- rewrite lu_eliminate_rowE // get2_set2 !eqxx /= !IHA !ltnn !andbF /=.
  rewrite ltnS (leq_eqVlt i) /multiplier.
  case: (i =P t') => [->|_] /=; last by [].
  by rewrite lt_kt' ltnn andbF /=.
- rewrite get2_set2 IHL !IHA !ltnn !andbF /= ltnS (leq_eqVlt i) /multiplier.
  case: (i =P t') => [->|_] /=; last by [].
  by rewrite lt_kt' ltnn andbF /=; case: (j == k).
Qed.

(** The loop on [l] copies row [k] of [A], from the diagonal on, to [U]. *)
Lemma lu_copy_rowE (A U : array2) (i j : nat) :
  get2 (lu_copy_row n k A U) i j
  = if (i == k) && (k <= j < n)%N then get2 A k j else get2 U i j.
Proof.
rewrite /lu_copy_row.
case: (leqP k n) => [le_kn|lt_nk]; last first.
  have le_nk : (n <= k)%N by nlia.
  rewrite for_range_nil //.
  by case: ifP => // /andP[_ /andP[le_kj lt_jn]]; exfalso; nlia.
pose P t (U' : array2) := forall i j, get2 U' i j
  = if (i == k) && (k <= j < t)%N then get2 A k j else get2 U i j.
move: i j; apply: (@for_range_ind _ _ P) => // [i j|t U' /andP[le_kt lt_tn] IH i j].
  by rewrite -ltnS ltnNge andNb andbF.
rewrite get2_set2 IH ltnS (leq_eqVlt j).
case: (i =P k) => [->|//] /=.
by case: (j =P t) => [->|_] /=; rewrite ?le_kt ?andbT.
Qed.

(** The body of turn [k], cell by cell: the rows below [k] lose their
    multiple of row [k] right of column [k]; column [k] of [L] receives the
    multipliers under a unit diagonal; row [k] of [U] receives row [k] of
    [A] from the diagonal on.  No row of [A] is moved. *)
Lemma lu_bodyE (st : lu_state) :
  let st' := lu_body n k st in
  [/\ forall i j, get2 (luA st') i j
        = if (k < i < n)%N && (k < j < n)%N
          then get2 (luA st) i j - multiplier k (luA st) i * get2 (luA st) k j
          else get2 (luA st) i j,
      forall i j, get2 (luL st') i j
        = if j == k then
            if i == k then 1
            else if (k < i < n)%N then multiplier k (luA st) i
            else get2 (luL st) i j
          else get2 (luL st) i j
    & forall i j, get2 (luU st') i j
        = if (i == k) && (k <= j < n)%N then get2 (luA st) k j
          else get2 (luU st) i j].
Proof.
rewrite /lu_body /lu_eliminate /=.
case: (leqP k.+1 n) => [lt_kn|le_nk].
  have [EA EL] := @lu_eliminate_upto n (luA st) (set2 (luL st) k k 1) lt_kn.
  split=> i j.
  - by rewrite EA.
  - rewrite EL get2_set2; case: (j =P k) => [->|_]; rewrite ?andbF //.
    rewrite andbT; case: (i =P k) => [->|/eqP ne_ik] /=; first by rewrite ltnn.
    by [].
  - by rewrite lu_copy_rowE EA ltnn.
have le_nk1 : (n <= k.+1)%N by nlia.
rewrite for_range_nil //=; split=> i j.
- by case: ifP => // /andP[/andP[lt_ki lt_in] _]; exfalso; nlia.
- rewrite get2_set2; case: (j =P k) => [->|_]; rewrite ?andbF // andbT.
  case: (i =P k) => [//|_] /=.
  by case: ifP => // /andP[lt_ki lt_in]; exfalso; nlia.
- by rewrite lu_copy_rowE.
Qed.

End LuLoops.

(** * LU decomposition: the invariant of the loop on [k] *)

Section LuInvariant.

Variables (n : nat) (a : nat -> nat -> num).

Lemma lu_inv_step (k : nat) (st : lu_state) :
  (k < n)%N -> get2 (luA st) k k != 0 ->
  lu_inv n a k st -> lu_inv n a k.+1 (lu_body n k st).
Proof.
move=> lt_kn pivot_n0 [Irest Idone IL0 IL1 IU0].
have [EA EL EU] := lu_bodyE n k st.
have sumS i j :
    \sum_(0 <= p < k.+1)
       get2 (luL (lu_body n k st)) i p * get2 (luU (lu_body n k st)) p j
    = \sum_(0 <= p < k) get2 (luL st) i p * get2 (luU st) p j
      + get2 (luL (lu_body n k st)) i k * get2 (luU (lu_body n k st)) k j.
  rewrite big_nat_recr //=; congr (_ + _); apply: eq_big_nat => p /andP[_ lt_pk].
  have ne_pk : (p == k) = false by apply/negbTE; rewrite neq_ltn lt_pk.
  by rewrite EL EU ne_pk.
split.
- move=> i j /andP[lt_ki lt_in] /andP[lt_kj lt_jn].
  rewrite sumS EA EL EU !eqxx lt_ki lt_in lt_kj lt_jn (ltnW lt_kj) /=.
  have -> : (i == k) = false by apply/negbTE; rewrite neq_ltn lt_ki orbT.
  by rewrite Irest ?(ltnW lt_ki) ?(ltnW lt_kj) // opprD addrA.
- move=> i j lt_in lt_jn; rewrite sumS EL EU !eqxx lt_in lt_jn /= !ltnS.
  case: (ltngtP i k) => [lt_ik|lt_ki|->] /= ij_k.
  + by rewrite (IL0 i k) ?leqnn // mul0r addr0; apply: Idone; rewrite ?lt_ik.
  + have lt_jk' : (j <= k)%N by [].
    move: lt_jk'; rewrite leq_eqVlt => /predU1P[->|lt_jk].
      rewrite leqnn /multiplier divfK // addrC Irest ?leqnn ?(ltnW lt_ki) //.
      by rewrite subrK.
    rewrite leqNgt lt_jk /= (IU0 k j) ?leqnn // mulr0 addr0.
    by apply: Idone; rewrite ?lt_jk ?orbT.
  + rewrite mul1r; case: (leqP k j) => [le_kj|lt_jk] /=.
      by rewrite addrC Irest ?leqnn ?le_kj // subrK.
    by rewrite (IU0 k j) ?leqnn // addr0; apply: Idone; rewrite ?lt_jk ?orbT.
- move=> i p; rewrite EL; case: (p =P k) => [->|/eqP ne_pk] cond.
    move: cond; rewrite ltnn /= => lt_ik.
    have -> : (i == k) = false by apply/negbTE; rewrite neq_ltn lt_ik.
    by rewrite ltnNge (ltnW lt_ik) /=; apply: IL0; rewrite leqnn.
  apply: IL0; case/orP: cond => [lt_kp|->]; last by rewrite orbT.
  by rewrite (ltnW lt_kp).
- move=> p; rewrite ltnS leq_eqVlt EL => /predU1P[->|lt_pk]; first by rewrite !eqxx.
  have -> : (p == k) = false by apply/negbTE; rewrite neq_ltn lt_pk.
  exact: IL1.
- move=> p j cond; rewrite EU; case: (p =P k) => [Epk|_] /=; last first.
    apply: IU0; case/orP: cond => [lt_kp|->]; last by rewrite orbT.
    by rewrite (ltnW lt_kp).
  move: cond; rewrite Epk ltnn /= => lt_jk.
  by rewrite leqNgt lt_jk /=; apply: IU0; rewrite leqnn.
Qed.

End LuInvariant.

(** * Shapes *)

Lemma amap_id (T : Type) (s : seq T) : amap (fun x (_ : nat) => x) s = s.
Proof. by rewrite /amap; elim: s 0%N => [//|x s IH] i /=; rewrite IH. Qed.

Lemma amap_map (T U : Type) (f : T -> U) (s : seq T) :
  amap (fun x (_ : nat) => f x) s = map f s.
Proof. by rewrite /amap; elim: s 0%N => [//|x s IH] i /=; rewrite IH. Qed.

Lemma value_clone (M : Matrix) : value (clone M) = value M.
Proof.
rewrite /clone /fromArray /= amap_map -[RHS]map_id.
by apply: eq_map => r; rewrite amap_id.
Qed.

Lemma value_zeros (M : Matrix) :
  value (zeros M) = [seq nseq (size r) 0 | r <- value M].
Proof.
rewrite /zeros /fill /Matrix_map /= amap_map; apply: eq_map => r.
by rewrite amap_map; elim: r => [//|x r /= ->].
Qed.

Lemma get2_zeros (M : Matrix) i j : get2 (value (zeros M)) i j = 0.
Proof.
rewrite /get2 value_zeros; case: (ltnP i (size (value M))) => [lt_i|le_i].
  by rewrite (nth_map [::]) // nth_nseq if_same.
by rewrite [nth [::] _ i]nth_default ?size_map // nth_nil.
Qed.

Lemma has_shape_zeros (m n : nat) (M : Matrix) :
  has_shape m n (value M) -> has_shape m n (value (zeros M)).
Proof.
rewrite value_zeros /has_shape size_map => /andP[-> /allP all_n] /=.
by apply/allP => r /mapP[r' /all_n /eqP sz_r' ->]; rewrite size_nseq sz_r'.
Qed.

Lemma has_shape_set2 (m n : nat) (v : array2) i j x :
  has_shape m n v -> (i < m)%N -> (j < n)%N -> has_shape m n (set2 v i j x).
Proof.
move=> sh lt_i lt_j; have sz_i := has_shape_row sh lt_i.
case/andP: sh => /eqP sz_v /allP all_n.
rewrite /has_shape /set2 size_set_nth sz_v; apply/andP; split.
  by apply/eqP/maxn_idPr.
apply/(all_nthP [::]) => i'; rewrite size_set_nth sz_v (maxn_idPr lt_i) => lt_i'.
rewrite nth_set_nth /=; case: (i' =P i) => [_|_].
  by rewrite size_set_nth sz_i; apply/eqP/maxn_idPr.
by apply/all_n/mem_nth; rewrite sz_v.
Qed.

Lemma for_range_shape (m n lo hi : nat) (body : array2 -> nat -> array2) v :
  (forall t w, (lo <= t < hi)%N -> has_shape m n w -> has_shape m n (body w t)) ->
  has_shape m n v -> has_shape m n (for_range lo hi body v).
Proof.
move=> body_sh sh_v; case: (leqP lo hi) => [le_lh|/ltnW lt_hl].
  exact: (@for_range_ind _ _ (fun _ w => has_shape m n w)).
by rewrite for_range_nil.
Qed.

Lemma lu_body_shape (n k : nat) (st : lu_state) :
  (k < n)%N ->
  [/\ has_shape n n (luA st), has_shape n n (luL st) & has_shape n n (luU st)] ->
  [/\ has_shape n n (luA (lu_body n k st)), has_shape n n (luL (lu_body n k st))
    & has_shape n n (luU (lu_body n k st))].
Proof.
move=> lt_kn [shA shL shU]; rewrite /lu_body /=.
have shAL : has_shape n n (lu_eliminate n k (luA st, set2 (luL st) k k 1)).1
            /\ has_shape n n (lu_eliminate n k (luA st, set2 (luL st) k k 1)).2.
  rewrite /lu_eliminate.
  pose P (_ : nat) (AL : array2 * array2) :=
    has_shape n n AL.1 /\ has_shape n n AL.2.
  apply: (@for_range_ind _ _ P) => //; first by split=> //; apply: has_shape_set2.
  move=> t [A' L'] /andP[lt_kt lt_tn] [/= shA' shL']; split; last exact: has_shape_set2.
  apply: for_range_shape => // j w /andP[lt_kj lt_jn] sh_w.
  exact: has_shape_set2.
case: shAL => shA' shL'; split=> //.
apply: for_range_shape => // l w /andP[le_kl lt_ln] sh_w.
exact: has_shape_set2.
Qed.

(** * LU decomposition: the guarded loop and its result *)

Lemma tol_gt0 : 0 < tol.
Proof. by rewrite /tol invr_gt0 exprn_gt0. Qed.

Lemma ten_pow6_gt1 : 1 < 10%:Q ^+ 6 :> num.
Proof.
have ten_gt1 : 1 < 10%:Q :> num by [].
exact: (etrans (exprn_egt1 6 ten_gt1) (erefl true)).
Qed.

Lemma tol_lt1 : tol < 1.
Proof.
have pos : 0 < 10%:Q ^+ 6 :> num := lt_trans ltr01 ten_pow6_gt1.
exact: (etrans (invf_lt1 pos) ten_pow6_gt1).
Qed.

Lemma pivot_ok_neq0 (x : num) : ~~ (`|x| < tol) -> x != 0.
Proof. by apply: contraNneq => ->; rewrite normr0 tol_gt0. Qed.

(** Two ways to decide the guard without unfolding the tolerance. *)
Lemma pivot_ge1 (x : num) : 1 <= `|x| -> ~~ (`|x| < tol).
Proof. by move=> ge1; rewrite -leNgt (le_trans (ltW tol_lt1)). Qed.

Lemma pivot_eq0 (x : num) : x == 0 -> `|x| < tol.
Proof. by move/eqP->; rewrite normr0 tol_gt0. Qed.

Local Opaque tol.

Lemma for_rangeMSr (S : Type) (body : S -> nat -> result S) (hi : nat) (s : S) :
  for_rangeM 0 hi.+1 body s
  = (let* s' := for_rangeM 0 hi body s in body s' hi).
Proof.
rewrite /for_rangeM !subn0 -addn1 iotaD add0n /=.
elim: (iota 0 hi) s => [|k ks IH] s /=; first by case: (body s hi).
by case: (body s k) => //= s'; rewrite IH.
Qed.

Lemma lu_workingS (M : Matrix) (k : nat) :
  lu_working M k.+1 = lu_body (getRows M) k (lu_working M k).
Proof. by rewrite /lu_working for_rangeSr. Qed.

(** The guarded loop, stopped before turn [m]: it has thrown when the guard
    of a turn below [m] fired, and otherwise holds the working arrays. *)
Lemma lu_loopE (M : Matrix) (m : nat) :
  for_rangeM 0 m (lu_step (getRows M)) (lu_init M)
  = if has (fun k => `|lu_pivot M k| < tol) (iota 0 m)
    then Throw msg_row_exchange else Ok (lu_working M m).
Proof.
elim: m => [//|m IH]; rewrite for_rangeMSr IH -addn1 iotaD has_cat add0n /=.
rewrite addn1 lu_workingS; case: (has _ _) => [//|] /=.
by rewrite orbF /lu_step -/(lu_pivot M m).
Qed.

Lemma has_small_pivotP (M : Matrix) (m : nat) :
  reflect (exists2 k, (k < m)%N & first_small_pivot M k)
          (has (fun k => `|lu_pivot M k| < tol) (iota 0 m)).
Proof.
apply: (iffP idP) => [|[k lt_km [_ small]]]; last first.
  by apply/hasP; exists k => //; rewrite mem_iota.
elim: m => [//|m IH]; rewrite -addn1 iotaD has_cat add0n /= orbF addn1.
case: (boolP (has _ _)) => [/IH[k lt_km Hk] _|/hasPn none /= small].
  by exists k => //; apply: ltnW.
exists m => //; split=> // k' lt_k'.
by apply: none; rewrite mem_iota.
Qed.

Lemma luE (M : Matrix) :
  lu M = if has (fun k => `|lu_pivot M k| < tol) (iota 0 (getRows M))
         then Throw msg_row_exchange
         else Ok (Matrix_of (luL (lu_working M (getRows M))),
                  Matrix_of (luU (lu_working M (getRows M)))).
Proof. by rewrite /lu lu_loopE; case: (has _ _). Qed.

Lemma lu_throwsP (M : Matrix) :
  lu M = Throw msg_row_exchange
  <-> exists2 k, (k < getRows M)%N & first_small_pivot M k.
Proof.
rewrite luE; split=> [|/has_small_pivotP-> //].
by case: has_small_pivotP.
Qed.

Lemma luA_init (M : Matrix) : luA (lu_init M) = value M.
Proof. by rewrite -[RHS]value_clone. Qed.

Lemma lu_init_inv (M : Matrix) (n : nat) :
  lu_inv n (get2 (value M)) 0 (lu_init M).
Proof.
split=> [i j _ _|i j _ _|i p _|p|p j _] //.
- by rewrite big_nil subr0 luA_init.
- exact: get2_zeros.
- exact: get2_zeros.
Qed.

Lemma lu_working_inv (n : nat) (M : Matrix) (k : nat) :
  has_shape n n (value M) -> (k <= n)%N ->
  (forall k', (k' < k)%N -> ~~ (`|lu_pivot M k'| < tol)) ->
  lu_inv n (get2 (value M)) k (lu_working M k)
  /\ [/\ has_shape n n (luA (lu_working M k)),
         has_shape n n (luL (lu_working M k))
       & has_shape n n (luU (lu_working M k))].
Proof.
move=> shM; have szM : getRows M = n by case/andP: shM => /eqP.
elim: k => [_ _|k IH lt_kn pivots].
  split; first exact: lu_init_inv.
  rewrite /lu_working for_range_nil //.
  by split; rewrite ?luA_init //; apply: has_shape_zeros.
have [|inv shapes] := IH (ltnW lt_kn).
  by move=> k' lt_k'; apply: pivots; apply: ltnW.
rewrite lu_workingS szM; split; last exact: lu_body_shape.
by apply: lu_inv_step => //; apply/pivot_ok_neq0/pivots.
Qed.

Lemma get2_matmul (n p : nat) (L U : array2) i j :
  (i < size L)%N -> (j < p)%N ->
  get2 (matmul n p L U) i j = \sum_(0 <= k < n) get2 L i k * get2 U k j.
Proof.
move=> lt_i lt_j; rewrite /get2 /matmul (nth_map [::]) //.
by rewrite (nth_map 0%N) ?size_iota // nth_iota.
Qed.

Lemma has_shape_matmul (n p : nat) (L U : array2) :
  has_shape (size L) p (matmul n p L U).
Proof.
rewrite /has_shape /matmul size_map eqxx /=.
by apply/allP => r /mapP[l _ ->]; rewrite size_map size_iota.
Qed.

(** C1: a square matrix none of whose pivots falls below the tolerance is
    decomposed: [lu] returns [L] and [U] of the same shape, [L] has a unit
    diagonal and zeros above it, [U] has zeros below its diagonal, and the
    product [L U] over exact arithmetic is the matrix itself. *)
Theorem lu_correct (n : nat) (M : Matrix) :
  has_shape n n (value M) ->
  (forall k, (k < n)%N -> ~~ (`|lu_pivot M k| < tol)) ->
  exists L U : Matrix,
    [/\ lu M = Ok (L, U),
        has_shape n n (value L) /\ has_shape n n (value U),
        (forall i, (i < n)%N -> get2 (value L) i i = 1)
        /\ (forall i j, (i < j < n)%N -> get2 (value L) i j = 0),
        forall i j, (j < i < n)%N -> get2 (value U) i j = 0
      & matmul n n (value L) (value U) = value M].
Proof.
move=> shM pivots; have szM : getRows M = n by case/andP: shM => /eqP.
have [[_ Idone IL0 IL1 IU0] [_ shL shU]] := lu_working_inv shM (leqnn n) pivots.
exists (Matrix_of (luL (lu_working M n))), (Matrix_of (luU (lu_working M n))).
have szL : size (luL (lu_working M n)) = n by case/andP: shL => /eqP.
split=> //=.
- rewrite luE szM; case: has_small_pivotP => // -[k lt_kn [_ small]].
  by have := pivots k lt_kn; rewrite small.
- split=> [i lt_i|i j /andP[lt_ij _]]; first exact: IL1.
  by apply: IL0; rewrite lt_ij orbT.
- by move=> i j /andP[lt_ji _]; apply: IU0; rewrite lt_ji orbT.
- apply: (@array2_ext n n) => //; first by rewrite -{1}szL has_shape_matmul.
  move=> i j lt_i lt_j; rewrite get2_matmul ?szL //.
  by rewrite -Idone // lt_i.
Qed.

Lemma lu_correct_witness :
  let M := Matrix_of [:: [:: 5; 1]; [:: 3; -4]] in
  exists L U : Matrix,
    [/\ lu M = Ok (L, U),
        has_shape 2 2 (value L) /\ has_shape 2 2 (value U),
        (forall i, (i < 2)%N -> get2 (value L) i i = 1)
        /\ (forall i j, (i < j < 2)%N -> get2 (value L) i j = 0),
        forall i j, (j < i < 2)%N -> get2 (value U) i j = 0
      & matmul 2 2 (value L) (value U) = value M].
Proof.
move=> M; apply: (@lu_correct 2 M); first by [].
by case=> [|[|//]] _; apply: pivot_ge1; vm_compute.
Defined.

(** C4: on a square matrix, [lu] throws 'Cannot proceed without a row
    exchange' exactly when some turn [k] of its loop is reached with a pivot
    [A[k][k]] of absolute value below [1e-6], and otherwise it returns; and
    a turn never moves a row of [A]: it only subtracts the multiple of row
    [k] from the cells below and right of the pivot. *)
Theorem lu_throws_iff_small_pivot (n : nat) (M : Matrix) :
  has_shape n n (value M) ->
  [/\ lu M = Throw msg_row_exchange
        <-> exists2 k, (k < n)%N & first_small_pivot M k,
      lu M = Throw msg_row_exchange \/ is_ok (lu M)
    & forall k st i j,
        get2 (luA (lu_body n k st)) i j
        = if (k < i < n)%N && (k < j < n)%N
          then get2 (luA st) i j - multiplier k (luA st) i * get2 (luA st) k j
          else get2 (luA st) i j].
Proof.
move=> shM; have szM : getRows M = n by case/andP: shM => /eqP.
split; first by rewrite -szM; apply: lu_throwsP.
  by rewrite luE; case: (has _ _); [left | right].
by move=> k st i j; have [-> _ _] := lu_bodyE n k st.
Qed.

Lemma lu_throws_iff_small_pivot_witness :
  let M := Matrix_of [:: [:: 1; 2; 3]; [:: 4; 5; 6]; [:: 7; 8; 9]] in
  lu M = Throw msg_row_exchange.
Proof.
move=> M; have [[_ H] _ _] := @lu_throws_iff_small_pivot 3 M isT.
apply: H; exists 2%N; first by [].
split; last by apply: pivot_eq0; vm_compute.
by case=> [|[|//]] _; apply: pivot_ge1; vm_compute.
Defined.

(** * solve *)

Lemma foldl_sum (F : nat -> num) (s0 : num) (l : seq nat) :
  foldl (fun s j => s + F j) s0 l = s0 + \sum_(j <- l) F j.
Proof.
elim: l s0 => [|j l IH] s0 /=; first by rewrite big_nil addr0.
by rewrite IH big_cons addrA.
Qed.

Lemma for_range_sum (F : nat -> num) (lo hi : nat) (s0 : num) :
  for_range lo hi (fun s j => s + F j) s0 = s0 + \sum_(lo <= j < hi) F j.
Proof. by rewrite /for_range foldl_sum. Qed.

Lemma lu_ext (A B : Matrix) : value A = value B -> lu A = lu B.
Proof.
move=> eqv; rewrite /lu /getRows /lu_init !value_clone !value_zeros.
by rewrite eqv.
Qed.

Section Substitution.

Variables (n : nat) (L U : array2) (b : seq num).

(** The turn [k] of the forward loop, with [s] back to [0]. *)
Let forward_body (sc : num * seq num) (k : nat) : num * seq num :=
  let s := for_range 0 k (fun s j => s + get2 L k j * nth 0 sc.2 j) sc.1 in
  (0, set_nth 0 sc.2 k (nth 0 b k - s)).

Lemma forward_substitutionP :
  let c := forward_substitution n L b in
  size c = n /\
  forall k, (k < n)%N ->
    nth 0 c k = nth 0 b k - \sum_(0 <= j < k) get2 L k j * nth 0 c j.
Proof.
rewrite /forward_substitution -/forward_body.
pose P t (sc : num * seq num) :=
  [/\ sc.1 = 0, size sc.2 = t
    & forall k, (k < t)%N ->
        nth 0 sc.2 k = nth 0 b k - \sum_(0 <= j < k) get2 L k j * nth 0 sc.2 j].
have [] // : P n (for_range 0 n forward_body (0, [::])).
apply: (@for_range_ind _ _ P) => // t [s c] _ [/= -> sz_c IH]; split=> //=.
  by rewrite size_set_nth sz_c; apply/maxn_idPl.
have keep v j : (j < t)%N -> nth 0 (set_nth 0 c t v) j = nth 0 c j.
  by move=> lt_jt; rewrite nth_set_nth /= ltn_eqF.
move=> k; rewrite ltnS leq_eqVlt => /predU1P[->|lt_kt].
  rewrite {1}nth_set_nth /= eqxx for_range_sum add0r; congr (_ - _).
  by apply: eq_big_nat => j /andP[_ lt_j]; rewrite keep.
rewrite keep // IH //; congr (_ - _).
apply: eq_big_nat => j /andP[_ lt_j]; rewrite keep //.
exact: ltn_trans lt_kt.
Qed.

Variable c : seq num.

(** The turn [a] of the backward loop. *)
Let back_body (x : seq num) (a : nat) : seq num :=
  let t := for_range a.+1 n (fun t b => t + get2 U a b * nth 0 x b) 0 in
  set_nth 0 x a ((nth 0 c a - t) / get2 U a a).

(** The cells of [x] from [m] on satisfy the back-substitution equation. *)
Let solved_from (m : nat) (x : seq num) : Prop :=
  size x = (if m == n then 0%N else n) /\
  forall a, (m <= a < n)%N ->
    nth 0 x a
    = (nth 0 c a - \sum_(a.+1 <= j < n) get2 U a j * nth 0 x j) / get2 U a a.

Lemma back_loop (m : nat) (x : seq num) :
  (m <= n)%N -> solved_from m x ->
  solved_from 0 (foldl back_body x (rev (iota 0 m))).
Proof.
elim: m x => [|m IH] x; first by [].
move=> lt_mn [sz_x eqs]; rewrite -addn1 iotaD rev_cat /= add0n.
apply: IH; first exact: ltnW.
have keep v j : (m < j)%N -> nth 0 (set_nth 0 x m v) j = nth 0 x j.
  by move=> lt_mj; rewrite nth_set_nth /= gtn_eqF.
split.
  rewrite /back_body size_set_nth sz_x (ltn_eqF lt_mn).
  by case: eqP => [<-|_]; [rewrite maxn0 | apply/maxn_idPr].
move=> a /andP[]; rewrite leq_eqVlt => /predU1P[<-|lt_ma] lt_an.
  rewrite /back_body {1}nth_set_nth /= eqxx for_range_sum add0r.
  congr ((_ - _) / _); apply: eq_big_nat => j /andP[lt_mj _].
  by rewrite keep.
rewrite /back_body keep // eqs ?lt_ma //; congr ((_ - _) / _).
apply: eq_big_nat => j /andP[lt_aj _]; rewrite keep //.
exact: ltn_trans lt_aj.
Qed.

Lemma back_substitutionP :
  let x := back_substitution n U c in
  size x = n /\
  forall a, (a < n)%N ->
    nth 0 x a
    = (nth 0 c a - \sum_(a.+1 <= j < n) get2 U a j * nth 0 x j) / get2 U a a.
Proof.
rewrite /back_substitution -/back_body.
have [|sz_x eqs] := @back_loop n [::] (leqnn n).
  by split=> [|a]; rewrite ?eqxx // leqNgt andNb.
split=> [|a lt_an]; last exact: eqs.
by rewrite sz_x; case: (n) => [|n'].
Qed.

End Substitution.



(** * determinant *)

Lemma getCols_shape (m n : nat) (M : Matrix) :
  has_shape m n (value M) -> (0 < m)%N -> getCols M = Ok n.
Proof.
rewrite /getCols /has_shape; case: (value M) => [|r v] /=.
  by move=> /andP[/eqP<-].
by move=> /andP[_ /andP[/eqP-> _]].
Qed.

(** C10: on a 2x2 matrix [determinant] returns [a d - b c] whatever the
    matrix, singular ones included; on a square matrix with three rows or
    more whose elimination meets a pivot below the tolerance it throws
    'Cannot proceed without a row exchange'.  The singular matrices
    [[1, 2], [2, 4]] and [[1, 2, 3], [4, 5, 6], [7, 8, 9]] show the two
    behaviours. *)
Theorem determinant_closed_form_or_throw :
  [/\ forall M : Matrix, has_shape 2 2 (value M) ->
        determinant M
        = Ok (get2 (value M) 0 0 * get2 (value M) 1 1
              - get2 (value M) 0 1 * get2 (value M) 1 0),
      forall (n : nat) (M : Matrix),
        (3 <= n)%N -> has_shape n n (value M) ->
        (exists2 k, (k < n)%N & `|lu_pivot M k| < tol) ->
        determinant M = Throw msg_row_exchange,
      determinant (Matrix_of [:: [:: 1; 2]; [:: 2; 4]]) = Ok 0
    & determinant (Matrix_of [:: [:: 1; 2; 3]; [:: 4; 5; 6]; [:: 7; 8; 9]])
      = Throw msg_row_exchange].
Proof.
have two M : has_shape 2 2 (value M) ->
    determinant M
    = Ok (get2 (value M) 0 0 * get2 (value M) 1 1
          - get2 (value M) 0 1 * get2 (value M) 1 0).
  move=> shM; rewrite /determinant /isSquare (getCols_shape shM) //=.
  by case/andP: shM => /eqP sz_M _; rewrite /getRows sz_M.
have large n M : (3 <= n)%N -> has_shape n n (value M) ->
    (exists2 k, (k < n)%N & `|lu_pivot M k| < tol) ->
    determinant M = Throw msg_row_exchange.
  move=> le3n shM [k lt_kn small].
  have szM : getRows M = n by case/andP: shM => /eqP.
  rewrite /determinant /isSquare (getCols_shape shM) ?(leq_trans _ le3n) //=.
  rewrite szM eqxx (gtn_eqF le3n) luE szM.
  have -> // : has (fun k => `|lu_pivot M k| < tol) (iota 0 n).
  by apply/hasP; exists k; rewrite ?mem_iota.
split; [exact: two | exact: large | | ].
  by rewrite two.
apply: (@large 3); [by [] | by [] | exists 2%N; first by []].
by apply: pivot_eq0; vm_compute.
Qed.

Lemma determinant_closed_form_or_throw_witness :
  let M := Matrix_of [:: [:: 1; 1]; [:: 2; 4]] in
  determinant M
  = Ok (get2 (value M) 0 0 * get2 (value M) 1 1
        - get2 (value M) 0 1 * get2 (value M) 1 0).
Proof.
move=> M; have [H _ _ _] := determinant_closed_form_or_throw.
exact: (H M isT).
Defined.

(** * rref: the search loop ends, and the shape is kept *)

Lemma rref_search_fuel (fuel : nat) (R : array2) (rows cols r i lead d e : nat) :
  cols = (lead + d).+1 -> rows = (i + e).+1 -> (r <= i)%N ->
  (d * (rows - r) + e < fuel)%N ->
  rref_search fuel R rows cols r i lead <> SearchOutOfFuel.
Proof.
elim: fuel i lead d e => [//|fuel IH] i lead d e Ecols Erows le_ri lt_fuel /=.
case: (get2 R i lead == 0); last by [].
case: (rows =P i.+1) => [Ei|ne_i].
  case: (cols =P lead.+1) => [//|ne_lead].
  case: d Ecols lt_fuel => [|d] Ecols lt_fuel; first by rewrite addn0 in Ecols.
  apply: (IH r lead.+1 d (rows - r).-1) => //.
  - by rewrite Ecols addSnnS.
  - by nlia.
  - by rewrite mulSn in lt_fuel; nlia.
case: e Erows lt_fuel => [|e] Erows lt_fuel; first by rewrite addn0 in Erows.
apply: (IH i.+1 lead d e) => //; first by rewrite Erows addSnnS.
  exact: leqW.
by nlia.
Qed.

Lemma rref_search_found (fuel : nat) (R : array2) (rows cols r i lead i' lead' : nat) :
  (r <= i < rows)%N -> (lead < cols)%N ->
  rref_search fuel R rows cols r i lead = Found i' lead' ->
  (r <= i' < rows)%N /\ (lead' < cols)%N.
Proof.
elim: fuel i lead => [//|fuel IH] i lead /andP[le_ri lt_i] lt_lead /=.
case: (get2 R i lead == 0); last by case=> <- <-; rewrite le_ri lt_i.
case: (rows =P i.+1) => [Ei|/eqP ne_i].
  case: (cols =P lead.+1) => [//|/eqP ne_lead].
  apply: IH; first by rewrite leqnn (leq_ltn_trans le_ri).
  by rewrite ltn_neqAle eq_sym ne_lead.
apply: IH => //; rewrite (leqW le_ri) /=.
by rewrite ltn_neqAle eq_sym ne_i.
Qed.

Lemma has_shape_swap (m n : nat) (R : array2) (i r : nat) :
  has_shape m n R -> (i < m)%N -> (r < m)%N -> has_shape m n (swap_rows R i r).
Proof.
move=> sh lt_i lt_r; have sz_i := has_shape_row sh lt_i.
have sz_r := has_shape_row sh lt_r.
case/andP: sh => /eqP sz_R /allP all_n.
have sz_swap : size (swap_rows R i r) = m.
  rewrite /swap_rows !size_set_nth sz_R.
  by rewrite (maxn_idPr lt_i) (maxn_idPr lt_r).
rewrite /has_shape sz_swap eqxx /=; apply/(all_nthP [::]) => k.
rewrite sz_swap /swap_rows !nth_set_nth /= => lt_k.
case: (k == r); first by rewrite sz_i.
rewrite nth_set_nth /=; case: (k == i); first by rewrite sz_r.
by apply/all_n/mem_nth; rewrite sz_R.
Qed.

Lemma rref_turn_shape (m n : nat) (lead : nat) (R : array2) (r : nat) :
  has_shape m n R -> (r < m)%N ->
  match rref_turn m n (lead, R) r with
  | Next (_, R') => has_shape m n R'
  | Return R' => has_shape m n R'
  | TurnOutOfFuel => false
  end.
Proof.
move=> shR lt_r; rewrite /rref_turn; case: (leqP n lead) => [//|lt_lead].
case Es: (rref_search _ _ _ _ _ _ _) => [i lead'||] //; last first.
  have fuel_ok : ((n - lead).-1 * (m - r) + (m - r).-1 < (m * n).+1)%N.
    by nat_prop; apply/ssrnat.leP; rewrite -?plusE -?minusE -?multE; nia.
  have En : n = (lead + (n - lead).-1).+1 by nlia.
  have Em : m = (r + (m - r).-1).+1 by nlia.
  by case: (rref_search_fuel En Em (leqnn r) fuel_ok Es).
have [|/andP[_ lt_i] lt_lead'] := rref_search_found _ lt_lead Es.
  by rewrite leqnn.
apply: for_range_shape => [i' w /andP[_ lt_i'] sh_w|].
  case: (i' =P r) => [//|_].
  apply: for_range_shape => // j w' /andP[_ lt_j] sh_w'.
  exact: has_shape_set2.
apply: for_range_shape => [j w /andP[_ lt_j] sh_w|]; first exact: has_shape_set2.
exact: has_shape_swap.
Qed.

Lemma for_each_return_cons (S T : Type) (body : S -> nat -> turn S T) s k ks :
  for_each_return body s (k :: ks)
  = match body s k with
    | Next s' => for_each_return body s' ks
    | Return x => Return x
    | TurnOutOfFuel => TurnOutOfFuel
    end.
Proof. by []. Qed.

Lemma rref_loop_shape (m n : nat) (ks : seq nat) (lead : nat) (R : array2) :
  has_shape m n R -> all (fun r => r < m)%N ks ->
  match for_each_return (rref_turn m n) (lead, R) ks with
  | Next (_, R') => has_shape m n R'
  | Return R' => has_shape m n R'
  | TurnOutOfFuel => false
  end.
Proof.
elim: ks lead R => [//|r ks IH] lead R shR; rewrite [all _ _]/=.
move=> /andP[lt_r all_ks]; rewrite for_each_return_cons.
have := rref_turn_shape lead shR lt_r.
by case: (rref_turn m n (lead, R) r) => [[lead' R'] shR'|//|//]; apply: IH.
Qed.

Lemma rref_loop_fuel (rows cols : nat) (ks : seq nat) (lead : nat) (R : array2) :
  all (fun r => r < rows)%N ks ->
  for_each_return (rref_turn rows cols) (lead, R) ks <> TurnOutOfFuel.
Proof.
elim: ks lead R => [//|r ks IH] lead R; rewrite [all _ _]/=.
move=> /andP[lt_r all_ks]; rewrite for_each_return_cons {1}/rref_turn.
case: (leqP cols lead) => [//|lt_lead].
case Es: (rref_search _ _ _ _ _ _ _) => [i lead'||]; [exact: IH | by [] |].
have fuel_ok :
    ((cols - lead).-1 * (rows - r) + (rows - r).-1 < (rows * cols).+1)%N.
  by nat_prop; apply/ssrnat.leP; rewrite -?plusE -?minusE -?multE; nia.
have En : cols = (lead + (cols - lead).-1).+1 by nlia.
have Em : rows = (r + (rows - r).-1).+1 by nlia.
by case: (rref_search_fuel En Em (leqnn r) fuel_ok Es).
Qed.

(** [rref] returns: the [while] loop never uses up its bound. *)
Lemma rref_returns (M : Matrix) : exists R : Matrix, rref M = Ok R.
Proof.
rewrite /rref.
case E: (for_each_return _ _ _) => [[lead R]|R|]; [by eexists | by eexists |].
by case: (rref_loop_fuel _ E); apply/allP => r; rewrite mem_iota.
Qed.

Lemma has_shape_rref (m n : nat) (M R : Matrix) :
  (0 < m)%N -> has_shape m n (value M) -> rref M = Ok R ->
  has_shape m n (value R).
Proof.
move=> m_gt0 shM; have szM : getRows M = m by case/andP: shM => /eqP.
have cols_n : size (head [::] (value M)) = n.
  by rewrite -nth0 (has_shape_row shM).
have all_lt : all (fun r => r < m)%N (iota 0 m).
  by apply/allP => r; rewrite mem_iota.
have shC : has_shape m n (value (clone M)) by rewrite value_clone.
have := rref_loop_shape 0%N shC all_lt; rewrite /rref szM cols_n.
by case: (for_each_return _ _ _) => [[lead R']|R'|] // sh [<-].
Qed.

(** * rank *)

Lemma for_rangeM_sum (F : nat -> num) (m hi : nat) (s0 : num) :
  (hi <= m)%N ->
  for_rangeM 0 hi
    (fun s i => if (i < m)%N then Ok (s + F i) else Throw TypeError) s0
  = Ok (s0 + \sum_(0 <= i < hi) F i).
Proof.
elim: hi => [_|hi IH lt_hi]; first by rewrite big_nil addr0.
rewrite for_rangeMSr (IH (ltnW lt_hi)) [LHS]/= lt_hi.
by rewrite big_nat_recr //= addrA.
Qed.

(** Where [rank] returns: on a matrix with at least as many rows as columns
    (and a row), it is the sum of the diagonal cells of the [rref]. *)
Lemma rank_tall (m n : nat) (M : Matrix) :
  (0 < n <= m)%N -> has_shape m n (value M) ->
  exists2 R : Matrix,
    rref M = Ok R & rank M = Ok (\sum_(0 <= i < n) get2 (value R) i i).
Proof.
move=> /andP[n_gt0 le_nm] shM; have m_gt0 := leq_trans n_gt0 le_nm.
have [R rrefM] := rref_returns M; exists R => //.
have shR := has_shape_rref m_gt0 shM rrefM.
have szR : getRows R = m by case/andP: shR => /eqP.
by rewrite /rank rrefM /= (getCols_shape shR) //= szR for_rangeM_sum // add0r.
Qed.

(** C5 fails on a matrix with more columns than rows: the loop of [rank]
    runs over the column count, and on the 1x2 matrix [[1, 2]] it reads the
    cell [1][1] of a [rref] that has a single row. *)
Lemma rank_wide_throws :
  let M := Matrix_of [:: [:: 1; 2]] in
  rref M = Ok (Matrix_of [:: [:: 1; 2]]) /\ rank M = Throw TypeError.
Proof. by split; vm_compute. Qed.

(** * The store: a Hoare logic for [prog] *)

Section HoareRules.

Variables (X Y : Type).
Implicit Types (P : Heap.heap -> Prop) (E : Heap.heap -> Prop).

Lemma hoare_ret P (Q : X -> Heap.heap -> Prop) E (x : X) :
  (forall h, P h -> Q x h) -> Heap.hoare P (Heap.ret x) Q E.
Proof. by move=> PQ h /PQ. Qed.

Lemma hoare_throw P (Q : X -> Heap.heap -> Prop) E msg :
  (forall h, P h -> E h) -> Heap.hoare P (Heap.throw msg) Q E.
Proof. by move=> PE h /PE. Qed.

Lemma hoare_out_of_fuel P (Q : X -> Heap.heap -> Prop) E :
  (forall h, P h -> E h) -> Heap.hoare P Heap.out_of_fuel Q E.
Proof. by move=> PE h /PE. Qed.

Lemma hoare_bind P (Q : X -> Heap.heap -> Prop) (R : Y -> Heap.heap -> Prop) E
    (p : Heap.prog X) (f : X -> Heap.prog Y) :
  Heap.hoare P p Q E -> (forall x, Heap.hoare (Q x) (f x) R E) ->
  Heap.hoare P (Heap.pbind p f) R E.
Proof.
move=> Hp Hf h /Hp; rewrite /Heap.pbind.
by case: (p h) => h' [x /Hf||].
Qed.

Lemma hoare_conseq P P' (Q Q' : X -> Heap.heap -> Prop) E E' (p : Heap.prog X) :
  (forall h, P' h -> P h) -> (forall x h, Q x h -> Q' x h) ->
  (forall h, E h -> E' h) ->
  Heap.hoare P p Q E -> Heap.hoare P' p Q' E'.
Proof.
move=> PP QQ EE Hp h /PP/Hp.
by case: (p h) => h' [x /QQ|msg /EE|/EE].
Qed.

(** A fact that does not depend on the store can be taken out of the
    precondition. *)
Lemma hoare_fact P (phi : Prop) (Q : X -> Heap.heap -> Prop) E (p : Heap.prog X) :
  (phi -> Heap.hoare P p Q E) -> Heap.hoare (fun h => P h /\ phi) p Q E.
Proof. by move=> Hp h [Ph /Hp]; apply. Qed.

(** A program that only reads. *)
Lemma hoare_reads P (p : Heap.prog X) :
  (forall h, (p h).1 = h) -> Heap.hoare P p (fun _ => P) P.
Proof.
by move=> reads h Ph; move: (reads h); case: (p h) => h' [x|msg|] /= ->.
Qed.

End HoareRules.

Section HoareLoops.

Variable (I : Heap.heap -> Prop).

Local Notation keeps p := (Heap.keeps I p).

Lemma keeps_ret (X : Type) (x : X) : keeps (Heap.ret x).
Proof. exact: hoare_ret. Qed.

Lemma keeps_throw (X : Type) msg : keeps (@Heap.throw X msg).
Proof. exact: hoare_throw. Qed.

Lemma keeps_out_of_fuel (X : Type) : keeps (@Heap.out_of_fuel X).
Proof. exact: hoare_out_of_fuel. Qed.

Lemma keeps_bind (X Y : Type) (p : Heap.prog X) (f : X -> Heap.prog Y) :
  keeps p -> (forall x, keeps (f x)) -> keeps (Heap.pbind p f).
Proof. by move=> Hp Hf; apply: hoare_bind Hp _. Qed.

Lemma keeps_reads (X : Type) (p : Heap.prog X) :
  (forall h, (p h).1 = h) -> keeps p.
Proof. exact: hoare_reads. Qed.

Lemma keeps_if (X : Type) (b : bool) (p q : Heap.prog X) :
  keeps p -> keeps q -> keeps (if b then p else q).
Proof. by case: b. Qed.

Lemma keeps_for_each (body : nat -> Heap.prog unit) (ks : seq nat) :
  (forall k, keeps (body k)) -> keeps (Heap.for_each body ks).
Proof.
move=> Hbody; elim: ks => [|k ks IH] /=; first exact: keeps_ret.
by apply: keeps_bind => // _.
Qed.

Lemma keeps_for_range (lo hi : nat) (body : nat -> Heap.prog unit) :
  (forall k, keeps (body k)) -> keeps (Heap.for_range lo hi body).
Proof. exact: keeps_for_each. Qed.

Lemma keeps_for_dyn (fuel : nat) (bound : Heap.prog nat)
    (body : nat -> Heap.prog unit) (i : nat) :
  keeps bound -> (forall k, keeps (body k)) ->
  keeps (Heap.for_dyn fuel bound body i).
Proof.
move=> Hbound Hbody; elim: fuel i => [|fuel IH] i /=.
  exact: keeps_out_of_fuel.
apply: keeps_bind => // n; apply: keeps_if; last exact: keeps_ret.
by apply: keeps_bind => // _.
Qed.

Lemma keeps_for_to (lo : nat) (bound : Heap.prog nat)
    (body : nat -> Heap.prog unit) :
  keeps bound -> (forall k, keeps (body k)) ->
  keeps (Heap.for_to lo bound body).
Proof.
by move=> Hbound Hbody; apply: keeps_bind => // n; apply: keeps_for_dyn.
Qed.

End HoareLoops.

(** * The store: programs that only read *)

Section Reads.

Lemma reads_ret (X : Type) (x : X) : Heap.reads (Heap.ret x).
Proof. by []. Qed.

Lemma reads_throw (X : Type) msg : Heap.reads (@Heap.throw X msg).
Proof. by []. Qed.

Lemma reads_bind (X Y : Type) (p : Heap.prog X) (f : X -> Heap.prog Y) :
  Heap.reads p -> (forall x, Heap.reads (f x)) -> Heap.reads (Heap.pbind p f).
Proof.
move=> Hp Hf h; rewrite /Heap.pbind; move: (Hp h).
by case: (p h) => h' [x|msg|] /= -> //; apply: Hf.
Qed.

Lemma reads_if (X : Type) (b : bool) (p q : Heap.prog X) :
  Heap.reads p -> Heap.reads q -> Heap.reads (if b then p else q).
Proof. by case: b. Qed.

Lemma reads_load_row ra : Heap.reads (Heap.load_row ra).
Proof. by []. Qed.

Lemma reads_load_array a : Heap.reads (Heap.load_array a).
Proof. by []. Qed.

Lemma reads_load_object m : Heap.reads (Heap.load_object m).
Proof. by []. Qed.

Lemma reads_value_of this : Heap.reads (Heap.value_of this).
Proof.
apply: reads_bind => [|o]; first exact: reads_load_object.
by case: (Heap.inst_value o).
Qed.

Lemma reads_row_of a i : Heap.reads (Heap.row_of a i).
Proof.
apply: reads_bind => [|s]; first exact: reads_load_array.
by case: (nth None s i).
Qed.

Lemma reads_read a i j : Heap.reads (Heap.read a i j).
Proof.
apply: reads_bind => [|ra]; first exact: reads_row_of.
by apply: reads_bind => [|r]; [exact: reads_load_row | exact: reads_ret].
Qed.

Lemma reads_getRows this : Heap.reads (Heap.getRows this).
Proof.
apply: reads_bind => [|a]; first exact: reads_value_of.
by apply: reads_bind => [|s]; [exact: reads_load_array | exact: reads_ret].
Qed.

Lemma reads_getCols this : Heap.reads (Heap.getCols this).
Proof.
apply: reads_bind => [|a]; first exact: reads_value_of.
apply: reads_bind => [|ra]; first exact: reads_row_of.
by apply: reads_bind => [|r]; [exact: reads_load_row | exact: reads_ret].
Qed.

Lemma reads_precision_of this : Heap.reads (Heap.precision_of this).
Proof.
by apply: reads_bind => [|o]; [exact: reads_load_object | exact: reads_ret].
Qed.

Lemma reads_mapM (X Y : Type) (f : X -> Heap.prog Y) (s : seq X) :
  (forall x, Heap.reads (f x)) -> Heap.reads (Heap.mapM f s).
Proof.
move=> Hf; elim: s => [|x s IH] /=; first exact: reads_ret.
apply: reads_bind => // y; apply: reads_bind => // ys; exact: reads_ret.
Qed.

Lemma reads_contents this : Heap.reads (Heap.contents this).
Proof.
apply: reads_bind => [|a]; first exact: reads_value_of.
apply: reads_bind => [|s]; first exact: reads_load_array.
by apply: reads_mapM => -[ra|]; [exact: reads_load_row | exact: reads_throw].
Qed.

Lemma reads_rref_search fuel this R r i lead :
  Heap.reads (Heap.rref_search fuel this R r i lead).
Proof.
elim: fuel i lead => [|fuel IH] i lead /=; first exact: reads_ret.
apply: reads_bind => [|x]; first exact: reads_read.
apply: reads_if; last exact: reads_ret.
apply: reads_bind => [|nrows]; first exact: reads_getRows.
apply: reads_if; last exact: IH.
apply: reads_bind => [|ncols]; first exact: reads_getCols.
by apply: reads_if; [exact: reads_ret | exact: IH].
Qed.

End Reads.

(** * The store: what a call leaves of it *)

Lemma take_rcons_le (T : Type) (n : nat) (s : seq T) (x : T) :
  (n <= size s)%N -> take n (rcons s x) = take n s.
Proof.
move=> le_n; rewrite -cats1 take_cat; case: ltnP => // le_sn.
have -> : n = size s by apply/eqP; rewrite eqn_leq le_n.
by rewrite subnn take0 cats0 take_size.
Qed.

Lemma take_set_nth_ge (T : Type) (x0 : T) (n i : nat) (s : seq T) (y : T) :
  (n <= size s)%N -> (n <= i)%N -> take n (set_nth x0 s i y) = take n s.
Proof.
elim: s n i => [|x s IH] [|n] [|i] //= lt_n le_ni.
by rewrite IH.
Qed.

Lemma all_set_nth (T : Type) (P : pred T) (x0 : T) (s : seq T) i y :
  P x0 -> P y -> all P s -> all P (set_nth x0 s i y).
Proof.
move=> Px0 Py; elim: s i => [|x s IH] [|i] /=; rewrite ?Py ?Px0 //=.
- by move=> _; elim: i => [|i IHi] /=; rewrite ?Py ?Px0.
- by case/andP.
- by case/andP=> -> /IH->.
Qed.

Lemma extends_refl (h : Heap.heap) : Heap.extends h h.
Proof. by split; rewrite take_size. Qed.

Lemma extends_sizes (h h' : Heap.heap) :
  Heap.extends h h' ->
  [/\ (size (Heap.rows h) <= size (Heap.rows h'))%N,
      (size (Heap.arrays h) <= size (Heap.arrays h'))%N
    & (size (Heap.objects h) <= size (Heap.objects h'))%N].
Proof.
case=> Er Ea Eo; split.
- by move: (congr1 size Er); rewrite size_take; case: ltnP => [/ltnW|_ <-].
- by move: (congr1 size Ea); rewrite size_take; case: ltnP => [/ltnW|_ <-].
- by move: (congr1 size Eo); rewrite size_take; case: ltnP => [/ltnW|_ <-].
Qed.

Lemma extends_trans (h1 h2 h3 : Heap.heap) :
  Heap.extends h1 h2 -> Heap.extends h2 h3 -> Heap.extends h1 h3.
Proof.
move=> E12 E23; have [s1 s2 s3] := extends_sizes E12.
case: E12 E23 => [Er Ea Eo] [Er' Ea' Eo']; split.
- by rewrite -(take_takel _ s1) Er' Er.
- by rewrite -(take_takel _ s2) Ea' Ea.
- by rewrite -(take_takel _ s3) Eo' Eo.
Qed.

Section Frame.

Variable h0 : Heap.heap.

Local Notation J := (Heap.frame_inv h0).
Local Notation nr := (size (Heap.rows h0)).
Local Notation na := (size (Heap.arrays h0)).
Local Notation no := (size (Heap.objects h0)).
Local Notation dflt := (Heap.Instance (Heap.VOther 0) None).

Lemma frame_inv_init : J [::] h0.
Proof.
split=> // [|a le_a|m]; first exact: extends_refl.
- by rewrite nth_default.
- by case: ltngtP.
Qed.

Lemma frame_inv_weaken (m : nat) (ms : seq nat) (h : Heap.heap) :
  J (m :: ms) h -> J ms h.
Proof. by case=> Eh Ia Io /= /andP[_ live]. Qed.

Lemma keeps_row_write (ms : seq nat) (ra : nat) (r : seq num) :
  (nr <= ra)%N -> Heap.keeps (J ms) (Heap.store_row ra r).
Proof.
move=> le_ra h [Eh Ia Io live]; have [sr _ _] := extends_sizes Eh.
case: Eh => Er Ea Eo; split=> //; split=> //=.
by rewrite take_set_nth_ge.
Qed.

Lemma keeps_array_write (ms : seq nat) (a : nat) (s : seq (option nat)) :
  (na <= a)%N -> all (Heap.fresh_ref nr) s ->
  Heap.keeps (J ms) (Heap.store_array a s).
Proof.
move=> le_a fresh_s h [Eh Ia Io live]; have [_ sa _] := extends_sizes Eh.
case: Eh => Er Ea Eo; split=> /=; first by split; rewrite //= take_set_nth_ge.
- by move=> a' le_a'; rewrite nth_set_nth /=; case: eqP => // _; apply: Ia.
- exact: Io.
- exact: live.
Qed.

Lemma fresh_row_of (ms : seq nat) (a i : nat) :
  (na <= a)%N ->
  Heap.hoare (J ms) (Heap.row_of a i)
             (fun ra h => J ms h /\ (nr <= ra)%N) (J ms).
Proof.
move=> le_a h Jh; rewrite /Heap.row_of /Heap.pbind /=.
have := Heap.inv_arrays Jh le_a.
set s := nth [::] _ a => fresh_s.
have : Heap.fresh_ref nr (nth None s i).
  case: (ltnP i (size s)) => [lt_i|le_i]; last by rewrite nth_default.
  by move/all_nthP: fresh_s; apply.
by case: (nth None s i).
Qed.

Lemma keeps_write (ms : seq nat) (a i j : nat) (x : num) :
  (na <= a)%N -> Heap.keeps (J ms) (Heap.write a i j x).
Proof.
move=> le_a; rewrite /Heap.write.
apply: (hoare_bind (@fresh_row_of ms a i le_a)) => ra.
apply: hoare_fact => le_ra.
apply: keeps_bind => [|r]; first exact/keeps_reads/reads_load_row.
exact: keeps_row_write.
Qed.

Lemma keeps_swap (ms : seq nat) (R i r : nat) :
  (na <= R)%N -> Heap.keeps (J ms) (Heap.swap R i r).
Proof.
move=> le_R.
have fresh_nth h s k : J ms h -> s = nth [::] (Heap.arrays h) R ->
    Heap.fresh_ref nr (nth None s k).
  move=> Jh ->; have := Heap.inv_arrays Jh le_R.
  set s' := nth [::] _ R => fresh_s.
  case: (ltnP k (size s')) => [lt_k|le_k]; last by rewrite nth_default.
  by move/all_nthP: fresh_s; apply.
move=> h Jh; rewrite /Heap.swap /Heap.pbind /=.
set s := nth [::] (Heap.arrays h) R.
have fresh_s : all (Heap.fresh_ref nr) s := Heap.inv_arrays Jh le_R.
have fresh1 : all (Heap.fresh_ref nr) (set_nth None s i (nth None s r)).
  by apply: all_set_nth => //; apply: (fresh_nth h).
have J1 := keeps_array_write le_R fresh1 Jh.
rewrite /Heap.store_array /= in J1.
have /= := keeps_array_write le_R _ J1; apply.
rewrite nth_set_nth /= eqxx; apply: all_set_nth => //.
exact: (fresh_nth h).
Qed.

End Frame.

Section FrameCalls.

Variable h0 : Heap.heap.

Local Notation J := (Heap.frame_inv h0).
Local Notation Ext := (Heap.extends h0).
Local Notation nr := (size (Heap.rows h0)).
Local Notation na := (size (Heap.arrays h0)).
Local Notation no := (size (Heap.objects h0)).
Local Notation dflt := (Heap.Instance (Heap.VOther 0) None).

Lemma keeps_ext (X : Type) (ms : seq nat) (p : Heap.prog X) :
  Heap.keeps (J ms) p -> Heap.hoare (J ms) p (fun _ => J ms) Ext.
Proof. by apply: hoare_conseq => // h []. Qed.

Lemma reads_ext (X : Type) (ms : seq nat) (p : Heap.prog X) :
  Heap.reads p -> Heap.hoare (J ms) p (fun _ => J ms) Ext.
Proof. by move=> Hp; apply/keeps_ext/keeps_reads. Qed.

Lemma fresh_alloc_row (ms : seq nat) (r : seq num) :
  Heap.hoare (J ms) (Heap.alloc_row r)
             (fun ra h => J ms h /\ (nr <= ra)%N) Ext.
Proof.
move=> h [Eh Ia Io live]; have [sr _ _] := extends_sizes Eh.
case: Eh => Er Ea Eo; split=> //; split=> //; split=> //=.
by rewrite take_rcons_le.
Qed.

Lemma fresh_alloc_rows (ms : seq nat) (rs : seq (seq num)) :
  Heap.hoare (J ms) (Heap.mapM Heap.alloc_row rs)
             (fun ras h => J ms h /\ all (fun ra => nr <= ra)%N ras) Ext.
Proof.
elim: rs => [|r rs IH] /=; first exact: hoare_ret.
apply: (hoare_bind (@fresh_alloc_row ms r)) => ra; apply: hoare_fact => le_ra.
apply: (hoare_bind IH) => ras; apply: hoare_fact => le_ras.
by apply: hoare_ret => h Jh; rewrite /= le_ra.
Qed.

Lemma fresh_alloc_array (ms : seq nat) (s : seq (option nat)) :
  all (Heap.fresh_ref nr) s ->
  Heap.hoare (J ms) (Heap.alloc_array s)
             (fun a h => J ms h /\ (na <= a)%N) Ext.
Proof.
move=> fresh_s h [Eh Ia Io live]; have [_ sa _] := extends_sizes Eh.
case: Eh => Er Ea Eo; split=> //; split=> //=.
  by split; rewrite //= take_rcons_le.
move=> a le_a; rewrite nth_rcons; case: ltngtP => // _; exact: Ia.
Qed.

Lemma fresh_alloc_object (ms : seq nat) (a : nat) :
  (na <= a)%N ->
  Heap.hoare (J ms) (Heap.alloc_object (Heap.Instance (Heap.VArray a) None))
             (fun m h => J (m :: ms) h) Ext.
Proof.
move=> le_a h [Eh Ia Io live]; have [_ _ so] := extends_sizes Eh.
case: Eh => Er Ea Eo; split=> //=.
- by split; rewrite //= take_rcons_le.
- move=> m; rewrite size_rcons ltnS nth_rcons => /andP[le_m le_m'].
  by case: ltngtP le_m' => // lt_m _; apply: Io; rewrite le_m.
- rewrite size_rcons so leqnn /=; apply: sub_all live => m /andP[-> lt_m].
  exact: ltnW.
Qed.

Lemma fresh_new_matrix (ms : seq nat) (rs : seq (seq num)) :
  Heap.hoare (J ms) (Heap.new_matrix rs) (fun M h => J (M :: ms) h) Ext.
Proof.
rewrite /Heap.new_matrix.
apply: (hoare_bind (@fresh_alloc_rows ms rs)) => ras.
apply: hoare_fact => le_ras.
have fresh_s : all (Heap.fresh_ref nr) [seq Some ra | ra <- ras].
  by rewrite all_map.
apply: (hoare_bind (@fresh_alloc_array ms _ fresh_s)) => a.
by apply: hoare_fact => le_a; apply: fresh_alloc_object.
Qed.

Lemma fresh_map_rows (ms : seq nat) f (this : nat) :
  Heap.hoare (J ms) (Heap.map_rows f this) (fun M h => J (M :: ms) h) Ext.
Proof.
rewrite /Heap.map_rows.
apply: (hoare_bind (@reads_ext _ ms _ (@reads_contents this))) => rs.
exact: fresh_new_matrix.
Qed.

Lemma fresh_value_of (ms : seq nat) (M : nat) :
  M \in ms ->
  Heap.hoare (J ms) (Heap.value_of M)
             (fun a h => J ms h /\ (na <= a)%N) Ext.
Proof.
move=> M_in h Jh; rewrite /Heap.value_of /Heap.pbind /=.
have live_M := allP (Heap.inv_live Jh) M M_in.
have := Heap.inv_objects Jh live_M.
case: (Heap.inst_value _) => [m|a|tag] //=; by case: Jh.
Qed.

Lemma keeps_setPrecision (ms : seq nat) (M : nat) (p : int) :
  M \in ms -> Heap.keeps (J ms) (Heap.setPrecision M p).
Proof.
move=> M_in h Jh; rewrite /Heap.setPrecision /Heap.pbind /=.
have /andP[le_M lt_M] := allP (Heap.inv_live Jh) M M_in.
case: Jh => Eh Ia Io live; have [_ _ so] := extends_sizes Eh.
have sz : size (set_nth dflt (Heap.objects h) M
                  (Heap.Instance (Heap.inst_value (nth dflt (Heap.objects h) M))
                                 (Some p))) = size (Heap.objects h).
  by rewrite size_set_nth; apply/maxn_idPr.
case: Eh => Er Ea Eo; split=> //=.
- by split; rewrite //= take_set_nth_ge.
- move=> m; rewrite sz nth_set_nth /= => live_m.
  case: (m =P M) => [_|_] /=; last exact: Io.
  by apply: Io; rewrite le_M.
- by rewrite sz.
Qed.

Lemma fresh_clone (ms : seq nat) (this : nat) :
  Heap.hoare (J ms) (Heap.clone this) (fun M h => J (M :: ms) h) Ext.
Proof.
rewrite /Heap.clone; apply: (hoare_bind (@fresh_map_rows ms _ this)) => M.
apply: (hoare_bind (@reads_ext _ _ _ (@reads_precision_of this))) => p.
have M_in : M \in M :: ms by rewrite mem_head.
apply: (hoare_bind (keeps_ext (@keeps_setPrecision _ M p M_in))) => _.
exact: hoare_ret.
Qed.

End FrameCalls.

Section KeepsReads.

Variable I : Heap.heap -> Prop.

Lemma keeps_read a i j : Heap.keeps I (Heap.read a i j).
Proof. exact/keeps_reads/reads_read. Qed.

Lemma keeps_getRows this : Heap.keeps I (Heap.getRows this).
Proof. exact/keeps_reads/reads_getRows. Qed.

Lemma keeps_getCols this : Heap.keeps I (Heap.getCols this).
Proof. exact/keeps_reads/reads_getCols. Qed.

Lemma keeps_rref_search fuel this R r i lead :
  Heap.keeps I (Heap.rref_search fuel this R r i lead).
Proof. exact/keeps_reads/reads_rref_search. Qed.

End KeepsReads.

Create HintDb frame.

#[local] Hint Resolve keeps_ret keeps_throw keeps_out_of_fuel keeps_bind
  keeps_if keeps_for_range keeps_for_to keeps_write keeps_swap : frame.
#[local] Hint Resolve keeps_read keeps_getRows keeps_getCols
  keeps_rref_search : frame.

Section FrameOperations.

Variable h0 : Heap.heap.

Local Notation J := (Heap.frame_inv h0).
Local Notation Ext := (Heap.extends h0).
Local Notation na := (size (Heap.arrays h0)).

(** [lu] writes only in the clone and in the two matrices of zeros. *)
Lemma lu_frame (ms : seq nat) (this : nat) :
  Heap.hoare (J ms) (Heap.lu this) (fun _ => J ms) Ext.
Proof.
rewrite /Heap.lu.
apply: (hoare_bind (@reads_ext _ _ _ _ (@reads_getRows this))) => n.
apply: (hoare_bind (@fresh_clone _ _ this)) => A.
apply: (hoare_bind (@fresh_map_rows _ _ _ this)) => L.
apply: (hoare_bind (@fresh_map_rows _ _ _ this)) => U.
set ms' := [:: U, L, A & ms].
have A_in : A \in ms' by rewrite !inE eqxx !orbT.
have L_in : L \in ms' by rewrite !inE eqxx !orbT.
have U_in : U \in ms' by rewrite !inE eqxx.
apply: (hoare_bind (@fresh_value_of _ _ A A_in)) => a; apply: hoare_fact => le_a.
apply: (hoare_bind (@fresh_value_of _ _ L L_in)) => l; apply: hoare_fact => le_l.
apply: (hoare_bind (@fresh_value_of _ _ U U_in)) => u; apply: hoare_fact => le_u.
apply: (@hoare_bind _ _ _ (fun _ => J ms')); last first.
  by move=> _; apply: hoare_ret => h; do 3![move/frame_inv_weaken].
apply: keeps_ext; apply: keeps_for_range => k.
apply: keeps_bind => [|akk].
  by eauto with frame.
apply: keeps_if; first exact: keeps_throw.
by eauto 30 with frame.
Qed.

Lemma keeps_normalize (ms : seq nat) (this R r lead : nat) :
  (na <= R)%N -> Heap.keeps (J ms) (Heap.normalize this R r lead).
Proof. by move=> le_R; rewrite /Heap.normalize; eauto 20 with frame. Qed.

Lemma keeps_eliminate (ms : seq nat) (this R r lead : nat) :
  (na <= R)%N -> Heap.keeps (J ms) (Heap.eliminate this R r lead).
Proof. by move=> le_R; rewrite /Heap.eliminate; eauto 30 with frame. Qed.

Lemma keeps_rref_loop (ms : seq nat) (fuel this R r lead : nat) :
  (na <= R)%N -> Heap.keeps (J ms) (Heap.rref_loop fuel this R r lead).
Proof.
move=> le_R; elim: fuel r lead => [|fuel IH] r lead /=.
  exact: keeps_out_of_fuel.
apply: keeps_bind => [|nrows]; first by eauto with frame.
apply: keeps_if; last exact: keeps_ret.
apply: keeps_bind => [|ncols]; first by eauto with frame.
apply: keeps_if; first exact: keeps_ret.
apply: keeps_bind => [|[i lead'||]].
- exact: (@keeps_rref_search _ (nrows * ncols).+1 this R r r lead).
- apply: keeps_bind => [|_]; first exact: keeps_swap.
  apply: keeps_bind => [|_]; first exact: keeps_normalize.
  by apply: keeps_bind => [|_]; first exact: keeps_eliminate.
- exact: keeps_ret.
- exact: keeps_out_of_fuel.
Qed.

(** [rref] writes only in the clone. *)
Lemma rref_frame (ms : seq nat) (this : nat) :
  Heap.hoare (J ms) (Heap.rref this) (fun _ => J ms) Ext.
Proof.
rewrite /Heap.rref.
apply: (hoare_bind (@fresh_clone _ _ this)) => M.
have M_in : M \in M :: ms by rewrite mem_head.
apply: (hoare_bind (@fresh_value_of _ _ M M_in)) => R; apply: hoare_fact => le_R.
apply: (hoare_bind (@reads_ext _ _ _ _ (@reads_getRows this))) => nrows.
apply: (hoare_bind (keeps_ext (@keeps_rref_loop _ _ this R 0 0 le_R))) => _.
by apply: hoare_ret => h /frame_inv_weaken.
Qed.

(** [inverse] writes only in matrices it creates. *)
Lemma inverse_frame (ms : seq nat) (this : nat) :
  Heap.hoare (J ms) (Heap.inverse this) (fun _ => J ms) Ext.
Proof.
rewrite /Heap.inverse.
apply: (hoare_bind (@fresh_clone _ _ this)) => A.
apply: (hoare_bind (@fresh_map_rows _ _ _ A)) => I.
apply: (@hoare_bind _ _ _ (fun C h => J [:: C, I, A & ms] h)).
  rewrite /Heap.concat.
  apply: (hoare_bind (@reads_ext _ _ _ _ (@reads_contents I))) => other.
  exact: fresh_map_rows.
move=> C; apply: (hoare_bind (@rref_frame _ C)) => Inv.
apply: (hoare_bind (@reads_ext _ _ _ _ (@reads_contents Inv))) => xs.
apply: hoare_conseq (@fresh_new_matrix h0 [:: C, I, A & ms] _); [by [] | | by []].
by move=> M h; do 4![move/frame_inv_weaken].
Qed.

End FrameOperations.

(** * The store: the caller's matrix after [lu], [rref] and [inverse] *)

Lemma extends_nth_row (h h' : Heap.heap) (ra : nat) :
  Heap.extends h h' -> (ra < size (Heap.rows h))%N ->
  nth [::] (Heap.rows h') ra = nth [::] (Heap.rows h) ra.
Proof. by case=> Er _ _ lt_ra; rewrite -(nth_take _ lt_ra) Er. Qed.

Lemma extends_nth_array (h h' : Heap.heap) (a : nat) :
  Heap.extends h h' -> (a < size (Heap.arrays h))%N ->
  nth [::] (Heap.arrays h') a = nth [::] (Heap.arrays h) a.
Proof. by case=> _ Ea _ lt_a; rewrite -(nth_take _ lt_a) Ea. Qed.

Lemma extends_nth_object (h h' : Heap.heap) (m : nat) :
  Heap.extends h h' -> (m < size (Heap.objects h))%N ->
  nth (Heap.Instance (Heap.VOther 0) None) (Heap.objects h') m
  = nth (Heap.Instance (Heap.VOther 0) None) (Heap.objects h) m.
Proof. by case=> _ _ Eo lt_m; rewrite -(nth_take _ lt_m) Eo. Qed.

(** The rows a list of references reads, when all of them are there. *)
Lemma mapM_load_rows (h : Heap.heap) (s : seq (option nat)) :
  all (fun o => if o is Some ra then (ra < size (Heap.rows h))%N else false) s ->
  Heap.mapM (fun o => if o is Some ra then Heap.load_row ra
                      else Heap.throw TypeError) s h
  = (h, Ok [seq nth [::] (Heap.rows h) (odflt 0%N o) | o <- s]).
Proof.
elim: s => [//|[ra|] s IH] //= /andP[_ /IH E].
by rewrite /Heap.pbind /= E.
Qed.

(** A matrix of [h] reads the same in a store that extends [h]. *)
Lemma extends_contents (h h' : Heap.heap) (this : nat) :
  Heap.extends h h' -> Heap.allocated h this ->
  (Heap.contents this h').2 = (Heap.contents this h).2
  /\ (Heap.precision_of this h').2 = (Heap.precision_of this h).2.
Proof.
move=> Eh /andP[lt_this]; have [sr sa so] := extends_sizes Eh.
rewrite /Heap.contents /Heap.precision_of /Heap.value_of /Heap.pbind /=.
rewrite (extends_nth_object Eh lt_this).
case: (Heap.inst_value _) => [//|a|//] /andP[lt_a all_s].
have all_s' : all (fun o => if o is Some ra
                              then (ra < size (Heap.rows h'))%N else false)
                  (nth [::] (Heap.arrays h) a).
  by apply: sub_all all_s => -[ra|] // lt_ra; apply: leq_trans sr.
rewrite /Heap.ret /= (extends_nth_array Eh lt_a) !mapM_load_rows //=.
split=> //; congr Ok; apply/eq_in_map => -[ra|] /(allP all_s) //= lt_ra.
exact: extends_nth_row.
Qed.

(** C7: [lu] (whether it returns or throws), [rref] and [inverse] leave
    every row, every array of rows and every Matrix instance of the store
    they are called in as it was; the matrix they are called on reads the
    same rows and the same precision after the call. *)
Theorem operations_leave_matrix_unchanged (h : Heap.heap) (this : nat) :
  Heap.allocated h this ->
  [/\ Heap.extends h (Heap.lu this h).1
      /\ (Heap.contents this (Heap.lu this h).1).2 = (Heap.contents this h).2
      /\ (Heap.precision_of this (Heap.lu this h).1).2
         = (Heap.precision_of this h).2,
      Heap.extends h (Heap.rref this h).1
      /\ (Heap.contents this (Heap.rref this h).1).2 = (Heap.contents this h).2
      /\ (Heap.precision_of this (Heap.rref this h).1).2
         = (Heap.precision_of this h).2
    & Heap.extends h (Heap.inverse this h).1
      /\ (Heap.contents this (Heap.inverse this h).1).2
         = (Heap.contents this h).2
      /\ (Heap.precision_of this (Heap.inverse this h).1).2
         = (Heap.precision_of this h).2].
Proof.
move=> alloc.
have ext (X : Type) (p : Heap.prog X) :
    Heap.hoare (Heap.frame_inv h [::]) p (fun _ => Heap.frame_inv h [::])
               (Heap.extends h) ->
    Heap.extends h (p h).1.
  move=> /(_ h (frame_inv_init h)).
  by case: (p h) => h' [x []|msg|].
have same (X : Type) (p : Heap.prog X) :
    Heap.extends h (p h).1 ->
    Heap.extends h (p h).1
    /\ (Heap.contents this (p h).1).2 = (Heap.contents this h).2
    /\ (Heap.precision_of this (p h).1).2 = (Heap.precision_of this h).2.
  by move=> Eh; split=> //; apply: extends_contents.
split; apply/same/ext.
- exact: lu_frame.
- exact: rref_frame.
- exact: inverse_frame.
Qed.

(** * Matrix.of *)

(** C9: [Matrix.of] applied to a Matrix instance returns that instance and
    leaves the store as it is, whatever [this] is; hence
    [Matrix.of(Matrix.of(x))] is the instance [Matrix.of(x)] returned. *)
Theorem Matrix_of_idempotent (this this' x : Heap.val) (h : Heap.heap) :
  (forall m, Heap.Matrix_of this (Heap.VMatrix m) h = (h, Ok m))
  /\ exists (m : nat) (h1 : Heap.heap),
       Heap.Matrix_of this x h = (h1, Ok m)
       /\ Heap.Matrix_of this' (Heap.VMatrix m) h1 = (h1, Ok m).
Proof.
split=> //.
by case: x => [m|a|tag]; case: this => [t|b|tag']; eexists; eexists.
Qed.

Lemma operations_leave_matrix_unchanged_witness :
  let h := Heap.store_of [:: [:: 1; 1]; [:: 2; 4]] in
  [/\ Heap.extends h (Heap.lu 0 h).1
      /\ (Heap.contents 0 (Heap.lu 0 h).1).2 = (Heap.contents 0 h).2
      /\ (Heap.precision_of 0 (Heap.lu 0 h).1).2 = (Heap.precision_of 0 h).2,
      Heap.extends h (Heap.rref 0 h).1
      /\ (Heap.contents 0 (Heap.rref 0 h).1).2 = (Heap.contents 0 h).2
      /\ (Heap.precision_of 0 (Heap.rref 0 h).1).2 = (Heap.precision_of 0 h).2
    & Heap.extends h (Heap.inverse 0 h).1
      /\ (Heap.contents 0 (Heap.inverse 0 h).1).2 = (Heap.contents 0 h).2
      /\ (Heap.precision_of 0 (Heap.inverse 0 h).1).2
         = (Heap.precision_of 0 h).2].
Proof.
exact: (@operations_leave_matrix_unchanged
          (Heap.store_of [:: [:: 1; 1]; [:: 2; 4]]) 0 isT).
Defined.

(** The three operations run to their end in the store: on [[1, 1], [2, 4]],
    [rref] returns the identity and [inverse] returns
    [[2, -1/2], [-1, 1/2]], each in a new matrix; [lu] returns a pair of new
    instances; on the singular [[1, 2], [2, 4]] it throws. *)
Lemma operations_run_in_store :
  let h := Heap.store_of [:: [:: 1; 1]; [:: 2; 4]] in
  [/\ if Heap.returned_rows (Heap.rref 0) h is Ok rs
      then rs == [:: [:: 1; 0]; [:: 0; 1]] else false,
      if Heap.returned_rows (Heap.inverse 0) h is Ok rs
      then rs == [:: [:: 2; - 2%:Q^-1]; [:: -1; 2%:Q^-1]] else false,
      if (Heap.lu 0 h).2 is Ok LU then (LU.1 != 0%N) && (LU.2 != 0%N) else false
    & (Heap.lu 0 (Heap.store_of [:: [:: 1; 2]; [:: 2; 4]])).2
      = Throw msg_row_exchange].
Proof. by split; vm_compute. Qed.

(** * The store: [lu] computes what the value-level [lu] computes *)

Section StoreCells.

Variables (h : Heap.heap) (a : nat) (ra : seq nat).
Hypothesis array_a : nth [::] (Heap.arrays h) a = [seq Some r | r <- ra].

Lemma row_ofE (i : nat) :
  (i < size ra)%N -> Heap.row_of a i h = (h, Ok (nth 0%N ra i)).
Proof.
by move=> lt_i; rewrite /Heap.row_of /Heap.pbind /= array_a (nth_map 0%N).
Qed.

Lemma readE (i j : nat) :
  (i < size ra)%N -> Heap.read a i j h = (h, Ok (get2 (Heap.view h ra) i j)).
Proof.
move=> lt_i; rewrite /Heap.read /Heap.pbind row_ofE //=.
by rewrite /get2 /Heap.view (nth_map 0%N).
Qed.

Local Notation written i j x := (Heap.written h (nth 0%N ra i) j x).

Lemma writeE (i j : nat) (x : num) :
  (i < size ra)%N -> Heap.write a i j x h = (written i j x, Ok tt).
Proof. by move=> lt_i; rewrite /Heap.write /Heap.pbind row_ofE. Qed.

Lemma view_written_other (i j : nat) (x : num) (rs : seq nat) :
  nth 0%N ra i \notin rs -> Heap.view (written i j x) rs = Heap.view h rs.
Proof.
move=> notin; apply/eq_in_map => r r_in /=; rewrite nth_set_nth /=.
by case: eqP r_in notin => // -> ->.
Qed.

Lemma view_written (i j : nat) (x : num) :
  uniq ra -> (i < size ra)%N ->
  Heap.view (written i j x) ra = set2 (Heap.view h ra) i j x.
Proof.
move=> uniq_ra lt_i; apply: (@eq_from_nth _ [::]).
  by rewrite /set2 size_set_nth !size_map; apply/esym/maxn_idPr.
move=> k; rewrite size_map => lt_k.
rewrite /set2 nth_set_nth /= /Heap.view !(nth_map 0%N) //= nth_set_nth /=.
by rewrite nth_uniq.
Qed.

End StoreCells.

Section Simulation.

Variables (S : Type) (rel : S -> Heap.heap -> Prop).

Local Notation never := (fun _ : Heap.heap => False).

(** A loop of the store against the same loop on values. *)
Lemma sim_for_range (lo hi : nat) (bh : nat -> Heap.prog unit)
    (bp : S -> nat -> S) :
  (forall t s, (lo <= t < hi)%N ->
     Heap.hoare (rel s) (bh t) (fun _ => rel (bp s t)) never) ->
  forall s, Heap.hoare (rel s) (Heap.for_range lo hi bh)
                       (fun _ => rel (for_range lo hi bp s)) never.
Proof.
move=> Hbody; rewrite /Heap.for_range /for_range.
have: forall t, t \in iota lo (hi - lo) -> (lo <= t < hi)%N.
  move=> t; rewrite mem_iota => /andP[le_lo lt_t]; rewrite le_lo /=.
  case: (leqP lo hi) lt_t => [le_lh|/ltnW lt_hl]; first by rewrite subnKC.
  by move: lt_hl; rewrite -subn_eq0 => /eqP->; rewrite addn0 ltnNge le_lo.
elim: (iota lo (hi - lo)) => [|k ks IH] Hin s /=; first exact: hoare_ret.
apply: hoare_bind (Hbody k s (Hin k (mem_head _ _))) _ => _.
by apply: IH => t t_in; apply: Hin; rewrite inE t_in orbT.
Qed.

(** A loop whose body may throw against the same loop on values. *)
Lemma sim_for_eachM (ks : seq nat) (bh : nat -> Heap.prog unit)
    (step : S -> nat -> result S) :
  (forall k s h, k \in ks -> rel s h ->
     Heap.same_outcome rel (step s k) (bh k h)) ->
  forall s h, rel s h ->
    Heap.same_outcome rel (for_eachM step s ks) (Heap.for_each bh ks h).
Proof.
elim: ks => [|k ks IH] Hstep s h Rsh //=.
have := Hstep k s h (mem_head _ _) Rsh; rewrite /Heap.pbind.
case: (step s k) => [s'|msg|]; case: (bh k h) => h' [[]|msg'|] //= Rs'.
by apply: IH => // k' s'' h'' k'_in; apply: Hstep; rewrite inE k'_in orbT.
Qed.

End Simulation.

Section LuRefines.

Variables (arrs : seq (seq (option nat))) (objs : seq Heap.instance).
Variables (a l u : nat) (ra rl ru : seq nat) (n : nat).

Hypothesis array_a : nth [::] arrs a = [seq Some r | r <- ra].
Hypothesis array_l : nth [::] arrs l = [seq Some r | r <- rl].
Hypothesis array_u : nth [::] arrs u = [seq Some r | r <- ru].
Hypothesis size_ra : size ra = n.
Hypothesis size_rl : size rl = n.
Hypothesis size_ru : size ru = n.
Hypothesis distinct : uniq (ra ++ rl ++ ru).

Local Notation Rel := (Heap.lu_rel arrs objs ra rl ru).
Local Notation never := (fun _ : Heap.heap => False).

Let uniq_ra : uniq ra.
Proof. by move: distinct; rewrite cat_uniq => /and3P[]. Qed.

Let uniq_rl : uniq rl.
Proof. by move: distinct; rewrite !cat_uniq => /and3P[_ _ /and3P[]]. Qed.

Let uniq_ru : uniq ru.
Proof. by move: distinct; rewrite !cat_uniq => /and3P[_ _ /and3P[]]. Qed.

Let notin_a (r : nat) : r \in ra -> (r \notin rl) && (r \notin ru).
Proof.
move: distinct; rewrite cat_uniq => /and3P[_ /hasPn disj _] r_in.
rewrite -negb_or -mem_cat; apply/negP => r_in'.
by have := disj r r_in'; rewrite /= r_in.
Qed.

Let notin_l (r : nat) : r \in rl -> (r \notin ra) && (r \notin ru).
Proof.
move: distinct; rewrite !cat_uniq => /and3P[_ /hasPn disj /and3P[_ /hasPn disj' _]].
move=> r_in; apply/andP; split.
  by apply/negP => r_in'; have := disj r; rewrite mem_cat r_in /= r_in' => /(_ isT).
by apply/negP => r_in'; have := disj' r r_in'; rewrite /= r_in.
Qed.

Let notin_u (r : nat) : r \in ru -> (r \notin ra) && (r \notin rl).
Proof.
move: distinct; rewrite !cat_uniq => /and3P[_ /hasPn disj /and3P[_ /hasPn disj' _]].
move=> r_in; apply/andP; split.
  apply/negP => r_in'.
  by have := disj r; rewrite mem_cat r_in orbT /= r_in' => /(_ isT).
by apply/negP => r_in'; have := disj' r r_in; rewrite /= r_in'.
Qed.

Lemma sim_read_A (st : lu_state) (i j : nat) :
  (i < n)%N ->
  Heap.hoare (Rel st) (Heap.read a i j)
             (fun x h => Rel st h /\ x = get2 (luA st) i j) never.
Proof.
move=> lt_i h R; have arr : nth [::] (Heap.arrays h) a = [seq Some r | r <- ra].
  by rewrite (Heap.rel_arrays R).
by rewrite (readE arr) ?size_ra // (Heap.rel_A R).
Qed.

Lemma sim_read_L (st : lu_state) (i j : nat) :
  (i < n)%N ->
  Heap.hoare (Rel st) (Heap.read l i j)
             (fun x h => Rel st h /\ x = get2 (luL st) i j) never.
Proof.
move=> lt_i h R; have arr : nth [::] (Heap.arrays h) l = [seq Some r | r <- rl].
  by rewrite (Heap.rel_arrays R).
by rewrite (readE arr) ?size_rl // (Heap.rel_L R).
Qed.

Lemma sim_write_A (st : lu_state) (i j : nat) (x : num) :
  (i < n)%N ->
  Heap.hoare (Rel st) (Heap.write a i j x)
    (fun _ => Rel (LuState (set2 (luA st) i j x) (luL st) (luU st))) never.
Proof.
move=> lt_i h R; have arr : nth [::] (Heap.arrays h) a = [seq Some r | r <- ra].
  by rewrite (Heap.rel_arrays R).
have lt_i' : (i < size ra)%N by rewrite size_ra.
have /andP[nl nu] := notin_a (mem_nth 0%N lt_i').
rewrite (writeE arr) //; case: R => Ra Ro RA RL RU; split=> //=.
- by rewrite view_written // RA.
- by rewrite view_written_other.
- by rewrite view_written_other.
Qed.

Lemma sim_write_L (st : lu_state) (i j : nat) (x : num) :
  (i < n)%N ->
  Heap.hoare (Rel st) (Heap.write l i j x)
    (fun _ => Rel (LuState (luA st) (set2 (luL st) i j x) (luU st))) never.
Proof.
move=> lt_i h R; have arr : nth [::] (Heap.arrays h) l = [seq Some r | r <- rl].
  by rewrite (Heap.rel_arrays R).
have lt_i' : (i < size rl)%N by rewrite size_rl.
have /andP[na nu] := notin_l (mem_nth 0%N lt_i').
rewrite (writeE arr) //; case: R => Ra Ro RA RL RU; split=> //=.
- by rewrite view_written_other.
- by rewrite view_written // RL.
- by rewrite view_written_other.
Qed.

Lemma sim_write_U (st : lu_state) (i j : nat) (x : num) :
  (i < n)%N ->
  Heap.hoare (Rel st) (Heap.write u i j x)
    (fun _ => Rel (LuState (luA st) (luL st) (set2 (luU st) i j x))) never.
Proof.
move=> lt_i h R; have arr : nth [::] (Heap.arrays h) u = [seq Some r | r <- ru].
  by rewrite (Heap.rel_arrays R).
have lt_i' : (i < size ru)%N by rewrite size_ru.
have /andP[na nl] := notin_u (mem_nth 0%N lt_i').
rewrite (writeE arr) //; case: R => Ra Ro RA RL RU; split=> //=.
- by rewrite view_written_other.
- by rewrite view_written_other.
- by rewrite view_written // RU.
Qed.

Lemma lu_state_eta (st : lu_state) :
  st = LuState (luA st) (luL st) (luU st).
Proof. by case: st. Qed.

Lemma sim_lu_eliminate_row (k i : nat) (A L U : array2) :
  (k < n)%N -> (i < n)%N ->
  Heap.hoare (Rel (LuState A L U)) (Heap.lu_eliminate_row n k i a l)
    (fun _ => Rel (LuState (lu_eliminate_row n k i L A) L U)) never.
Proof.
move=> lt_k lt_i; rewrite /Heap.lu_eliminate_row /lu_eliminate_row.
apply: (@sim_for_range _ (fun A' => Rel (LuState A' L U))) => j A' _.
apply: hoare_bind (@sim_read_A _ i j lt_i) _ => aij; apply: hoare_fact => ->.
apply: hoare_bind (@sim_read_L _ i k lt_i) _ => lik; apply: hoare_fact => ->.
apply: hoare_bind (@sim_read_A _ k j lt_k) _ => akj; apply: hoare_fact => ->.
exact: sim_write_A.
Qed.

Lemma sim_lu_eliminate (k : nat) (A L U : array2) :
  (k < n)%N ->
  Heap.hoare (Rel (LuState A L U)) (Heap.lu_eliminate n k a l)
    (fun _ => Rel (LuState (lu_eliminate n k (A, L)).1
                           (lu_eliminate n k (A, L)).2 U)) never.
Proof.
move=> lt_k; rewrite /Heap.lu_eliminate /lu_eliminate.
apply: (@sim_for_range _ (fun AL => Rel (LuState AL.1 AL.2 U))
          _ _ _ _ _ (A, L)) => i [A' L'] /andP[_ lt_i] /=.
apply: hoare_bind (@sim_read_A _ i k lt_i) _ => aik; apply: hoare_fact => ->.
apply: hoare_bind (@sim_read_A _ k k lt_k) _ => akk; apply: hoare_fact => ->.
apply: hoare_bind (@sim_write_L _ i k _ lt_i) _ => _ /=.
exact: sim_lu_eliminate_row.
Qed.

Lemma sim_lu_copy_row (k : nat) (A L U : array2) :
  (k < n)%N ->
  Heap.hoare (Rel (LuState A L U)) (Heap.lu_copy_row n k a u)
    (fun _ => Rel (LuState A L (lu_copy_row n k A U))) never.
Proof.
move=> lt_k; rewrite /Heap.lu_copy_row /lu_copy_row.
apply: (@sim_for_range _ (fun U' => Rel (LuState A L U'))) => j U' _.
apply: hoare_bind (@sim_read_A _ k j lt_k) _ => akl; apply: hoare_fact => ->.
exact: sim_write_U.
Qed.

(** One turn of the loop on [k] in the store and on values. *)
Lemma sim_lu_turn (k : nat) (st : lu_state) (h : Heap.heap) :
  (k < n)%N -> Rel st h ->
  Heap.same_outcome Rel (lu_step n st k) (Heap.lu_turn n a l u k h).
Proof.
move=> lt_k R; rewrite /Heap.lu_turn /lu_step {1}/Heap.pbind.
have := @sim_read_A st k k lt_k h R.
case: (Heap.read a k k h) => h1 [akk [R1 ->]|//|//].
case: ifP => // _; rewrite /lu_body.
have H : Heap.hoare (Rel st)
    (Heap.pbind (Heap.write l k k 1) (fun _ =>
       Heap.pbind (Heap.lu_eliminate n k a l) (fun _ =>
         Heap.lu_copy_row n k a u)))
    (fun _ => Rel (lu_body n k st)) never.
  rewrite {1}(lu_state_eta st) /lu_body.
  apply: hoare_bind (@sim_write_L _ k k 1 lt_k) _ => _ /=.
  apply: hoare_bind (@sim_lu_eliminate k _ _ _ lt_k) _ => _.
  exact: sim_lu_copy_row.
by have := H h1 R1; case: (Heap.pbind _ _ h1) => h2 [[]|msg|].
Qed.

(** The loop on [k] in the store and on values. *)
Lemma sim_lu_loop (st : lu_state) (h : Heap.heap) :
  Rel st h ->
  Heap.same_outcome Rel (for_rangeM 0 n (lu_step n) st)
                    (Heap.for_range 0 n (Heap.lu_turn n a l u) h).
Proof.
move=> R; rewrite /for_rangeM /Heap.for_range subn0.
apply: sim_for_eachM => // k s h' k_in Rs; apply: sim_lu_turn => //.
by move: k_in; rewrite mem_iota.
Qed.

End LuRefines.

(** * The store: creating matrices *)

Lemma alloc_rowsE (h : Heap.heap) (rs : array2) :
  Heap.mapM Heap.alloc_row rs h
  = (Heap.MkHeap (Heap.rows h ++ rs) (Heap.arrays h) (Heap.objects h),
     Ok (iota (size (Heap.rows h)) (size rs))).
Proof.
elim: rs h => [|r rs IH] h /=; first by rewrite cats0; case: h.
by rewrite /Heap.pbind /= IH /= size_rcons cat_rcons.
Qed.

Lemma new_matrixE (h : Heap.heap) (rs : array2) :
  Heap.new_matrix rs h
  = (Heap.MkHeap (Heap.rows h ++ rs)
       (rcons (Heap.arrays h)
              [seq Some r | r <- iota (size (Heap.rows h)) (size rs)])
       (rcons (Heap.objects h)
              (Heap.Instance (Heap.VArray (size (Heap.arrays h))) None)),
     Ok (size (Heap.objects h))).
Proof. by rewrite /Heap.new_matrix /Heap.pbind alloc_rowsE. Qed.

Lemma view_iota_cat (rows0 : array2) (rs : array2) (arrs : seq (seq (option nat)))
    (objs : seq Heap.instance) :
  Heap.view (Heap.MkHeap (rows0 ++ rs) arrs objs) (iota (size rows0) (size rs))
  = rs.
Proof.
apply: (@eq_from_nth _ [::]); first by rewrite size_map size_iota.
move=> i; rewrite size_map size_iota => lt_i.
rewrite /Heap.view (nth_map 0%N) ?size_iota // nth_iota //=.
by rewrite nth_cat ltnNge leq_addr /= addKn.
Qed.

Lemma holds_allocated (h : Heap.heap) (M a : nat) (refs : seq nat) (rs : array2) :
  Heap.holds h M a refs rs -> Heap.allocated h M.
Proof.
case=> lt_M val lt_a arr all_refs _; rewrite /Heap.allocated lt_M val lt_a arr.
by rewrite all_map.
Qed.

Lemma allocated_holds (h : Heap.heap) (M : nat) :
  Heap.allocated h M ->
  exists a refs, Heap.holds h M a refs (Heap.view h refs).
Proof.
case/andP=> lt_M; case val: (Heap.inst_value _) => [//|a|//] /andP[lt_a all_s].
exists a, (pmap id (nth [::] (Heap.arrays h) a)).
have all_some : all isSome (nth [::] (Heap.arrays h) a).
  by apply: sub_all all_s => -[].
have E : nth [::] (Heap.arrays h) a
         = [seq Some r | r <- pmap id (nth [::] (Heap.arrays h) a)].
  elim: (nth _ _ _) all_some => [//|[r|] s IH] //= /IH {1}->.
  by [].
split=> //; rewrite all_pmap; apply: sub_all all_s => -[r|] //=.
Qed.

Lemma holds_contents (h : Heap.heap) (M a : nat) (refs : seq nat) (rs : array2) :
  Heap.holds h M a refs rs ->
  [/\ Heap.contents M h = (h, Ok rs), Heap.value_of M h = (h, Ok a)
    & Heap.getRows M h = (h, Ok (size rs))].
Proof.
case=> lt_M val lt_a arr all_refs <-.
have Ev : Heap.value_of M h = (h, Ok a).
  by rewrite /Heap.value_of /Heap.pbind /= val.
split=> //.
- rewrite /Heap.contents /Heap.pbind Ev /= arr mapM_load_rows ?all_map //.
  by rewrite -map_comp.
- by rewrite /Heap.getRows /Heap.pbind Ev /= arr /Heap.view !size_map.
Qed.

Lemma holds_extends (h h' : Heap.heap) (M a : nat) (refs : seq nat) (rs : array2) :
  Heap.extends h h' -> Heap.holds h M a refs rs -> Heap.holds h' M a refs rs.
Proof.
move=> Eh [lt_M val lt_a arr all_refs vw]; have [sr sa so] := extends_sizes Eh.
split.
- exact: leq_trans lt_M so.
- by rewrite (extends_nth_object Eh).
- exact: leq_trans lt_a sa.
- by rewrite (extends_nth_array Eh).
- by apply: sub_all all_refs => r lt_r; apply: leq_trans sr.
- rewrite -vw; apply/eq_in_map => r /(allP all_refs) lt_r.
  exact: extends_nth_row.
Qed.

Lemma contents_view (h : Heap.heap) (M a : nat) (refs : seq nat) :
  Heap.inst_value (nth (Heap.Instance (Heap.VOther 0) None) (Heap.objects h) M)
  = Heap.VArray a ->
  nth [::] (Heap.arrays h) a = [seq Some r | r <- refs] ->
  Heap.contents M h = (h, Ok (Heap.view h refs)).
Proof.
move=> val arr; rewrite /Heap.contents /Heap.value_of /Heap.pbind /= val /= arr.
elim: refs {arr} => [//|r refs IH] /=.
by rewrite /Heap.pbind /= IH.
Qed.

(** [new_matrix] extends the store by a matrix that holds the rows it was
    given, at the next free references. *)
Lemma new_matrix_holds (h : Heap.heap) (rs : array2) :
  exists h',
  [/\ Heap.new_matrix rs h = (h', Ok (size (Heap.objects h))),
      Heap.extends h h',
      size (Heap.rows h') = (size (Heap.rows h) + size rs)%N
    & Heap.holds h' (size (Heap.objects h)) (size (Heap.arrays h))
                 (iota (size (Heap.rows h)) (size rs)) rs].
Proof.
rewrite new_matrixE; eexists; split; first by [].
- by split; rewrite /= ?take_size_cat // -cats1 take_size_cat.
- by rewrite /= size_cat.
- split=> /=.
  + by rewrite size_rcons.
  + by rewrite nth_rcons ltnn eqxx.
  + by rewrite size_rcons.
  + by rewrite nth_rcons ltnn eqxx.
  + by apply/allP => r; rewrite mem_iota size_cat => /andP[].
  + exact: view_iota_cat.
Qed.

Lemma map_rows_holds (f : seq num -> nat -> seq num) (h : Heap.heap)
    (this a : nat) (refs : seq nat) (rs : array2) :
  Heap.holds h this a refs rs ->
  exists h',
  [/\ Heap.map_rows f this h = (h', Ok (size (Heap.objects h))),
      Heap.extends h h',
      size (Heap.rows h') = (size (Heap.rows h) + size rs)%N
    & Heap.holds h' (size (Heap.objects h)) (size (Heap.arrays h))
                 (iota (size (Heap.rows h)) (size rs)) (amap f rs)].
Proof.
move=> H; have [Ec _ _] := holds_contents H.
have [h' [E X sz Hd]] := new_matrix_holds h (amap f rs).
exists h'; rewrite /Heap.map_rows /Heap.pbind Ec /= E.
by move: sz Hd; rewrite size_amap.
Qed.

(** [clone] does the same and then sets the precision of the copy, which
    leaves its rows as they are. *)
Lemma clone_holds (h : Heap.heap) (this a : nat) (refs : seq nat)
    (rs : array2) :
  Heap.holds h this a refs rs ->
  exists h',
  [/\ Heap.clone this h = (h', Ok (size (Heap.objects h))),
      Heap.extends h h',
      size (Heap.rows h') = (size (Heap.rows h) + size rs)%N
    & Heap.holds h' (size (Heap.objects h)) (size (Heap.arrays h))
                 (iota (size (Heap.rows h)) (size rs))
                 (amap (fun row (_ : nat) => amap (fun col (_ : nat) => col) row)
                       rs)].
Proof.
move=> H.
have [h1 [E [Xr Xa Xo] sz [lt_M val lt_a arr all_r vw]]] :=
  map_rows_holds (fun row (_ : nat) => amap (fun col (_ : nat) => col) row) H.
rewrite /Heap.clone /Heap.pbind E /=; eexists; split; first by [].
- split=> //=; rewrite take_set_nth_ge //.
  by rewrite -Xo size_take; case: ltnP => // /ltnW.
- by [].
- split=> //=.
  + by rewrite size_set_nth; apply: leq_trans lt_M (leq_maxr _ _).
  + by rewrite nth_set_nth /= eqxx.
Qed.

(** * [lu] in the store computes what [lu] on values computes *)



(** * [rref] in the store computes what [rref] on values computes *)

Section SimulationDyn.

Variables (S : Type) (rel : S -> Heap.heap -> Prop).

Local Notation never := (fun _ : Heap.heap => False).

Variables (lo n : nat) (bound : Heap.prog nat) (bh : nat -> Heap.prog unit).
Variable bp : S -> nat -> S.

Hypothesis sim_bound :
  forall s, Heap.hoare (rel s) bound (fun x h => rel s h /\ x = n) never.
Hypothesis sim_body :
  forall t s, (lo <= t < n)%N ->
    Heap.hoare (rel s) (bh t) (fun _ => rel (bp s t)) never.

Lemma sim_for_dyn (fuel i : nat) (s : S) :
  (lo <= i)%N -> (n - i < fuel)%N ->
  Heap.hoare (rel s) (Heap.for_dyn fuel bound bh i)
             (fun _ => rel (for_range i n bp s)) never.
Proof.
elim: fuel i s => [//|fuel IH] i s le_i lt_f /=.
apply: hoare_bind (@sim_bound s) _ => n'; apply: hoare_fact => ->.
case: (ltnP i n) => [lt_i|le_n]; last first.
  by rewrite for_range_nil //; apply: hoare_ret.
have -> : for_range i n bp s = for_range i.+1 n bp (bp s i).
  by rewrite /for_range -(subnSK lt_i).
have in_range : (lo <= i < n)%N by rewrite le_i.
apply: hoare_bind (@sim_body i s in_range) _ => _.
by apply: IH; [exact: leqW | nlia].
Qed.

(** A loop whose bound is a call against the loop on values. *)
Lemma sim_for_to (s : S) :
  Heap.hoare (rel s) (Heap.for_to lo bound bh)
             (fun _ => rel (for_range lo n bp s)) never.
Proof.
rewrite /Heap.for_to.
apply: hoare_bind (@sim_bound s) _ => n'; apply: hoare_fact => ->.
exact: sim_for_dyn.
Qed.

End SimulationDyn.

Lemma map_set_nth_lt (T U : Type) (f : T -> U) (x0 : T) (y0 : U) (s : seq T)
    (i : nat) (y : T) :
  (i < size s)%N -> map f (set_nth x0 s i y) = set_nth y0 (map f s) i (f y).
Proof. by elim: s i => [|x s IH] [|i] //= lt_i; rewrite IH. Qed.

Section Exchange.

Variables (i r : nat).

Local Notation sigma := (exchange_index i r).

Let sigmaK : involutive sigma.
Proof.
move=> k; rewrite /exchange_index; case: (k =P r) => [->|/eqP nr].
  by case: (i =P r) => [//|_]; rewrite eqxx.
case: (k =P i) => [->|/eqP ni]; first by rewrite eqxx.
by rewrite (negbTE nr) (negbTE ni).
Qed.

Lemma size_exchange (T : Type) (x0 : T) (s : seq T) :
  (i < size s)%N -> (r < size s)%N -> size (exchange x0 s i r) = size s.
Proof.
by move=> lt_i lt_r; rewrite !size_set_nth (maxn_idPr lt_i) (maxn_idPr lt_r).
Qed.

Lemma nth_exchange (T : Type) (x0 : T) (s : seq T) (k : nat) :
  nth x0 (exchange x0 s i r) k = nth x0 s (sigma k).
Proof.
rewrite /exchange /exchange_index nth_set_nth /=; case: ifP => // _.
by rewrite nth_set_nth /=; case: ifP.
Qed.

Let sigma_lt (T : Type) (s : seq T) (k : nat) :
  (i < size s)%N -> (r < size s)%N -> (k < size s)%N -> (sigma k < size s)%N.
Proof.
by move=> lt_i lt_r lt_k; rewrite /exchange_index; do 2![case: ifP => // _].
Qed.

Lemma mem_exchange (T : eqType) (x0 : T) (s : seq T) :
  (i < size s)%N -> (r < size s)%N -> {subset exchange x0 s i r <= s}.
Proof.
move=> lt_i lt_r x /(nthP x0)[k]; rewrite size_exchange // => lt_k <-.
by rewrite nth_exchange; apply: mem_nth; apply: sigma_lt.
Qed.

Lemma uniq_exchange (T : eqType) (x0 : T) (s : seq T) :
  (i < size s)%N -> (r < size s)%N -> uniq s -> uniq (exchange x0 s i r).
Proof.
move=> lt_i lt_r /uniqP uq; apply/(uniqP x0) => k1 k2.
rewrite !inE size_exchange // => lt1 lt2; rewrite !nth_exchange => E.
by apply: (can_inj sigmaK); apply: (uq x0); rewrite ?inE ?sigma_lt.
Qed.

Lemma map_exchange (T U : Type) (f : T -> U) (x0 : T) (y0 : U) (s : seq T) :
  (i < size s)%N -> (r < size s)%N ->
  map f (exchange x0 s i r) = exchange y0 (map f s) i r.
Proof.
move=> lt_i lt_r; rewrite /exchange.
rewrite (map_set_nth_lt _ _ y0) ?size_set_nth ?(maxn_idPr lt_i) //.
by rewrite (map_set_nth_lt _ _ y0) // !(nth_map x0).
Qed.

End Exchange.

Lemma rref_loopS (fuel this R r lead : nat) :
  Heap.rref_loop fuel.+1 this R r lead
  = Heap.pbind (Heap.getRows this) (fun nrows =>
      if (r < nrows)%N then
        Heap.pbind (Heap.getCols this) (fun ncols =>
          if (ncols <= lead)%N then Heap.ret tt
          else
            Heap.pbind (Heap.rref_search (nrows * ncols).+1 this R r r lead)
              (fun found =>
                 match found with
                 | Found i lead =>
                     Heap.pbind (Heap.swap R i r) (fun _ =>
                     Heap.pbind (Heap.normalize this R r lead) (fun _ =>
                     Heap.pbind (Heap.eliminate this R r lead) (fun _ =>
                     Heap.rref_loop fuel this R r.+1 lead.+1)))
                 | Exhausted => Heap.ret tt
                 | SearchOutOfFuel => Heap.out_of_fuel
                 end))
      else Heap.ret tt).
Proof. by []. Qed.

Section RrefRefines.

Variables (objs : seq Heap.instance) (this a R : nat).
Variables (refs_this refs0 : seq nat) (rs : array2).

Hypothesis this_value :
  Heap.inst_value (nth (Heap.Instance (Heap.VOther 0) None) objs this)
  = Heap.VArray a.
Hypothesis a_neq_R : a != R.
Hypothesis size_this : size refs_this = size rs.
Hypothesis size_refs0 : size refs0 = size rs.
Hypothesis disjoint : forall r, r \in refs0 -> r \notin refs_this.

Local Notation m := (size rs).
Local Notation n := (size (head [::] rs)).
Local Notation Rel := (Heap.rref_rel objs a R refs_this refs0 rs).
Local Notation never := (fun _ : Heap.heap => False).

Lemma sim_this_rows (st : array2) :
  Heap.hoare (Rel st) (Heap.getRows this) (fun x h => Rel st h /\ x = m) never.
Proof.
move=> h Rh; rewrite /Heap.getRows /Heap.value_of /Heap.pbind /=.
by rewrite (Heap.rr_objects Rh) this_value /= (Heap.rr_this Rh) size_map size_this.
Qed.

Lemma sim_this_cols (st : array2) :
  (0 < m)%N ->
  Heap.hoare (Rel st) (Heap.getCols this) (fun x h => Rel st h /\ x = n) never.
Proof.
move=> m_gt0 h Rh.
rewrite /Heap.getCols /Heap.value_of /Heap.row_of /Heap.pbind /=.
rewrite (Heap.rr_objects Rh) this_value /= (Heap.rr_this Rh).
have [r0 [rt E]] : exists r0 rt, refs_this = r0 :: rt.
  by case: (refs_this) size_this m_gt0 => [<-|r0 rt] //; exists r0, rt.
have N0 : nth None [seq Some r | r <- refs_this] 0 = Some r0 by rewrite E.
have Sz : size (nth [::] (Heap.rows h) r0) = n by rewrite -(Heap.rr_rows Rh) E.
by rewrite N0 /= Sz.
Qed.

Lemma sim_read_R (st : array2) (i j : nat) :
  (i < m)%N ->
  Heap.hoare (Rel st) (Heap.read R i j)
             (fun x h => Rel st h /\ x = get2 st i j) never.
Proof.
move=> lt_i h Rh; have [refs [arr uq sz sub vw]] := Heap.rr_result Rh.
by rewrite (readE arr) ?sz ?size_refs0 // vw.
Qed.

Lemma sim_write_R (st : array2) (i j : nat) (x : num) :
  (i < m)%N ->
  Heap.hoare (Rel st) (Heap.write R i j x) (fun _ => Rel (set2 st i j x)) never.
Proof.
move=> lt_i h Rh; have [refs [arr uq sz sub vw]] := Heap.rr_result Rh.
have lt_i' : (i < size refs)%N by rewrite sz size_refs0.
have notin := disjoint (sub _ (mem_nth 0%N lt_i')).
rewrite (writeE arr) //; case: Rh => Ro Ra Rr _; split=> //=.
- by rewrite view_written_other.
- by exists refs; split=> //; rewrite view_written // vw.
Qed.

(** The exchange of two rows moves references in the array of rows: the rows
    stay where they are in the store. *)
Lemma sim_swap (st : array2) (i r : nat) :
  (i < m)%N -> (r < m)%N ->
  Heap.hoare (Rel st) (Heap.swap R i r) (fun _ => Rel (swap_rows st i r)) never.
Proof.
move=> lt_i lt_r h Rh; have [refs [arr uq sz sub vw]] := Heap.rr_result Rh.
have lt_i' : (i < size refs)%N by rewrite sz size_refs0.
have lt_r' : (r < size refs)%N by rewrite sz size_refs0.
rewrite /Heap.swap /Heap.pbind /=; case: Rh => Ro Ra Rr _; split=> //=.
- by do 2![rewrite nth_set_nth /= (negbTE a_neq_R)].
- exists (exchange 0%N refs i r); split.
  + do 2![rewrite nth_set_nth /= eqxx]; rewrite arr.
    exact/esym/map_exchange.
  + exact: uniq_exchange.
  + by rewrite size_exchange.
  + by move=> x /mem_exchange; move/(_ lt_i' lt_r') => /sub.
  + by rewrite /Heap.view /= (map_exchange _ _ [::]) // -/(Heap.view h refs) vw.
Qed.

Lemma sim_rref_search (fuel : nat) (st : array2) (r i lead : nat) :
  (r < m)%N -> (i < m)%N ->
  Heap.hoare (Rel st) (Heap.rref_search fuel this R r i lead)
    (fun x h => Rel st h /\ x = rref_search fuel st m n r i lead) never.
Proof.
move=> lt_r; have m_gt0 : (0 < m)%N by apply: leq_ltn_trans lt_r.
elim: fuel i lead => [|fuel IH] i lead lt_i /=; first exact: hoare_ret.
apply: hoare_bind (@sim_read_R st i lead lt_i) _ => x; apply: hoare_fact => ->.
case: ifP => _; last exact: hoare_ret.
apply: hoare_bind (@sim_this_rows st) _ => nrows; apply: hoare_fact => ->.
case: ifP => [_|ne_i].
  apply: hoare_bind (@sim_this_cols st m_gt0) _ => ncols.
  apply: hoare_fact => ->.
  by case: ifP => _; [exact: hoare_ret | exact: IH].
by apply: IH; rewrite ltn_neqAle lt_i eq_sym ne_i.
Qed.

Lemma sim_normalize (st : array2) (r lead : nat) :
  (r < m)%N ->
  Heap.hoare (Rel st) (Heap.normalize this R r lead)
             (fun _ => Rel (rref_normalize n r lead st)) never.
Proof.
move=> lt_r; have m_gt0 : (0 < m)%N by apply: leq_ltn_trans lt_r.
rewrite /Heap.normalize /rref_normalize.
apply: hoare_bind (@sim_read_R st r lead lt_r) _ => val.
apply: hoare_fact => ->.
apply: (@sim_for_to _ Rel) => [s|j s _]; first exact: sim_this_cols.
apply: hoare_bind (@sim_read_R s r j lt_r) _ => x; apply: hoare_fact => ->.
exact: sim_write_R.
Qed.

Lemma sim_eliminate (st : array2) (r lead : nat) :
  (r < m)%N ->
  Heap.hoare (Rel st) (Heap.eliminate this R r lead)
             (fun _ => Rel (rref_eliminate m n r lead st)) never.
Proof.
move=> lt_r; have m_gt0 : (0 < m)%N by apply: leq_ltn_trans lt_r.
rewrite /Heap.eliminate /rref_eliminate.
apply: (@sim_for_to _ Rel) => [s|i s /andP[_ lt_i]]; first exact: sim_this_rows.
case: ifP => _; first exact: hoare_ret.
apply: hoare_bind (@sim_read_R s i lead lt_i) _ => val.
apply: hoare_fact => ->.
apply: (@sim_for_to _ Rel) => [s'|j s' _]; first exact: sim_this_cols.
apply: hoare_bind (@sim_read_R s' i j lt_i) _ => x; apply: hoare_fact => ->.
apply: hoare_bind (@sim_read_R s' r j lt_r) _ => y; apply: hoare_fact => ->.
exact: sim_write_R.
Qed.

(** The loop on [r], from the turn [r] on, in the store and on values: the
    store never runs out of fuel. *)
Lemma sim_rref_loop (fuel r lead : nat) (st : array2) :
  (m - r < fuel)%N ->
  Heap.hoare (Rel st) (Heap.rref_loop fuel this R r lead)
    (fun _ h =>
       match for_each_return (rref_turn m n) (lead, st) (iota r (m - r)) with
       | Next st' => Rel st'.2 h
       | Return st' => Rel st' h
       | TurnOutOfFuel => False
       end) never.
Proof.
elim: fuel r lead st => [//|fuel IH] r lead st lt_f; rewrite rref_loopS.
apply: hoare_bind (@sim_this_rows st) _ => nrows; apply: hoare_fact => ->.
case: (ltnP r m) => [lt_r|le_m]; last first.
  have -> : (m - r = 0)%N by apply/eqP; rewrite subn_eq0.
  exact: hoare_ret.
have m_gt0 : (0 < m)%N by apply: leq_ltn_trans lt_r.
rewrite -(subnSK lt_r) [iota _ _]/= for_each_return_cons {1}/rref_turn.
apply: hoare_bind (@sim_this_cols st m_gt0) _ => ncols; apply: hoare_fact => ->.
case: (leqP n lead) => [_|lt_lead]; first exact: hoare_ret.
apply: hoare_bind (@sim_rref_search _ st r r lead lt_r lt_r) _ => found.
apply: hoare_fact => ->.
case Es: (rref_search _ _ _ _ _ _ _) => [i lead'||].
- have [|/andP[_ lt_i] _] := rref_search_found _ lt_lead Es.
    by rewrite leqnn.
  apply: hoare_bind (@sim_swap st i r lt_i lt_r) _ => _.
  apply: hoare_bind (@sim_normalize _ r lead' lt_r) _ => _.
  apply: hoare_bind (@sim_eliminate _ r lead' lt_r) _ => _.
  by apply: IH; nlia.
- exact: hoare_ret.
- have fuel_ok : ((n - lead).-1 * (m - r) + (m - r).-1 < (m * n).+1)%N.
    by nat_prop; apply/ssrnat.leP; rewrite -?plusE -?minusE -?multE; nia.
  have En : n = (lead + (n - lead).-1).+1 by nlia.
  have Em : m = (r + (m - r).-1).+1 by nlia.
  by case: (rref_search_fuel En Em (leqnn r) fuel_ok Es).
Qed.

End RrefRefines.

(** Started on an instance whose rows are in the store, [rref] returns an
    instance that holds the rows of the value-level [rref] on the rows of
    [this]: it does not throw, and its loops end within their bounds. *)
Theorem rref_store_refines (h : Heap.heap) (this : nat) :
  Heap.allocated h this ->
  exists rs,
    (Heap.contents this h).2 = Ok rs /\
    match rref (Matrix_of rs), Heap.rref this h with
    | Ok M, (h', Ok M') => (Heap.contents M' h').2 = Ok (value M)
    | _, _ => False
    end.
Proof.
move=> /allocated_holds[a0 [refs_this H0]]; exists (Heap.view h refs_this).
have [Ec _ _] := holds_contents H0; rewrite Ec; split=> //.
set rs := Heap.view h refs_this in H0 *.
have [h1 [E1 X1 r1 H1]] := clone_holds H0.
have H01 := holds_extends X1 H0.
have [_ EvR _] := holds_contents H1.
have [_ _ En] := holds_contents H01.
set R := size (Heap.arrays h) in H1 EvR.
set refs0 := iota _ _ in H1.
have a_neq_R : a0 != R by rewrite neq_ltn (Heap.holds_array H0).
have size_this : size refs_this = size rs by rewrite size_map.
have disjoint r : r \in refs0 -> r \notin refs_this.
  rewrite mem_iota => /andP[le_r _]; apply/negP => r_in.
  by have := allP (Heap.holds_rows H0) r r_in; rewrite ltnNge le_r.
have R0 : Heap.rref_rel (Heap.objects h1) a0 R refs_this refs0 rs
            (value (clone (Matrix_of rs))) h1.
  split=> //; [exact: (Heap.holds_refs H01) | exact: (Heap.holds_view H01) |].
  exists refs0; split=> //; [exact: (Heap.holds_refs H1) | exact: iota_uniq |].
  exact: (Heap.holds_view H1).
have lt_fuel : (size rs - 0 < (size rs).+1)%N by rewrite subn0.
have := @sim_rref_loop (Heap.objects h1) this a0 R refs_this refs0 rs
          (Heap.holds_value H01) a_neq_R size_this (size_iota _ _) disjoint
          (size rs).+1 0 0 _ lt_fuel h1 R0.
have -> : Heap.rref this h
          = Heap.pbind (Heap.rref_loop (size rs).+1 this R 0 0)
                       (fun _ => Heap.ret (size (Heap.objects h))) h1.
  rewrite /Heap.rref {1}/Heap.pbind E1 /= {1}/Heap.pbind EvR /=.
  by rewrite {1}/Heap.pbind En.
rewrite subn0 /Heap.pbind.
case: (Heap.rref_loop _ _ _ _ _ _) => h2 [[]|msg|] //; rewrite /rref; cbv zeta.
case: (for_each_return _ _ _) => [[lead st]|st|] //= [Ro _ _ [refs [arr _ _ _ vw]]].
- have val := Heap.holds_value H1; rewrite -Ro in val.
  by rewrite (contents_view val arr) /= vw.
- have val := Heap.holds_value H1; rewrite -Ro in val.
  by rewrite (contents_view val arr) /= vw.
Qed.

(** [inverse], which runs [rref] on a matrix it has built, returns an
    instance as well. *)
Theorem inverse_store_returns (h : Heap.heap) (this : nat) :
  Heap.allocated h this ->
  exists h' M, Heap.inverse this h = (h', Ok M).
Proof.
move=> /allocated_holds[a0 [refs H0]].
have [h1 [E1 X1 _ H1]] := clone_holds H0.
pose idf := fun (m : seq num) (idx : nat) =>
              amap (fun (_ : num) jdx => (idx == jdx)%:R : num) m.
have [h2 [E2 X2 _ H2]] := map_rows_holds idf H1.
have [EcI _ _] := holds_contents H2.
pose catf other := fun (m : seq num) (idx : nat) => m ++ nth [::] other idx.
have [h3 [E3 _ _ H3]] :=
  map_rows_holds (catf (amap idf (amap (fun row (_ : nat) =>
                     amap (fun col (_ : nat) => col) row) (Heap.view h refs))))
                 (holds_extends X2 H1).
have [rsC [_]] := rref_store_refines (holds_allocated H3).
case: (rref _) => [M|//|//].
case E4: (Heap.rref _ h3) => [h4 [M'|msg'|]] // Ec.
have E5 : Heap.contents M' h4 = (h4, Ok (value M)).
  move: (reads_contents M' h4) Ec.
  by case: (Heap.contents M' h4) => h' r /= -> ->.
rewrite /Heap.inverse {1}/Heap.pbind E1 /= {1}/Heap.pbind /Heap.identity E2 /=.
rewrite {1}/Heap.pbind /Heap.concat {1}/Heap.pbind EcI /= E3 /=.
rewrite {1}/Heap.pbind E4 /= {1}/Heap.pbind E5 /= new_matrixE.
by eexists; eexists.
Qed.

(** * Elementwise arithmetic: algebra *)

Lemma amap_ext_in (T U : Type) (f g : T -> nat -> U) (x0 : T) (s : seq T) :
  (forall j, (j < size s)%N -> f (nth x0 s j) j = g (nth x0 s j) j) ->
  amap f s = amap g s.
Proof.
move=> fg; rewrite !(amapE _ x0); apply/eq_in_map => j.
by rewrite mem_iota /= add0n => /fg.
Qed.

Lemma amap_amap (T U V : Type) (f : T -> nat -> U) (g : U -> nat -> V)
    (s : seq T) :
  amap g (amap f s) = amap (fun x i => g (f x i) i) s.
Proof.
rewrite /amap; elim: s 0%N => [//|x s IH] i /=.
by rewrite IH.
Qed.

Lemma shapes_differ_same (m n : nat) (A B : Matrix) :
  (0 < m)%N -> has_shape m n (value A) -> has_shape m n (value B) ->
  shapes_differ A B = Ok false.
Proof.
move=> m_gt0 shA shB.
rewrite /shapes_differ (getCols_shape shA) // (getCols_shape shB) //= eqxx /=.
by case/andP: shA shB => /eqP szA _ /andP[/eqP szB _]; rewrite /getRows szA szB eqxx.
Qed.

(** The cells of a matrix built row by row from the cells of [A] and the
    cells of [B] at the same place. *)
Lemma zip_cells (op : num -> num -> num) (m n : nat) (A B : array2) :
  has_shape m n A ->
  let C := amap (fun row idx =>
                   amap (fun val jdx => op val (get2 B idx jdx)) row) A in
  has_shape m n C
  /\ forall i j, (i < m)%N -> (j < n)%N ->
       get2 C i j = op (get2 A i j) (get2 B i j).
Proof.
move=> shA C; have szA : size A = m by case/andP: shA => /eqP.
split.
  rewrite /has_shape size_amap szA eqxx /=.
  apply/(all_nthP [::]) => i; rewrite size_amap szA => lt_i.
  by rewrite (nth_amap _ [::]) ?szA // size_amap (has_shape_row shA).
move=> i j lt_i lt_j; rewrite /get2 (nth_amap _ [::]) ?szA //.
by rewrite (nth_amap _ 0) // (has_shape_row shA).
Qed.

(** X2: [A.add(B).subtract(B)] gives back the cells of [A]. *)
Theorem add_subtract_round_trip (m n : nat) (A B : Matrix) :
  (0 < m)%N -> has_shape m n (value A) -> has_shape m n (value B) ->
  exists C D : Matrix,
    [/\ add A (Mat B) = Ok C, subtract C (Mat B) = Ok D & value D = value A].
Proof.
move=> m_gt0 shA shB.
pose C := Matrix_map (fun row idx =>
            amap (fun val jdx => val + get2 (value B) idx jdx) row) A.
pose D := Matrix_map (fun row idx =>
            amap (fun val jdx => val - get2 (value B) idx jdx) row) C.
have [shC cellC] : has_shape m n (value C) /\ _ :=
  zip_cells (fun x y => x + y) (value B) shA.
have [shD cellD] : has_shape m n (value D) /\ _ :=
  zip_cells (fun x y => x - y) (value B) shC.
exists C, D; split.
- by rewrite /add (shapes_differ_same m_gt0 shA shB).
- by rewrite /subtract (shapes_differ_same m_gt0 shC shB).
- apply: (array2_ext shD shA) => i j lt_i lt_j.
  by rewrite cellD // cellC // addrK.
Qed.

Lemma shapes_differ_sym (A B : Matrix) :
  value A != [::] -> value B != [::] ->
  shapes_differ A B = shapes_differ B A.
Proof.
move=> A0 B0; rewrite !shapes_differE //.
by rewrite (eq_sym (size (head [::] (value A)))) (eq_sym (getRows A)).
Qed.

(** X3: [add] and [hadamard] commute: [A.add(B)] and [B.add(A)] are the same
    outcome, the same matrix or the same error. *)
Theorem add_hadamard_commute (m n p q : nat) (A B : Matrix) :
  (0 < m)%N -> (0 < p)%N ->
  has_shape m n (value A) -> has_shape p q (value B) ->
  add A (Mat B) = add B (Mat A)
  /\ hadamard A (Mat B) = hadamard B (Mat A).
Proof.
move=> m_gt0 p_gt0 shA shB.
have A0 : value A != [::] by case/andP: shA m_gt0 => /eqP <-; case: (value A).
have B0 : value B != [::] by case/andP: shB p_gt0 => /eqP <-; case: (value B).
have szA : size (value A) = m by case/andP: shA => /eqP.
have szB : size (value B) = p by case/andP: shB => /eqP.
have differE : shapes_differ A B = Ok ((n != q) || (m != p)).
  rewrite shapes_differE // /getRows szA szB.
  by rewrite -!nth0 (has_shape_row shA) // (has_shape_row shB).
rewrite /hadamard /add /multiply -(shapes_differ_sym A0 B0) differE /=.
case: (n =P q) => [Enq|//]; case: (m =P p) => [Emp|//] /=.
move: shB; rewrite -Enq -Emp => shB.
have [shC cellC] := zip_cells (fun x y => x + y) (value B) shA.
have [shC' cellC'] := zip_cells (fun x y => x + y) (value A) shB.
have [shH cellH] := zip_cells (fun x y => x * y) (value B) shA.
have [shH' cellH'] := zip_cells (fun x y => x * y) (value A) shB.
split; congr (Ok (Matrix_of _)).
- apply: (array2_ext shC shC') => i j lt_i lt_j.
  by rewrite cellC // cellC' // addrC.
- apply: (array2_ext shH shH') => i j lt_i lt_j.
  by rewrite cellH // cellH' // mulrC.
Qed.

Lemma add_hadamard_commute_witness :
  let A := Matrix_of [:: [:: 1; 2]; [:: 3; 4]] in
  let B := Matrix_of [:: [:: 5; 6]; [:: 7; 8]] in
  add A (Mat B) = add B (Mat A)
  /\ hadamard A (Mat B) = hadamard B (Mat A).
Proof. by move=> A B; apply: (@add_hadamard_commute 2 2 2 2 A B). Defined.

Lemma add_subtract_round_trip_witness :
  let A := Matrix_of [:: [:: 1; 2]; [:: 3; 4]] in
  let B := Matrix_of [:: [:: 5; 6]; [:: 7; 8]] in
  exists C D : Matrix,
    [/\ add A (Mat B) = Ok C, subtract C (Mat B) = Ok D & value D = value A].
Proof. by move=> A B; apply: (@add_subtract_round_trip 2 2 A B). Defined.

Lemma shapes_differ_rows (f : seq num -> nat -> seq num) (A : Matrix) :
  value A != [::] ->
  (forall r i, size (f r i) = size r) ->
  shapes_differ A (Matrix_map f A) = Ok false.
Proof.
move=> A0 szf.
have N0 : value (Matrix_map f A) != [::] by rewrite /=; case: (value A) A0.
rewrite shapes_differE // /getRows /= size_amap eqxx orbF.
by case: (value A) A0 => [//|r0 rs] _ /=; rewrite szf eqxx.
Qed.

Lemma get2_fill (f : num -> num) (A : Matrix) (i j : nat) :
  (i < size (value A))%N -> (j < size (nth [::] (value A) i))%N ->
  get2 (value (fill f A)) i j = f (get2 (value A) i j).
Proof.
by move=> lt_i lt_j; rewrite /get2 /= (nth_amap _ [::]) // (nth_amap _ 0).
Qed.

(** X4: [zeros] and [ones] are neutral: [A.add(A.zeros())] and
    [A.hadamard(A.ones())] have the cells of [A], and
    [A.add(A.additiveinverse())] has the cells of [A.zeros()]; the matrix
    returned is a new one with the default precision. *)
Theorem zeros_ones_neutral (A : Matrix) :
  value A != [::] ->
  [/\ add A (Mat (zeros A)) = Ok (Matrix_of (value A)),
      hadamard A (Mat (ones A)) = Ok (Matrix_of (value A))
    & exists2 N : Matrix, additiveinverse A = Ok N
        & add A (Mat N) = Ok (zeros A)].
Proof.
move=> A0.
have rows (F G : seq num -> nat -> seq num) :
    (forall i, (i < size (value A))%N ->
       F (nth [::] (value A) i) i = G (nth [::] (value A) i) i) ->
    Matrix_map F A = Matrix_map G A.
  by move=> FG; rewrite /Matrix_map (amap_ext_in FG).
have same : Matrix_map (fun row (_ : nat) => row) A = Matrix_of (value A).
  by rewrite /Matrix_map amap_id.
have d0 (g : num -> nat -> num) :
    shapes_differ A (Matrix_map (fun row idx => amap g row) A) = Ok false.
  by apply: shapes_differ_rows => // r i; rewrite size_amap.
split.
- rewrite /add /zeros /fill d0 /=.
  congr Ok; rewrite -same; apply: rows => i lt_i.
  rewrite -[RHS]amap_id; apply: (amap_ext_in (x0 := 0)) => j lt_j.
  by rewrite -/(fill _ A) -/(zeros A) get2_zeros addr0.
- rewrite /hadamard /multiply /ones /fill d0 /=.
  congr Ok; rewrite -same; apply: rows => i lt_i.
  rewrite -[RHS]amap_id; apply: (amap_ext_in (x0 := 0)) => j lt_j.
  by rewrite -/(fill _ A) get2_fill // mulr1.
- eexists; first by [].
  rewrite /add d0 /=.
  congr Ok; apply: rows => i lt_i; apply: (amap_ext_in (x0 := 0)) => j lt_j.
  rewrite /get2 /= (nth_amap _ [::]) // (nth_amap _ 0) //.
  by rewrite mulrN1 subrr.
Qed.

Lemma zeros_ones_neutral_witness :
  let A := Matrix_of [:: [:: 1; 2]; [:: 3; 4]] in
  [/\ add A (Mat (zeros A)) = Ok (Matrix_of (value A)),
      hadamard A (Mat (ones A)) = Ok (Matrix_of (value A))
    & exists2 N : Matrix, additiveinverse A = Ok N
        & add A (Mat N) = Ok (zeros A)].
Proof. by move=> A; apply: zeros_ones_neutral. Defined.

(** * sum *)

Lemma afold_from_sum_gen (T : Type) (x0 : T) (F : T -> nat -> num) i (r : num)
    (a : seq T) :
  afold_from (fun acc x j => acc + F x j) i r a
  = r + \sum_(0 <= k < size a) F (nth x0 a k) (i + k)%N.
Proof.
elim: a i r => [|x a IH] i r /=; first by rewrite big_nil addr0.
rewrite IH big_nat_recl //= addn0 addrA; congr (_ + _).
by apply: eq_big_nat => k _; rewrite addSnnS.
Qed.

Lemma sumE (M : Matrix) :
  sum M = \sum_(0 <= i < size (value M))
            \sum_(0 <= j < size (nth [::] (value M) i)) get2 (value M) i j.
Proof.
rewrite /sum /afold (afold_from_sum_gen [::]) add0r.
apply: eq_big_nat => i _.
by rewrite (afold_from_sum_gen 0 (fun x _ => x)) add0r.
Qed.

Lemma sum_shape (m n : nat) (M : Matrix) :
  has_shape m n (value M) ->
  sum M = \sum_(0 <= i < m) \sum_(0 <= j < n) get2 (value M) i j.
Proof.
move=> shM; rewrite sumE; have /andP[/eqP -> _] := shM.
by apply: eq_big_nat => i /andP[_ lt_i]; rewrite (has_shape_row shM).
Qed.





(** * equals, isSymmetric *)

Lemma equalsArray_fromE (T : eqType) (x y : seq T) :
  size x = size y -> equalsArray_from eq_op x y = (x == y).
Proof.
elim: x y => [|a x IH] [|b y] //= [/IH ->]; rewrite eqseq_cons.
by case: (a == b).
Qed.

Lemma equalsArrayE (T : eqType) (x y : seq T) :
  equalsArray eq_op x y = (x == y).
Proof.
rewrite /equalsArray; case: (size x =P size y) => [/equalsArray_fromE //|ne].
by apply/esym/negP => /eqP E; case: ne; rewrite E.
Qed.

Lemma equalsArray_ext (T : Type) (e1 e2 : T -> T -> bool) (x y : seq T) :
  e1 =2 e2 -> equalsArray e1 x y = equalsArray e2 x y.
Proof.
move=> E; rewrite /equalsArray; case: ifP => // _.
by elim: x y => [|a x IH] [|b y] //=; rewrite E IH.
Qed.

Lemma equals_rowsE (a b : array2) : equals_rows a b = (a == b).
Proof.
rewrite /equals_rows (@equalsArray_ext _ _ eq_op) ?equalsArrayE // => x y.
exact: equalsArrayE.
Qed.

(** X7: on a matrix with [m >= 1] rows of [n >= 1] cells, [isSymmetric]
    answers [true] exactly when the matrix is square and each cell [i][j]
    is the cell [j][i]; it answers [false] on every matrix that is not
    square. *)
Theorem isSymmetric_iff (m n : nat) (M : Matrix) :
  (0 < m)%N -> (0 < n)%N -> has_shape m n (value M) ->
  isSymmetric M
  <-> m = n /\ forall i j, (i < m)%N -> (j < m)%N ->
                 get2 (value M) i j = get2 (value M) j i.
Proof.
move=> m_gt0 n_gt0 shM; have shT := has_shape_transpose m_gt0 shM.
rewrite /isSymmetric equals_rowsE; split=> [/eqP E|[Emn sym]].
  have Emn : m = n.
    by case/andP: shM shT => /eqP <- _ /andP[/eqP <- _]; rewrite -E.
  split=> // i j lt_i lt_j; rewrite {1}E (get2_transpose m_gt0 shM) //.
  by rewrite -Emn.
apply/eqP; move: shM shT; rewrite -Emn => shM shT.
apply: (array2_ext shM shT) => i j lt_i lt_j.
by rewrite (get2_transpose m_gt0 shM) //; apply: sym.
Qed.

Lemma isSymmetric_iff_witness :
  let M := Matrix_of [:: [:: 1; 2]; [:: 2; 5]] in
  isSymmetric M
  <-> 2%N = 2%N /\ forall i j, (i < 2)%N -> (j < 2)%N ->
                 get2 (value M) i j = get2 (value M) j i.
Proof. by move=> M; apply: (@isSymmetric_iff 2 2 M). Defined.

(** * combine and empty *)

(** X8: on matrices with the same number of rows [combine] is associative
    and [empty] is neutral on both sides. *)
Theorem combine_monoid (A B C : Matrix) :
  size (value A) = size (value B) -> size (value B) = size (value C) ->
  [/\ combine (combine A B) C = combine A (combine B C),
      combine A (empty A) = Matrix_of (value A)
    & combine (empty A) A = Matrix_of (value A)].
Proof.
move=> szAB szBC.
have same : Matrix_map (fun row (_ : nat) => row) A = Matrix_of (value A).
  by rewrite /Matrix_map amap_id.
split.
- rewrite /combine /concat /Matrix_map /= amap_amap; congr Matrix_of.
  apply: (amap_ext_in (x0 := [::])) => i lt_i.
  by rewrite /concat_cb /= (nth_amap _ [::]) -?szAB // catA.
- rewrite -same /combine /concat /Matrix_map; congr Matrix_of.
  apply: (amap_ext_in (x0 := [::])) => i lt_i.
  by rewrite /concat_cb /= (nth_amap _ [::]) // cats0.
- rewrite -same /combine /concat /empty /Matrix_map /= amap_amap.
  congr Matrix_of; apply: (amap_ext_in (x0 := [::])) => i lt_i.
  by rewrite /concat_cb.
Qed.

Lemma combine_monoid_witness :
  let A := Matrix_of [:: [:: 1; 2]; [:: 3; 4]] in
  let B := Matrix_of [:: [:: 5]; [:: 6]] in
  let C := Matrix_of [:: [:: 7; 8]; [:: 9; 10]] in
  [/\ combine (combine A B) C = combine A (combine B C),
      combine A (empty A) = Matrix_of (value A)
    & combine (empty A) A = Matrix_of (value A)].
Proof. by move=> A B C; apply: combine_monoid. Defined.

(** * dot: cells, inner dimension, identity, transpose *)

Lemma dot_cells (m n p : nat) (A B : Matrix) :
  has_shape m n (value A) -> has_shape n p (value B) -> (0 < n)%N ->
  exists2 C : Matrix, dot A B = Ok C
    & has_shape m p (value C)
      /\ forall i j, (i < m)%N -> (j < p)%N ->
           get2 (value C) i j
           = \sum_(0 <= k < n) round (get2 (value A) i k * get2 (value B) k j)
                                (precision A).
Proof.
move=> shA shB n_gt0.
have sz_A : size (value A) = m by case/andP: shA => /eqP.
have sz_B : size (value B) = n by case/andP: shB => /eqP.
have sz_b0 : size (head [::] (value B)) = p.
  by rewrite -nth0 (has_shape_row shB).
pose f (a : seq num) (_ : nat) :=
  amap (fun (_ : num) i =>
    afold (fun acc x j => acc + round (x * get2 (value B) j i) (precision A)) 0 a)
       (head [::] (value B)).
exists (Matrix_of (amap f (value A))).
  rewrite /dot /amapM (@amapM_from_ok _ _ _ f) // => a k a_in.
  apply: dot_cb_ok; rewrite sz_B //.
  by case/andP: shA => _ /allP all_A; apply/eqP/all_A.
split.
  rewrite /has_shape size_amap sz_A eqxx /=.
  apply/(all_nthP [::]) => i; rewrite size_amap => lt_i.
  by rewrite (nth_amap _ [::]) // /f size_amap sz_b0.
move=> i j lt_i lt_j; rewrite /get2 /= (nth_amap _ [::]) ?sz_A // /f.
by rewrite (nth_amap _ 0) ?sz_b0 // afold_sum (has_shape_row shA).
Qed.

Lemma round0 (d : int) : round 0 d = 0.
Proof.
by rewrite /round mul0r add0r (@floor_def _ _ 0) ?mul0r.
Qed.

Lemma afoldM_from_throw (F : num -> nat -> num) (p i : nat) (r : num)
    (a : seq num) :
  (i <= p < i + size a)%N ->
  afoldM_from (fun acc x j => if (j < p)%N then Ok (acc + F x j)
                              else Throw TypeError) i r a
  = Throw TypeError.
Proof.
elim: a i r => [|x a IH] i r /=.
  by rewrite addn0 => /andP[le_ip lt_pi]; have := leq_ltn_trans le_ip lt_pi; rewrite ltnn.
rewrite addnS ltnS => /andP[le_ip le_p].
case: ltnP => [lt_ip /=|//]; apply: IH.
by rewrite lt_ip addSn ltnS.
Qed.

Lemma amapM_from_ext (T U : Type) (cb cb' : T -> nat -> result U) i
    (a : seq T) :
  (forall x k, cb x k = cb' x k) -> amapM_from cb i a = amapM_from cb' i a.
Proof. by move=> E; elim: a i => [//|x a IH] i /=; rewrite E IH. Qed.

Lemma amapM_from_ext_in (T : eqType) (U : Type)
    (cb cb' : T -> nat -> result U) i (a : seq T) :
  (forall x k, x \in a -> cb x k = cb' x k) ->
  amapM_from cb i a = amapM_from cb' i a.
Proof.
elim: a i => [//|x a IH] i E /=; rewrite E ?mem_head // IH // => y k y_in.
by apply: E; rewrite inE y_in orbT.
Qed.

Lemma dot_cb_ok_le (decimals : int) (B : Matrix) (a : seq num) :
  (size a <= size (value B))%N -> (0 < size (value B))%N ->
  dot_cb decimals B a
  = Ok (amap (fun (_ : num) i =>
          afold (fun acc x j => acc + round (x * get2 (value B) j i) decimals)
                0 a) (head [::] (value B))).
Proof.
case: B => [[|b0 B'] p] //= sz_a _; rewrite /dot_cb /= /amapM /amap.
rewrite (@amapM_from_ok _ _ _ (fun (_ : num) i =>
  afold (fun acc x j => acc + round (x * get2 (b0 :: B') j i) decimals) 0 a)) //.
by move=> _ k _; rewrite /afoldM afoldM_from_guard // add0n.
Qed.

(** X9: [dot] does not compare the column count of its receiver with the row
    count of its argument.  When the argument has fewer rows the call ends
    in a [TypeError]; when it has more, the rows past the column count of the
    receiver are ignored. *)
Theorem dot_inner_dimension (m n : nat) (A B : Matrix) :
  (0 < m)%N -> (0 < n)%N -> has_shape m n (value A) -> value B != [::] ->
  ((size (value B) < n)%N -> head [::] (value B) != [::] ->
     dot A B = Throw TypeError)
  /\ ((n <= size (value B))%N ->
        dot A B = dot A (Matrix_of (take n (value B)))).
Proof.
move=> m_gt0 n_gt0 shA B0.
have szA : size (value A) = m by case/andP: shA => /eqP.
split=> [lt_p b0_n0|le_n].
  have sz_a0 : size (nth [::] (value A) 0) = n by rewrite (has_shape_row shA).
  rewrite /dot /amapM; case: (value A) szA sz_a0 m_gt0 => [<- //|a0 rs] _ /= sz_a0 _.
  rewrite /dot_cb; case: (value B) B0 b0_n0 lt_p => [//|b0 bs] _ /=.
  case: b0 => [//|x b0] _ lt_p; rewrite /amapM /= /afoldM.
  by rewrite afoldM_from_throw // sz_a0 add0n.
rewrite /dot /amapM; congr bind; apply: amapM_from_ext_in => a k a_in.
have sz_a : size a = n.
  by case/andP: shA => _ /allP all_A; apply/eqP/all_A.
have szT : size (take n (value B)) = n by rewrite size_take_min (minn_idPl le_n).
have B_gt0 : (0 < size (value B))%N := leq_trans n_gt0 le_n.
rewrite [RHS]dot_cb_ok_le /= ?szT ?sz_a // [LHS]dot_cb_ok_le ?sz_a //.
have -> : head [::] (take n (value B)) = head [::] (value B).
  by case: (n) n_gt0 => [//|n'] _; case: (value B).
congr Ok; apply: (amap_ext_in (x0 := 0)) => i lt_i.
rewrite !afold_sum; apply: eq_big_nat => j; rewrite sz_a => /andP[_ lt_j].
by rewrite /get2 nth_take.
Qed.

Lemma dot_inner_dimension_witness :
  let A := Matrix_of [:: [:: 1; 2]] in
  let B := Matrix_of [:: [:: 3; 4]] in
  dot A B = Throw TypeError.
Proof.
move=> A B.
by have [H _] := @dot_inner_dimension 1 2 A B isT isT isT isT; apply: H.
Defined.

Lemma has_shape_Matrix_identity (rows cols : nat) :
  has_shape rows cols (value (Matrix_identity rows cols)).
Proof.
rewrite /has_shape /= size_amap size_nseq eqxx /=.
apply/(all_nthP [::]) => i; rewrite size_amap size_nseq => lt_i.
by rewrite (nth_amap _ [::]) ?size_nseq // size_amap nth_nseq lt_i size_nseq.
Qed.

Lemma get2_Matrix_identity (rows cols i j : nat) :
  (i < rows)%N -> (j < cols)%N ->
  get2 (value (Matrix_identity rows cols)) i j = (i == j)%:R.
Proof.
move=> lt_i lt_j; rewrite /get2 /= (nth_amap _ [::]) ?size_nseq //.
by rewrite nth_nseq lt_i (nth_amap _ tt) ?size_nseq.
Qed.



(** X11: the transpose of a product is the product of the transposes in the
    other order, for a receiver with the default precision:
    [A.dot(B).transpose()] has the cells of
    [B.transpose().dot(A.transpose())]. *)
Theorem dot_transpose (m n p : nat) (A B : Matrix) :
  (0 < m)%N -> (0 < n)%N -> (0 < p)%N ->
  has_shape m n (value A) -> has_shape n p (value B) ->
  precision A = 4%:Z ->
  exists C D : Matrix,
    [/\ dot A B = Ok C, dot (transpose B) (transpose A) = Ok D
      & value (transpose C) = value D].
Proof.
move=> m_gt0 n_gt0 p_gt0 shA shB precA.
have [C dotC [shC cellC]] := dot_cells shA shB n_gt0.
have shAt := has_shape_transpose m_gt0 shA.
have shBt := has_shape_transpose n_gt0 shB.
have [D dotD [shD cellD]] := dot_cells shBt shAt n_gt0.
exists C, D; split=> //.
apply: (array2_ext (has_shape_transpose m_gt0 shC) shD) => i j lt_i lt_j.
rewrite (get2_transpose m_gt0 shC) // cellC // cellD // precA.
apply: eq_big_nat => k /andP[_ lt_k].
by rewrite (get2_transpose n_gt0 shB) // (get2_transpose m_gt0 shA) // mulrC.
Qed.

Lemma dot_transpose_witness :
  let A := Matrix_of [:: [:: 1; 2]; [:: 3; 4]; [:: 5; 6]] in
  let B := Matrix_of [:: [:: 1; 0; 2]; [:: 0; 1; 3]] in
  exists C D : Matrix,
    [/\ dot A B = Ok C, dot (transpose B) (transpose A) = Ok D
      & value (transpose C) = value D].
Proof. by move=> A B; apply: (@dot_transpose 3 2 3 A B). Defined.

Lemma has_shape_identity (m n : nat) (M : Matrix) :
  has_shape m n (value M) -> has_shape m n (value (identity M)).
Proof.
move=> shM; have szM : size (value M) = m by case/andP: shM => /eqP.
rewrite /has_shape /= size_amap szM eqxx /=.
apply/(all_nthP [::]) => i; rewrite size_amap szM => lt_i.
by rewrite (nth_amap _ [::]) ?szM // size_amap (has_shape_row shM).
Qed.

Lemma get2_identity (m n : nat) (M : Matrix) (i j : nat) :
  has_shape m n (value M) -> (i < m)%N -> (j < n)%N ->
  get2 (value (identity M)) i j = (i == j)%:R.
Proof.
move=> shM lt_i lt_j; have szM : size (value M) = m by case/andP: shM => /eqP.
rewrite /get2 /= (nth_amap _ [::]) ?szM //.
by rewrite (nth_amap _ 0) // (has_shape_row shM).
Qed.



(** * rref, inverse, divide, rank *)

(** X13: on a matrix with [m >= 1] rows of [n] cells [rref] returns: its
    [while] loop ends, it throws nothing, and the result has the shape and
    the precision of the receiver. *)
Theorem rref_returns_same_shape (m n : nat) (M : Matrix) :
  (0 < m)%N -> has_shape m n (value M) ->
  exists2 R : Matrix, rref M = Ok R
    & has_shape m n (value R) /\ precision R = precision M.
Proof.
move=> m_gt0 shM; have [R rrefM] := rref_returns M; exists R => //.
split; first exact: has_shape_rref rrefM.
move: rrefM; rewrite /rref.
by case: (for_each_return _ _ _) => [[lead R']|R'|] // [<-].
Qed.

Lemma rref_returns_same_shape_witness :
  let M := Matrix_of [:: [:: 0; 2]; [:: 1; 3]; [:: 0; 0]] in
  exists2 R : Matrix, rref M = Ok R
    & has_shape 3 2 (value R) /\ precision R = precision M.
Proof. by move=> M; apply: (@rref_returns_same_shape 3 2 M). Defined.

Lemma foldl_rcons_map (T U : Type) (f : T -> U) (s : seq T) (acc : seq U) :
  foldl (fun r x => rcons r (f x)) acc s = acc ++ map f s.
Proof.
elim: s acc => [|x s IH] acc /=; first by rewrite cats0.
by rewrite IH cat_rcons.
Qed.

Lemma has_shape_concat (m n p : nat) (A B : Matrix) :
  has_shape m n (value A) -> has_shape m p (value B) ->
  has_shape m (n + p) (value (concat A B)).
Proof.
move=> shA shB; have szA : size (value A) = m by case/andP: shA => /eqP.
rewrite /has_shape /= size_amap szA eqxx /=.
apply/(all_nthP [::]) => i; rewrite size_amap szA => lt_i.
rewrite (nth_amap _ [::]) ?szA // /concat_cb size_cat.
by rewrite (has_shape_row shA) // (has_shape_row shB).
Qed.

Lemma inverse_shape (m n : nat) (M : Matrix) :
  (0 < m)%N -> has_shape m n (value M) ->
  exists2 R : Matrix, inverse M = Ok R & has_shape m n (value R).
Proof.
move=> m_gt0 shM.
have shA : has_shape m n (value (clone M)) by rewrite value_clone.
have shC := has_shape_concat shA (has_shape_identity shA).
have [R rrefC] := rref_returns (concat (clone M) (identity (clone M))).
have shR := has_shape_rref m_gt0 shC rrefC.
rewrite /inverse rrefC /=; eexists; first by [].
rewrite /= foldl_rcons_map cat0s.
have szR : size (value R) = m by case/andP: shR => /eqP.
rewrite /has_shape size_map szR eqxx /=.
apply/(all_nthP [::]) => i; rewrite size_map szR => lt_i.
rewrite (nth_map [::]) ?szR // size_drop (has_shape_row shR) //.
by rewrite addnn -muln2 mulnK // muln2 -addnn addnK.
Qed.

(** X14: [inverse] returns on every matrix with [m >= 1] rows of [n] cells,
    a singular one or one that is not square included: it throws nothing,
    and the matrix returned has [m] rows of [n] cells. *)
Theorem inverse_returns (m n : nat) (M : Matrix) :
  (0 < m)%N -> has_shape m n (value M) ->
  exists2 R : Matrix, inverse M = Ok R & has_shape m n (value R).
Proof. by move=> m_gt0 shM; have [R ? ?] := inverse_shape m_gt0 shM; exists R. Qed.

Lemma inverse_returns_witness :
  let M := Matrix_of [:: [:: 1; 2]; [:: 2; 4]] in
  exists2 R : Matrix, inverse M = Ok R & has_shape 2 2 (value R).
Proof. by move=> M; apply: (@inverse_returns 2 2 M). Defined.

(** X15: [divide] by a matrix throws 'Matrices do not match, cannot create
    division' exactly when the shapes differ, throws 'Matrix is not square,
    cannot create inverse' when they agree and are not square, and returns
    otherwise, whatever the divisor: no error is raised for a singular one.
    [divide] by a number other than 0 divides every cell. *)
Theorem divide_outcomes (m n p q : nat) (A B : Matrix) :
  (0 < m)%N -> (0 < p)%N ->
  has_shape m n (value A) -> has_shape p q (value B) ->
  [/\ divide A (Mat B) = Throw msg_divide <-> (n != q) || (m != p),
      n = q -> m = p -> p <> q -> divide A (Mat B) = Throw msg_inverse,
      n = q -> m = p -> p = q -> is_ok (divide A (Mat B))
    & forall x : num, x != 0 ->
        divide A (Scalar x)
        = Ok (Matrix_of [seq [seq y / x | y <- r] | r <- value A])].
Proof.
move=> m_gt0 p_gt0 shA shB.
have A0 : value A != [::] by case/andP: shA m_gt0 => /eqP <-; case: (value A).
have B0 : value B != [::] by case/andP: shB p_gt0 => /eqP <-; case: (value B).
have szA : size (value A) = m by case/andP: shA => /eqP.
have szB : size (value B) = p by case/andP: shB => /eqP.
have differE : shapes_differ A B = Ok ((n != q) || (m != p)).
  rewrite shapes_differE // /getRows szA szB.
  by rewrite -!nth0 (has_shape_row shA) // (has_shape_row shB).
have squareE : isSquare B = Ok (q == p).
  by rewrite /isSquare (getCols_shape shB) //= /getRows szB.
split.
- rewrite /divide differE /=.
  case: (n =P q) => [Enq|//]; case: (m =P p) => [Emp|//] /=.
  split=> //; rewrite squareE /=; case: (q =P p) => [Eqp|//] /=.
  have [R -> shR] := inverse_shape p_gt0 shB => /=.
  move: shA shR; rewrite Enq Emp Eqp => shA shR.
  by have [C -> _] := dot_cells shA shR p_gt0.
- move=> Enq Emp ne_pq.
  rewrite /divide differE Enq Emp !eqxx /= squareE /=.
  by case: eqP ne_pq => // -> /(_ erefl).
- move=> Enq Emp Epq.
  rewrite /divide differE Enq Emp !eqxx /= squareE -Epq eqxx /=.
  have [R -> shR] := inverse_shape p_gt0 shB => /=.
  move: shA shR; rewrite Enq Emp -Epq => shA shR.
  by have [C -> _] := dot_cells shA shR p_gt0.
- move=> x x_neq0; rewrite /divide /multiply; congr (Ok (Matrix_of _)).
  rewrite amap_map; apply: eq_map => r; rewrite amap_map.
  by apply: eq_map => y; rewrite mul1r.
Qed.

Lemma divide_outcomes_witness :
  let A := Matrix_of [:: [:: 1; 2; 3]; [:: 4; 5; 6]] in
  divide A (Mat A) = Throw msg_inverse.
Proof.
move=> A; have [_ H _ _] := @divide_outcomes 2 3 2 3 A A isT isT isT isT.
exact: H.
Defined.

(** X16: on a matrix with at least as many rows as columns, and at least one
    column, [rank] returns the sum of the diagonal cells of the result of
    [rref], which has the shape of the matrix. *)
Theorem rank_is_trace_of_rref (m n : nat) (M : Matrix) :
  (0 < n <= m)%N -> has_shape m n (value M) ->
  exists R : Matrix,
    [/\ rref M = Ok R, has_shape m n (value R)
      & rank M = Ok (\sum_(0 <= i < n) get2 (value R) i i)].
Proof.
move=> /andP[n_gt0 le_nm] shM; have m_gt0 := leq_trans n_gt0 le_nm.
have nm : (0 < n <= m)%N by rewrite n_gt0.
have [R rrefM rankM] := rank_tall nm shM.
by exists R; split=> //; apply: has_shape_rref rrefM.
Qed.

Lemma rank_is_trace_of_rref_witness :
  let M := Matrix_of [:: [:: 1; 2]; [:: 3; 4]; [:: 5; 6]] in
  exists R : Matrix,
    [/\ rref M = Ok R, has_shape 3 2 (value R)
      & rank M = Ok (\sum_(0 <= i < 2) get2 (value R) i i)].
Proof. by move=> M; apply: (@rank_is_trace_of_rref 3 2 M). Defined.

(** * solve: the system is solved *)

(** The diagonal of [U] holds the pivots. *)
Lemma luU_diag (n : nat) (M : Matrix) (k t : nat) :
  getRows M = n -> (k < t)%N -> (t <= n)%N ->
  get2 (luU (lu_working M t)) k k = lu_pivot M k.
Proof.
move=> szM; elim: t => [//|t IH]; rewrite ltnS => le_kt lt_tn.
rewrite lu_workingS szM; have [_ _ ->] := lu_bodyE n t (lu_working M t).
case: (k =P t) => [->|/eqP ne_kt] /=; first by rewrite leqnn lt_tn.
by apply: IH; [rewrite ltn_neqAle ne_kt | apply: ltnW].
Qed.

(** What [lu] returns on a square matrix whose pivots pass the test. *)
Lemma lu_factors (n : nat) (M : Matrix) :
  has_shape n n (value M) ->
  (forall k, (k < n)%N -> ~~ (`|lu_pivot M k| < tol)) ->
  let L := luL (lu_working M n) in
  let U := luU (lu_working M n) in
  [/\ lu M = Ok (Matrix_of L, Matrix_of U),
      forall i j, (i < n)%N -> (j < n)%N ->
        get2 (value M) i j = \sum_(0 <= p < n) get2 L i p * get2 U p j,
      (forall i, (i < n)%N -> get2 L i i = 1)
      /\ (forall i j, (i < j)%N -> get2 L i j = 0),
      forall i j, (j < i)%N -> get2 U i j = 0
    & forall i, (i < n)%N -> get2 U i i != 0].
Proof.
move=> shM pivots L U; have szM : getRows M = n by case/andP: shM => /eqP.
have [[_ Idone IL0 IL1 IU0] _] := lu_working_inv shM (leqnn n) pivots.
split.
- rewrite luE szM; case: has_small_pivotP => // -[k lt_kn [_ small]].
  by have := pivots k lt_kn; rewrite small.
- by move=> i j lt_i lt_j; apply: Idone => //; rewrite lt_i.
- by split=> [i|i j lt_ij]; [exact: IL1 | apply: IL0; rewrite lt_ij orbT].
- by move=> i j lt_ji; apply: IU0; rewrite lt_ji orbT.
- move=> i lt_i; rewrite /U (luU_diag szM lt_i (leqnn n)).
  exact/pivot_ok_neq0/pivots.
Qed.

(** X17: on a square matrix that [lu] decomposes, [solve] returns a solution
    of the system: over exact arithmetic the array [x] it returns for the
    right-hand side [b] satisfies [sum_j A[i][j] * x[j] = b[i]] for every
    row [i]. *)
Theorem solve_solves_system (n : nat) (M : Matrix) (b : seq num) :
  has_shape n n (value M) -> size b = n ->
  (forall k, (k < n)%N -> ~~ (`|lu_pivot M k| < tol)) ->
  exists2 x : seq num, solve M b = Ok x
    & size x = n
      /\ forall i, (i < n)%N ->
           \sum_(0 <= j < n) get2 (value M) i j * nth 0 x j = nth 0 b i.
Proof.
move=> shM sz_b pivots; have szM : getRows M = n by case/andP: shM => /eqP.
have [luM prod [L1 L0] U0 Udiag] := lu_factors shM pivots.
set L := luL _ in luM prod L1 L0; set U := luU _ in luM prod U0 Udiag.
have [sz_c eq_c] := forward_substitutionP n L b.
set c := forward_substitution n L b in sz_c eq_c.
have [sz_x eq_x] := back_substitutionP n U c.
set x := back_substitution n U c in sz_x eq_x.
exists x; first by rewrite /solve (lu_ext (value_clone M)) luM /= szM.
split=> // i lt_i.
have Lc k : (k < n)%N -> \sum_(0 <= j < n) get2 L k j * nth 0 c j = nth 0 b k.
  move=> lt_k; rewrite (@big_cat_nat _ _ _ k 0 n) ?(ltnW lt_k) //=.
  have tail0 : \sum_(k.+1 <= j < n) get2 L k j * nth 0 c j = 0.
    by rewrite big_nat big1 // => j /andP[lt_kj _]; rewrite L0 // mul0r.
  by rewrite [X in _ + X]big_ltn // L1 // mul1r tail0 addr0 eq_c // addrC subrK.
have Ux a : (a < n)%N -> \sum_(0 <= j < n) get2 U a j * nth 0 x j = nth 0 c a.
  move=> lt_a; rewrite (@big_cat_nat _ _ _ a 0 n) ?(ltnW lt_a) //=.
  have head0 : \sum_(0 <= j < a) get2 U a j * nth 0 x j = 0.
    by rewrite big_nat big1 // => j /andP[_ lt_ja]; rewrite U0 // mul0r.
  rewrite head0 add0r big_ltn // [in X in X + _]eq_x // mulrC divfK ?Udiag //.
  by rewrite subrK.
rewrite -Lc //.
under eq_big_nat => j /andP[_ lt_j] do rewrite prod // mulr_suml.
rewrite exchange_big_nat /=; apply: eq_big_nat => p /andP[_ lt_p].
rewrite -Ux // mulr_sumr; apply: eq_big_nat => j _.
by rewrite mulrA.
Qed.

Lemma solve_solves_system_witness :
  let M := Matrix_of [:: [:: 5; 1]; [:: 3; -4]] in
  let b : seq num := [:: 7; 18] in
  exists2 x : seq num, solve M b = Ok x
    & size x = 2%N
      /\ forall i, (i < 2)%N ->
           \sum_(0 <= j < 2) get2 (value M) i j * nth 0 x j = nth 0 b i.
Proof.
move=> M b; apply: (@solve_solves_system 2 M b) => //.
by case=> [|[|//]] _; apply: pivot_ge1; vm_compute.
Defined.

(** * determinant: the value returned is the determinant *)

Lemma afold_from_prod (T : Type) (x0 : T) (F : T -> nat -> num) i (r : num)
    (a : seq T) :
  afold_from (fun acc x j => acc * F x j) i r a
  = r * \prod_(0 <= k < size a) F (nth x0 a k) (i + k)%N.
Proof.
elim: a i r => [|x a IH] i r /=; first by rewrite big_nil mulr1.
rewrite IH big_nat_recl //= addn0 mulrA; congr (_ * _).
by apply: eq_big_nat => k _; rewrite addSnnS.
Qed.

Lemma diagproductE (M : Matrix) :
  diagproduct M = \prod_(0 <= i < size (value M)) get2 (value M) i i.
Proof. by rewrite /diagproduct /afold (afold_from_prod [::]) mul1r. Qed.

Lemma det_mx_of2 (v : array2) :
  \det (mx_of 2 v) = get2 v 0 0 * get2 v 1 1 - get2 v 0 1 * get2 v 1 0.
Proof.
rewrite (expand_det_row _ ord0) !big_ord_recl big_ord0 /cofactor !det_mx11.
by rewrite !mxE /= expr0 mul1r expr1 mulN1r addr0 mulrN.
Qed.

(** X18: on a square matrix with [n >= 1] rows, [determinant] returns the
    determinant of the matrix over exact arithmetic whenever [n = 2] (the
    closed form) or [lu] meets no pivot below the tolerance (the product of
    the diagonals of its factors). *)
Theorem determinant_is_det (n : nat) (M : Matrix) :
  (0 < n)%N -> has_shape n n (value M) ->
  n = 2%N \/ (forall k, (k < n)%N -> ~~ (`|lu_pivot M k| < tol)) ->
  determinant M = Ok (\det (mx_of n (value M))).
Proof.
move=> n_gt0 shM ok; have szM : getRows M = n by case/andP: shM => /eqP.
rewrite /determinant /isSquare (getCols_shape shM) //= szM eqxx.
case: (n =P 2%N) ok => [n2 _|_ [//|pivots]].
  by move: shM; rewrite n2 => shM; rewrite det_mx_of2.
rewrite luE szM; case: hasP => [[k]|_] /=.
  by rewrite mem_iota add0n => /andP[_ /pivots/negbTE->].
have [_ prod [L1 L0] U0 _] := lu_factors shM pivots.
have [_ [_ shL shU]] := lu_working_inv shM (leqnn n) pivots.
set L := luL _ in prod L1 L0 shL *; set U := luU _ in prod U0 shU *.
have szL : size L = n by case/andP: shL => /eqP.
have szU : size U = n by case/andP: shU => /eqP.
have -> : mx_of n (value M) = mx_of n L *m mx_of n U.
  apply/matrixP => i j; rewrite !mxE prod // big_mkord.
  by apply: eq_bigr => k _; rewrite !mxE.
rewrite det_mulmx !diagproductE /= szL szU !big_mkord; congr (Ok (_ * _)).
  rewrite det_trig; first by apply/is_trig_mxP => i j lt_ij; rewrite mxE L0.
  by apply: eq_bigr => i _; rewrite mxE.
rewrite -det_tr det_trig; first by apply/is_trig_mxP => i j lt_ij; rewrite !mxE U0.
by apply: eq_bigr => i _; rewrite !mxE.
Qed.

Lemma determinant_is_det_witness :
  let M := Matrix_of [:: [:: 1; 2]; [:: 3; 4]] in
  determinant M = Ok (\det (mx_of 2 (value M))).
Proof. by move=> M; apply: (@determinant_is_det 2 M) => //; left. Defined.

(** X19: [rank] is the sum of the diagonal of the result of [rref], which is
    not the number of independent rows: on every matrix [[0, a], [0, b]]
    with [a <> 0], whose rank is 1, it returns 0. *)
Theorem rank_zero_first_column (a b : num) :
  a != 0 -> rank (Matrix_of [:: [:: 0; a]; [:: 0; b]]) = Ok 0.
Proof.
move=> a0; rewrite /rank /rref /=.
have -> : get2 (amap (fun row : seq num => fun=> amap (fun col : num => fun=> col) row)
                   [:: [:: 0; a]; [:: 0; b]]) 0 1 = a by [].
rewrite (negbTE a0) /=.
set R := rref_eliminate _ _ _ _ _.
have -> : R = [:: [:: 0 / a; a / a]; [:: 0 - b * (0 / a); b - b * (a / a)]].
  by [].
rewrite /for_rangeM /= /get2 /=.
by rewrite mul0r add0r divff // mulr1 subrr.
Qed.

Lemma rank_zero_first_column_witness :
  rank (Matrix_of [:: [:: 0; 1]; [:: 0; 2]]) = Ok 0.
Proof. exact: (@rank_zero_first_column 1 2 isT). Defined.

(** * inverse: on an invertible matrix the result is the inverse *)

(** ** What a turn of [rref] does to the cells *)

Lemma get2_swap_rows (R : array2) (i r i' j : nat) :
  get2 (swap_rows R i r) i' j = get2 R (exchange_index i r i') j.
Proof. by rewrite /get2 -[swap_rows R i r]/(exchange [::] R i r) nth_exchange. Qed.

Lemma rref_normalizeE (cols r lead : nat) (R : array2) (i j : nat) :
  get2 (rref_normalize cols r lead R) i j
  = if (i == r) && (j < cols)%N then get2 R r j / get2 R r lead
    else get2 R i j.
Proof.
rewrite /rref_normalize; set val := get2 R r lead.
pose P (t : nat) (R' : array2) := forall i j,
  get2 R' i j = if (i == r) && (j < t)%N then get2 R r j / val else get2 R i j.
have : P cols (for_range 0 cols (fun R' j => set2 R' r j (get2 R' r j / val)) R).
  apply: (@for_range_ind _ _ P) => // [i' j'|t R' _ IH i' j'].
    by rewrite ltn0 andbF.
  rewrite get2_set2 (IH r t) (IH i' j') eqxx ltnn /=.
  rewrite [(j' < t.+1)%N]ltnS [(j' <= t)%N]leq_eqVlt.
  by case: (i' == r); case: (j' =P t) => [->|].
exact.
Qed.

Lemma eliminate_rowE (cols r lead t : nat) (R : array2) (i j : nat) :
  t != r ->
  get2 (for_range 0 cols
          (fun R' j' => set2 R' t j' (get2 R' t j' - get2 R t lead * get2 R' r j'))
          R) i j
  = if (i == t) && (j < cols)%N
    then get2 R t j - get2 R t lead * get2 R r j else get2 R i j.
Proof.
move=> ne_tr; set val := get2 R t lead.
pose P (s : nat) (R' : array2) := forall i j,
  get2 R' i j = if (i == t) && (j < s)%N
                then get2 R t j - val * get2 R r j else get2 R i j.
have : P cols (for_range 0 cols
         (fun R' j' => set2 R' t j' (get2 R' t j' - val * get2 R' r j')) R).
  apply: (@for_range_ind _ _ P) => // [i' j'|s R' _ IH i' j'].
    by rewrite ltn0 andbF.
  rewrite get2_set2 (IH t s) (IH r s) (IH i' j') eqxx ltnn /=.
  rewrite [r == t]eq_sym (negbTE ne_tr) /=.
  rewrite [(j' < s.+1)%N]ltnS [(j' <= s)%N]leq_eqVlt.
  by case: (i' == t); case: (j' =P s) => [->|].
exact.
Qed.

Lemma rref_eliminateE (rows cols r lead : nat) (R : array2) (i j : nat) :
  get2 (rref_eliminate rows cols r lead R) i j
  = if [&& i != r, (i < rows)%N & (j < cols)%N]
    then get2 R i j - get2 R i lead * get2 R r j else get2 R i j.
Proof.
rewrite /rref_eliminate.
pose P (t : nat) (R' : array2) := forall i j,
  get2 R' i j = if [&& i != r, (i < t)%N & (j < cols)%N]
                then get2 R i j - get2 R i lead * get2 R r j else get2 R i j.
set body := fun (R' : array2) (i' : nat) => _.
have : P rows (for_range 0 rows body R).
  apply: (@for_range_ind _ _ P) => // [i' j'|t R' _ IH i' j'].
    by rewrite ltn0 /= andbF.
  rewrite /body; case: (t =P r) => [Etr|/eqP ne_tr].
    rewrite IH [(i' < t.+1)%N]ltnS [(i' <= t)%N]leq_eqVlt Etr.
    by case: (i' =P r) => //= _.
  rewrite eliminate_rowE // (IH t j') (IH t lead) (IH r j') (IH i' j').
  rewrite ltnn /= !andbF eqxx /= [(i' < t.+1)%N]ltnS [(i' <= t)%N]leq_eqVlt.
  case: (i' =P t) => [->|_] /=; last by [].
  by rewrite ne_tr ltnn /=; case: ifP.
exact.
Qed.

(** ** The search of a pivot in a column *)

Lemma rref_search_column (fuel : nat) (R : array2)
    (rows cols r i i0 lead : nat) :
  (i <= i0 < rows)%N ->
  (forall i', (i <= i' < i0)%N -> get2 R i' lead = 0) ->
  get2 R i0 lead != 0 -> (i0 - i < fuel)%N ->
  rref_search fuel R rows cols r i lead = Found i0 lead.
Proof.
elim: fuel i => [//|fuel IH] i /andP[le_i lt_i0] zeros nz lt_fuel /=.
case: (i =P i0) => [->|/eqP ne_i]; first by rewrite (negbTE nz).
have lt_ii0 : (i < i0)%N by rewrite ltn_neqAle ne_i.
rewrite zeros ?leqnn // eqxx.
have -> : (rows == i.+1) = false.
  by apply/negbTE; rewrite neq_ltn (leq_ltn_trans lt_ii0 lt_i0) orbT.
apply: IH => //; first by rewrite lt_ii0.
  by move=> i' /andP[lt_i' lt_i'0]; apply: zeros; rewrite (ltnW lt_i').
by nlia.
Qed.

Lemma sum_delta (f : nat -> num) (k n : nat) :
  \sum_(0 <= l < n) (l == k)%:R * f l = if (k < n)%N then f k else 0.
Proof.
elim: n => [|n IH]; first by rewrite big_nil.
rewrite big_nat_recr //= IH [(k < n.+1)%N]ltnS [(k <= n)%N]leq_eqVlt [k == n]eq_sym.
case: (n =P k) => [->|_] /=; first by rewrite ltnn add0r mul1r.
by rewrite mul0r addr0.
Qed.

Lemma exchange_indexK (i r : nat) : involutive (exchange_index i r).
Proof.
move=> k; rewrite /exchange_index; case: (k =P r) => [->|/eqP nr].
  by case: (i =P r) => [//|_]; rewrite eqxx.
case: (k =P i) => [->|/eqP ni]; first by rewrite eqxx.
by rewrite (negbTE nr) (negbTE ni).
Qed.

(** The cells after a turn of the loop of [rref] that found its pivot in
    row [i0] of column [lead]. *)
Lemma rref_turn_cells (rows cols r lead i0 : nat) (R : array2) (i j : nat) :
  (i < rows)%N -> (j < cols)%N -> (lead < cols)%N ->
  get2 (rref_eliminate rows cols r lead
          (rref_normalize cols r lead (swap_rows R i0 r))) i j
  = if i == r then get2 R i0 j / get2 R i0 lead
    else get2 R (exchange_index i0 r i) j
         - get2 R (exchange_index i0 r i) lead
           * (get2 R i0 j / get2 R i0 lead).
Proof.
move=> lt_i lt_j lt_lead; rewrite rref_eliminateE lt_i lt_j /= andbT.
have rowr c : (c < cols)%N ->
    get2 (rref_normalize cols r lead (swap_rows R i0 r)) r c
    = get2 R i0 c / get2 R i0 lead.
  by move=> lt_c; rewrite rref_normalizeE eqxx lt_c /= !get2_swap_rows
                          /exchange_index eqxx.
case: (i =P r) => [->|/eqP ne_ir] /=; first exact: rowr.
by rewrite rowr // !rref_normalizeE (negbTE ne_ir) /= !get2_swap_rows.
Qed.

Section RrefInvertible.

Variables (n c : nat) (R0 : array2).
Hypothesis n_gt0 : (0 < n)%N.
Hypothesis le_nc : (n <= c)%N.
Hypothesis shR0 : has_shape n c R0.
Hypothesis A_unit : mx_of n R0 \in unitmx.

Let Lm (R : array2) : 'M[num]_n := \matrix_(i, j) get2 R i j.
Let block (o : nat) (R : array2) : 'M[num]_n :=
  \matrix_(i, j) get2 R i (o + j).

(** The invariant of the loop of [rref] before turn [r], on rows [R0] whose
    first [n] columns are invertible: the columns of [R] are those of [R0]
    multiplied by one matrix [P], the first [n] columns of [R] have a left
    inverse, and the first [r] of them are those of the identity. *)
Let inv (r : nat) (R : array2) : Prop :=
  [/\ has_shape n c R,
      exists P : 'M[num]_n,
        forall o, (o + n <= c)%N -> block o R = P *m block o R0,
      exists G : 'M[num]_n, G *m Lm R = 1%:M
    & forall i j, (i < n)%N -> (j < r)%N -> get2 R i j = (i == j)%:R].

Let sum_ord (f : nat -> num) : \sum_(l < n) f l = \sum_(0 <= l < n) f l.
Proof. by rewrite big_mkord. Qed.

Let pivot_exists (r : nat) (R : array2) :
  (r < n)%N -> inv r R ->
  exists2 i0, (r <= i0 < n)%N
    & get2 R i0 r != 0 /\ forall i', (r <= i' < i0)%N -> get2 R i' r = 0.
Proof.
move=> lt_r [shR _ [G GL] cols].
pose p i := get2 R i r != 0.
case Hp: (has p (iota r (n - r))).
  pose i0 := nth 0%N (iota r (n - r)) (find p (iota r (n - r))).
  have lt_f : (find p (iota r (n - r)) < n - r)%N.
    by move: Hp; rewrite has_find size_iota.
  have Ei0 : i0 = (r + find p (iota r (n - r)))%N by rewrite /i0 nth_iota.
  exists i0; first by rewrite Ei0 leq_addr /= -ltn_subRL.
  split; first by rewrite /i0; apply: (@nth_find _ 0%N p).
  move=> i' /andP[le_ri' lt_i'].
  have lt_i'r : (i' - r < find p (iota r (n - r)))%N.
    by rewrite ltn_subLR // -Ei0.
  have := @before_find _ 0%N p (iota r (n - r)) (i' - r) lt_i'r.
  have lt2 := ltn_trans lt_i'r lt_f.
  by rewrite (nth_iota _ _ lt2) subnKC // /p => /negbFE/eqP.
have zeros i : (r <= i < n)%N -> get2 R i r = 0.
  move=> /andP[le_ri lt_i]; have /hasPn /(_ i) H := negbT Hp.
  by apply/eqP/negbNE/H; rewrite mem_iota le_ri subnKC // ltnW.
pose w : 'cV[num]_n :=
  \col_j (if (j : nat) == r then 1
          else if (j < r)%N then - get2 R j r else 0).
have Lw : Lm R *m w = 0.
  apply/matrixP => i k; rewrite !mxE.
  under eq_bigr => j _ do rewrite !mxE.
  rewrite (sum_ord (fun j => get2 R i j *
     (if j == r then 1 else if (j < r)%N then - get2 R j r else 0))).
  rewrite (@big_cat_nat _ _ _ r 0 n) ?(ltnW lt_r) //= [X in _ + X]big_ltn //.
  rewrite eqxx mulr1.
  have -> : \sum_(r.+1 <= j < n) get2 R i j *
      (if j == r then 1 else if (j < r)%N then - get2 R j r else 0) = 0.
    rewrite big_nat big1 // => j /andP[lt_rj _].
    by rewrite gtn_eqF // ltnNge (ltnW lt_rj) /= mulr0.
  rewrite addr0.
  have -> : \sum_(0 <= j < r) get2 R i j *
      (if j == r then 1 else if (j < r)%N then - get2 R j r else 0)
      = \sum_(0 <= j < r) (j == i)%:R * (- get2 R j r).
    rewrite !big_nat; apply: eq_bigr => j /andP[_ lt_j].
    by rewrite ltn_eqF // lt_j cols // eq_sym.
  rewrite sum_delta; case: (ltnP i r) => [_|le_ri]; first by rewrite addNr.
  by rewrite add0r zeros // le_ri /=.
have w0 : w = 0 by rewrite -[w]mul1mx -GL -mulmxA Lw mulmx0.
have := congr1 (fun x : 'cV_n => x (Ordinal lt_r) 0) w0.
by rewrite !mxE /= eqxx => /eqP; rewrite oner_eq0.
Qed.

Let LmE (R : array2) : Lm R = block 0 R.
Proof. by apply/matrixP => i j; rewrite !mxE. Qed.

Let sum_pick (k0 : num) (k : nat) (g : nat -> num) :
  (k < n)%N -> \sum_(l < n) (k0 * ((l : nat) == k)%:R) * g l = k0 * g k.
Proof.
move=> lt_k; rewrite (sum_ord (fun l => (k0 * (l == k)%:R) * g l)).
under eq_bigr => l _ do rewrite -mulrA.
by rewrite -mulr_sumr sum_delta lt_k.
Qed.

(** A turn that finds its pivot in column [r] keeps the invariant. *)
Let turn_inv (r : nat) (R : array2) :
  (r < n)%N -> inv r R ->
  exists2 R', rref_turn n c (r, R) r = Next (r.+1, R') & inv r.+1 R'.
Proof.
move=> lt_r invR; have [i0 /andP[le_ri0 lt_i0] [v0 zeros]] := pivot_exists lt_r invR.
have [shR [P rel] [G GL] cols] := invR.
have lt_rc : (r < c)%N by rewrite (leq_trans lt_r).
have Es : rref_search (n * c).+1 R n c r r r = Found i0 r.
  apply: rref_search_column => //; first by rewrite le_ri0.
  rewrite ltnS (leq_trans (leq_subr _ _)) // (leq_trans (ltnW lt_i0)) //.
  by rewrite -{1}[n]muln1 leq_mul2l (leq_trans n_gt0 le_nc) orbT.
set R' := rref_eliminate n c r r (rref_normalize c r r (swap_rows R i0 r)).
have Eturn : rref_turn n c (r, R) r = Next (r.+1, R').
  rewrite /rref_turn; case: leqP => [le_c|_]; last by rewrite Es.
  by have := leq_trans lt_rc le_c; rewrite ltnn.
exists R' => //.
set v := get2 R i0 r in v0.
pose sg := exchange_index i0 r.
have lt_sg i : (i < n)%N -> (sg i < n)%N.
  by move=> lt_i; rewrite /sg /exchange_index; do 2![case: ifP => // _].
have cell i j : (i < n)%N -> (j < c)%N ->
    get2 R' i j = if i == r then get2 R i0 j / v
                  else get2 R (sg i) j - get2 R (sg i) r * (get2 R i0 j / v).
  by move=> lt_i lt_j; apply: rref_turn_cells.
pose ca (i : nat) : num := if i == r then 0 else 1.
pose cb (i : nat) : num := if i == r then v^-1 else - (get2 R (sg i) r / v).
pose T : 'M[num]_n :=
  \matrix_(i, l) (ca i * ((l : nat) == sg i)%:R + cb i * ((l : nat) == i0)%:R).
pose T' : 'M[num]_n :=
  \matrix_(m, l) (if (m : nat) == i0 then v * ((l : nat) == r)%:R
                  else 1 * ((l : nat) == sg m)%:R
                       + get2 R m r * ((l : nat) == r)%:R).
have lt_o o (j : 'I_n) : (o + n <= c)%N -> (o + j < c)%N.
  by move=> le_o; rewrite (leq_trans _ le_o) // ltn_add2l.
have fwd o : (o + n <= c)%N -> block o R' = T *m block o R.
  move=> le_o; apply/matrixP => i j; rewrite !mxE cell ?lt_o //.
  under eq_bigr => l _ do rewrite !mxE mulrDl.
  rewrite big_split /= !(sum_pick _ (fun l => get2 R l (o + j))) ?lt_sg //.
  rewrite /ca /cb.
  case: (_ == r); first by rewrite mul0r add0r mulrC.
  by rewrite mul1r mulNr mulrA [_ / v * _]mulrAC -mulrA.
have bwd o : (o + n <= c)%N -> block o R = T' *m block o R'.
  move=> le_o; apply/matrixP => m j; rewrite !mxE.
  under eq_bigr => l _ do rewrite !mxE.
  case: (m =P i0 :> nat) => [Em0|/eqP ne_m].
    rewrite (sum_pick _ (fun l => get2 R' l (o + j))) // cell ?lt_o // eqxx.
    by rewrite Em0 mulrC divfK.
  under eq_bigr => l _ do rewrite mulrDl.
  rewrite big_split /= !(sum_pick _ (fun l => get2 R' l (o + j))) ?lt_sg //.
  rewrite mul1r.
  have ne_sg : sg m != r.
    rewrite /sg /exchange_index; case: (m =P r :> nat) => [Emr|/eqP ne_mr].
      by apply/eqP => Ei0; case/eqP: ne_m; rewrite Emr.
    by rewrite (negbTE ne_m).
  rewrite !cell ?lt_sg ?lt_o // eqxx (negbTE ne_sg) /sg exchange_indexK.
  by rewrite subrK.
split.
- by have := rref_turn_shape r shR lt_r; rewrite Eturn.
- by exists (T *m P) => o le_o; rewrite fwd // rel // mulmxA.
- by exists (G *m T'); rewrite -mulmxA !LmE -bwd // -LmE.
- move=> i j lt_i; rewrite ltnS leq_eqVlt => /predU1P[->|lt_j].
    rewrite cell // -/v; case: (i =P r) => [_|/eqP ne_ir]; first by rewrite divff.
    by rewrite divff // mulr1 subrr.
  have lt_jn : (j < c)%N by rewrite (leq_trans (ltn_trans lt_j lt_r)).
  have i0j : get2 R i0 j = 0.
    by rewrite cols // gtn_eqF // (leq_trans lt_j).
  rewrite cell // i0j mul0r mulr0 subr0.
  case: (i =P r) => [->|/eqP ne_ir]; first by rewrite gtn_eqF.
  rewrite cols ?lt_sg // /sg /exchange_index (negbTE ne_ir).
  case: (i =P i0) => [->|//].
  by rewrite !gtn_eqF // (leq_trans lt_j).
Qed.

Let loop_inv (k r : nat) (R : array2) :
  (r + k = n)%N -> inv r R ->
  exists2 R', for_each_return (rref_turn n c) (r, R) (iota r k)
              = Next (n, R') & inv n R'.
Proof.
elim: k r R => [|k IH] r R; first by rewrite addn0 => -> invR; exists R.
rewrite addnS -addSn => Erk invR.
have lt_r : (r < n)%N by rewrite -Erk leq_addr.
have [R1 E1 inv1] := turn_inv lt_r invR.
by rewrite [iota _ _]/= for_each_return_cons E1; apply: IH.
Qed.

(** On [n] rows whose first [n] columns are an invertible matrix [A], the
    loop of [rref] runs its [n] turns; it leaves the identity in the first
    [n] columns, and in every block of [n] columns the inverse of [A] times
    the block it found there. *)
Lemma rref_loop_reduces :
  exists2 R', for_each_return (rref_turn n c) (0%N, R0) (iota 0 n)
              = Next (n, R')
    & [/\ has_shape n c R', mx_of n R' = 1%:M
        & forall o, (o + n <= c)%N ->
            mx_block n o R' = invmx (mx_of n R0) *m mx_block n o R0].
Proof.
have inv0 : inv 0 R0.
  split=> //; first by exists 1%:M => o _; rewrite mul1mx.
  by exists (invmx (mx_of n R0)); rewrite mulVmx.
have [R' E' [shR' [P rel] _ cols]] := loop_inv (add0n n) inv0.
exists R' => //.
have L1 : Lm R' = 1%:M by apply/matrixP => i j; rewrite !mxE cols.
have EP : P = invmx (mx_of n R0).
  have := rel 0%N; rewrite add0n -!LmE L1 => /(_ le_nc) E1.
  by rewrite -[LHS](mulmxK A_unit) -/(Lm R0) -E1 mul1mx.
by split=> // o le_o; rewrite -EP -rel.
Qed.

End RrefInvertible.

Lemma get2_concat (m n : nat) (A B : Matrix) (i j : nat) :
  has_shape m n (value A) -> (i < m)%N ->
  get2 (value (concat A B)) i j
  = if (j < n)%N then get2 (value A) i j else get2 (value B) i (j - n).
Proof.
move=> shA lt_i; have szA : size (value A) = m by case/andP: shA => /eqP.
rewrite /get2 /= (nth_amap _ [::]) ?szA // /concat_cb nth_cat.
by rewrite (has_shape_row shA).
Qed.

(** [rref] on [n >= 1] rows of [c >= n] cells whose first [n] columns are
    invertible. *)
Lemma rref_reduces (n c : nat) (M : Matrix) :
  (0 < n)%N -> (n <= c)%N -> has_shape n c (value M) ->
  mx_of n (value M) \in unitmx ->
  exists2 R, rref M = Ok R
    & [/\ has_shape n c (value R), mx_of n (value R) = 1%:M
        & forall o, (o + n <= c)%N ->
            mx_block n o (value R)
            = invmx (mx_of n (value M)) *m mx_block n o (value M)].
Proof.
move=> n_gt0 le_nc shM unitM.
have szM : size (value M) = n by case/andP: shM => /eqP.
have head_M : size (head [::] (value M)) = c.
  by rewrite -nth0 (has_shape_row shM).
have [R' E' [shR' L1 rel]] := rref_loop_reduces n_gt0 le_nc shM unitM.
by rewrite /rref /getRows szM head_M value_clone E'; eexists.
Qed.

(** X20: [rref] on a matrix with [n >= 1] rows whose first [n] columns are an
    invertible matrix [A] returns the rows of the identity followed by the
    remaining columns multiplied by the inverse of [A]. *)
Theorem rref_invertible_block (n c : nat) (M : Matrix) :
  (0 < n)%N -> (n <= c)%N -> has_shape n c (value M) ->
  mx_of n (value M) \in unitmx ->
  exists2 R, rref M = Ok R
    & [/\ has_shape n c (value R), mx_of n (value R) = 1%:M
        & forall o, (o + n <= c)%N ->
            mx_block n o (value R)
            = invmx (mx_of n (value M)) *m mx_block n o (value M)].
Proof. exact: rref_reduces. Qed.

Lemma rref_invertible_block_witness :
  let M := Matrix_of [:: [:: 2; 1; 5]; [:: 1; 1; 3]] in
  exists2 R, rref M = Ok R
    & [/\ has_shape 2 3 (value R), mx_of 2 (value R) = 1%:M
        & forall o, (o + 2 <= 3)%N ->
            mx_block 2 o (value R)
            = invmx (mx_of 2 (value M)) *m mx_block 2 o (value M)].
Proof.
move=> M; apply: (@rref_invertible_block 2 3 M) => //.
by rewrite unitmxE det_mx_of2 unitfE.
Defined.

(** X21: the rank of an invertible matrix with [n >= 1] rows is [n]. *)
Theorem rank_invertible (n : nat) (M : Matrix) :
  (0 < n)%N -> has_shape n n (value M) -> mx_of n (value M) \in unitmx ->
  rank M = Ok n%:R.
Proof.
move=> n_gt0 shM unitM.
have [R ER [shR L1 _]] := rref_reduces n_gt0 (leqnn n) shM unitM.
have nn : (0 < n <= n)%N by rewrite n_gt0 leqnn.
have [R1 ER1 ->] := rank_tall nn shM.
move: ER1; rewrite ER => -[<-].
rewrite big_mkord (eq_bigr (fun=> 1)) ?sumr_const ?card_ord // => i _.
by have := congr1 (fun X : 'M_n => X i i) L1; rewrite !mxE eqxx.
Qed.

Lemma rank_invertible_witness :
  rank (Matrix_of [:: [:: 2; 1]; [:: 1; 1]]) = Ok 2%:R.
Proof.
apply: (@rank_invertible 2) => //.
by rewrite unitmxE det_mx_of2 unitfE.
Defined.

(** X22: on a square matrix with [n >= 1] rows that is invertible over exact
    arithmetic, [inverse] returns the inverse matrix: [n] rows of [n] cells,
    the cells of the inverse. *)
Theorem inverse_correct (n : nat) (M : Matrix) :
  (0 < n)%N -> has_shape n n (value M) -> mx_of n (value M) \in unitmx ->
  exists2 R, inverse M = Ok R
    & has_shape n n (value R)
      /\ mx_of n (value R) = invmx (mx_of n (value M)).
Proof.
move=> n_gt0 shM unitM.
have shA : has_shape n n (value (clone M)) by rewrite value_clone.
have shI := has_shape_identity shA.
have shC := has_shape_concat shA shI.
set C := concat _ _ in shC.
have left : mx_of n (value C) = mx_of n (value M).
  apply/matrixP => i j; rewrite !mxE (get2_concat _ _ shA) // ltn_ord.
  by rewrite value_clone.
have right : mx_block n n (value C) = 1%:M.
  apply/matrixP => i j; rewrite !mxE (get2_concat _ _ shA) //.
  by rewrite ltnNge leq_addr /= addKn (get2_identity shA).
have unitC : mx_of n (value C) \in unitmx by rewrite left.
have [R ER [shR _ /(_ n (leqnn _))]] :=
  rref_reduces n_gt0 (leq_addr n n) shC unitC.
rewrite right mulmx1 left => ER'.
have szR : size (value R) = n by case/andP: shR => /eqP.
rewrite /inverse -/C ER /=; eexists; first by [].
rewrite /= foldl_rcons_map cat0s.
have cells i : (i < n)%N ->
    nth [::] [seq drop (size x %/ 2) x | x <- value R] i
    = drop n (nth [::] (value R) i).
  move=> lt_i; rewrite (nth_map [::]) ?szR // (has_shape_row shR) //.
  by rewrite addnn -muln2 mulnK.
split.
  rewrite /has_shape size_map szR eqxx /=.
  apply/(all_nthP [::]) => i; rewrite size_map szR => lt_i.
  by rewrite cells // size_drop (has_shape_row shR) // addnK.
rewrite -ER'; apply/matrixP => i j; rewrite !mxE /get2 cells //.
by rewrite nth_drop.
Qed.

Lemma inverse_correct_witness :
  let M := Matrix_of [:: [:: 2; 1]; [:: 1; 1]] in
  exists2 R, inverse M = Ok R
    & has_shape 2 2 (value R)
      /\ mx_of 2 (value R) = invmx (mx_of 2 (value M)).
Proof.
move=> M; apply: (@inverse_correct 2 M) => //.
by rewrite unitmxE det_mx_of2 unitfE.
Defined.

(** X23: started on an instance whose rows are in the store, [inverse] returns
    a new instance that holds the rows of the value-level [inverse] on the
    rows of [this]: the clone, the identity, the concatenation and the rows
    that [rref] rewrites in place are all rows of the store that [this] does
    not share. *)
Theorem inverse_store_refines (h : Heap.heap) (this : nat) :
  Heap.allocated h this ->
  exists rs,
    (Heap.contents this h).2 = Ok rs /\
    match inverse (Matrix_of rs), Heap.inverse this h with
    | Ok M, (h', Ok M') => (Heap.contents M' h').2 = Ok (value M)
    | _, _ => False
    end.
Proof.
move=> /allocated_holds[a0 [refs H0]].
have [Ec0 _ _] := holds_contents H0.
exists (Heap.view h refs); split; first by rewrite Ec0.
have [h1 [E1 X1 _ H1]] := clone_holds H0.
pose idf := fun (m : seq num) (idx : nat) =>
              amap (fun (_ : num) jdx => (idx == jdx)%:R : num) m.
have [h2 [E2 X2 _ H2]] := map_rows_holds idf H1.
have [EcI _ _] := holds_contents H2.
pose catf other := fun (m : seq num) (idx : nat) => m ++ nth [::] other idx.
have [h3 [E3 _ _ H3]] :=
  map_rows_holds (catf (amap idf (amap (fun row (_ : nat) =>
                     amap (fun col (_ : nat) => col) row) (Heap.view h refs))))
                 (holds_extends X2 H1).
have [Ec3 _ _] := holds_contents H3.
have [rsC []] := rref_store_refines (holds_allocated H3).
rewrite Ec3 => -[<-].
set C := Matrix_of _.
have -> : inverse (Matrix_of (Heap.view h refs))
          = let* Inv := rref C in
            Ok (Matrix_of [seq drop (size x %/ 2) x | x <- value Inv]).
  rewrite /inverse; case: (rref _) => //= Inv.
  by rewrite foldl_rcons_map.
case: (rref C) => [M|//|//].
case E4: (Heap.rref _ h3) => [h4 [M'|msg'|]] // Ec.
have E5 : Heap.contents M' h4 = (h4, Ok (value M)).
  move: (reads_contents M' h4) Ec.
  by case: (Heap.contents M' h4) => h' r /= -> ->.
rewrite /Heap.inverse {1}/Heap.pbind E1 /= {1}/Heap.pbind /Heap.identity E2 /=.
rewrite {1}/Heap.pbind /Heap.concat {1}/Heap.pbind EcI /= E3 /=.
rewrite {1}/Heap.pbind E4 /= {1}/Heap.pbind E5 /=.
have [h5 [-> _ _ H5]] :=
  new_matrix_holds h4 [seq drop (size x %/ 2) x | x <- value M].
by have [-> _ _] := holds_contents H5.
Qed.

Lemma inverse_store_refines_witness :
  let h := Heap.store_of [:: [:: 1; 1]; [:: 2; 4]] in
  exists rs,
    (Heap.contents 0 h).2 = Ok rs /\
    match inverse (Matrix_of rs), Heap.inverse 0 h with
    | Ok M, (h', Ok M') => (Heap.contents M' h').2 = Ok (value M)
    | _, _ => False
    end.
Proof.
exact: (@inverse_store_refines (Heap.store_of [:: [:: 1; 1]; [:: 2; 4]]) 0 isT).
Defined.

(** * The rounding of [dot] *)

Lemma exp10_gt0 (d : int) : 0 < 10%:Q ^ d :> num.
Proof. by rewrite exprz_gt0. Qed.

Lemma round_error (x : num) (d : int) :
  `|round x d - x| <= (2%:Q * 10%:Q ^ d)^-1.
Proof.
have s_gt0 := exp10_gt0 d; set s := 10%:Q ^ d in s_gt0 *.
have s_neq0 : s != 0 by rewrite gt_eqF.
rewrite /round -/s; set t := x * s + 2%:Q^-1.
have /andP[lo hi] := floor_itv t.
have -> : (Num.floor t)%:~R / s - x = ((Num.floor t)%:~R - x * s) / s.
  by rewrite mulrBl mulfK.
rewrite normrM normfV (gtr0_norm s_gt0) invfM ler_pM2r ?invr_gt0 //.
have half : - 2%:Q^-1 = 2%:Q^-1 - 1 :> num by [].
rewrite ler_norml; apply/andP; split; last by rewrite lerBlDl.
rewrite lerBrDr half addrAC [_ + x * s]addrC lerBlDr.
by apply: ltW; move: hi; rewrite intrD.
Qed.

Lemma round_idempotent (x : num) (d : int) : round (round x d) d = round x d.
Proof.
have s_gt0 := exp10_gt0 d; set s := 10%:Q ^ d in s_gt0 *.
have s_neq0 : s != 0 by rewrite gt_eqF.
rewrite {1}/round -/s {2}/round -/s divfK //.
set f := Num.floor _; congr (_%:~R / _).
apply: floor_def; rewrite lerDl invr_ge0 ler0n /= intrD ltrD2l.
by rewrite invf_lt1 ?ltr0n // ltr1n.
Qed.

(** X24: the cells of [A.dot(B)] differ from the cells of the exact product by
    at most half a unit of the last digit kept for each of the [n] terms:
    [n / (2 * 10^precision)]. *)
Theorem dot_error_bound (m n p : nat) (A B : Matrix) :
  has_shape m n (value A) -> has_shape n p (value B) -> (0 < n)%N ->
  exists2 C, dot A B = Ok C
    & forall i j, (i < m)%N -> (j < p)%N ->
        `|get2 (value C) i j
          - \sum_(0 <= k < n) get2 (value A) i k * get2 (value B) k j|
        <= n%:R / (2%:Q * 10%:Q ^ precision A).
Proof.
move=> shA shB n_gt0; have [C EC [_ cells]] := dot_cells shA shB n_gt0.
exists C => // i j lt_i lt_j; rewrite cells // -sumrB.
apply: le_trans (ler_norm_sum _ _ _) _.
have -> : n%:R / (2%:Q * 10%:Q ^ precision A)
          = \sum_(0 <= k < n) (2%:Q * 10%:Q ^ precision A)^-1.
  by rewrite sumr_const_nat subn0 mulr_natl.
by apply: ler_sum => k _; apply: round_error.
Qed.

Lemma dot_error_bound_witness :
  let A := Matrix_of [:: [:: 1; 2]; [:: 3; 4]] in
  let B := Matrix_of [:: [:: 5; 6]; [:: 7; 8]] in
  exists2 C, dot A B = Ok C
    & forall i j, (i < 2)%N -> (j < 2)%N ->
        `|get2 (value C) i j
          - \sum_(0 <= k < 2) get2 (value A) i k * get2 (value B) k j|
        <= 2%:R / (2%:Q * 10%:Q ^ precision A).
Proof. by move=> A B; apply: (@dot_error_bound 2 2 2 A B). Defined.

(** * transpose and the elementwise operations *)

Lemma transpose_zip (op : num -> num -> num) (m n : nat) (A B : Matrix) :
  (0 < m)%N -> has_shape m n (value A) -> has_shape m n (value B) ->
  transpose (Matrix_map (fun row idx =>
               amap (fun val jdx => op val (get2 (value B) idx jdx)) row) A)
  = Matrix_map (fun row idx =>
      amap (fun val jdx => op val (get2 (value (transpose B)) idx jdx)) row)
      (transpose A).
Proof.
move=> m_gt0 shA shB.
have [shC cellC] := zip_cells op (value B) shA.
have shAt := has_shape_transpose m_gt0 shA.
have [shD cellD] := zip_cells op (value (transpose B)) shAt.
set C := Matrix_map _ A; set D := Matrix_map _ (transpose A).
have shCt : has_shape n m (value (transpose C)) by apply: has_shape_transpose.
have E : value (transpose C) = value D.
  apply: (array2_ext shCt shD) => i j lt_i lt_j.
  rewrite (@get2_transpose m n C) // cellD // cellC //.
  by rewrite !(@get2_transpose m n).
by move: E; rewrite /transpose /D /Matrix_map /= => ->.
Qed.

Lemma transpose_scalar (f : num -> num) (m n : nat) (A : Matrix) :
  (0 < m)%N -> has_shape m n (value A) ->
  transpose (Matrix_map (fun row (_ : nat) =>
                           amap (fun x (_ : nat) => f x) row) A)
  = Matrix_map (fun row (_ : nat) => amap (fun x (_ : nat) => f x) row)
               (transpose A).
Proof.
move=> m_gt0 shA.
have [shC cellC] := zip_cells (fun x _ => f x) [::] shA.
have shAt := has_shape_transpose m_gt0 shA.
have [shD cellD] := zip_cells (fun x _ => f x) [::] shAt.
set C := Matrix_map _ A; set D := Matrix_map _ (transpose A).
have shCt : has_shape n m (value (transpose C)) by apply: has_shape_transpose.
have E : value (transpose C) = value D.
  apply: (array2_ext shCt shD) => i j lt_i lt_j.
  by rewrite (@get2_transpose m n C) // cellD // cellC // (@get2_transpose m n).
by move: E; rewrite /transpose /D /Matrix_map /= => ->.
Qed.

(** X25: [transpose] commutes with the elementwise operations: on two matrices
    with [m >= 1] rows of [n >= 1] cells, adding, subtracting or multiplying
    the transposes gives the transpose of the sum, the difference or the
    Hadamard product, and so does the operation with a number. *)
Theorem transpose_elementwise (m n : nat) (A B : Matrix) (c : num) :
  (0 < m)%N -> (0 < n)%N ->
  has_shape m n (value A) -> has_shape m n (value B) ->
  [/\ add (transpose A) (Mat (transpose B))
      = (let* C := add A (Mat B) in Ok (transpose C)),
      subtract (transpose A) (Mat (transpose B))
      = (let* C := subtract A (Mat B) in Ok (transpose C)),
      multiply (transpose A) (Mat (transpose B))
      = (let* C := multiply A (Mat B) in Ok (transpose C))
    & multiply (transpose A) (Scalar c)
      = (let* C := multiply A (Scalar c) in Ok (transpose C))].
Proof.
move=> m_gt0 n_gt0 shA shB.
have shAt := has_shape_transpose m_gt0 shA.
have shBt := has_shape_transpose m_gt0 shB.
rewrite /add /subtract /multiply (shapes_differ_same m_gt0 shA shB).
rewrite (shapes_differ_same n_gt0 shAt shBt) /=.
split; congr Ok.
- by rewrite (transpose_zip (fun x y => x + y) m_gt0 shA shB).
- by rewrite (transpose_zip (fun x y => x - y) m_gt0 shA shB).
- by rewrite (transpose_zip (fun x y => x * y) m_gt0 shA shB).
- by rewrite (transpose_scalar (fun x => x * c) m_gt0 shA).
Qed.

Lemma transpose_elementwise_witness :
  let A := Matrix_of [:: [:: 1; 2; 3]; [:: 4; 5; 6]] in
  let B := Matrix_of [:: [:: 6; 5; 4]; [:: 3; 2; 1]] in
  [/\ add (transpose A) (Mat (transpose B))
      = (let* C := add A (Mat B) in Ok (transpose C)),
      subtract (transpose A) (Mat (transpose B))
      = (let* C := subtract A (Mat B) in Ok (transpose C)),
      multiply (transpose A) (Mat (transpose B))
      = (let* C := multiply A (Mat B) in Ok (transpose C))
    & multiply (transpose A) (Scalar 2)
      = (let* C := multiply A (Scalar 2) in Ok (transpose C))].
Proof. by move=> A B; apply: (@transpose_elementwise 2 3 A B 2). Defined.

(** * diag and diagproduct *)

Lemma afold_from_cat (T U : Type) (x0 : T) (F : T -> nat -> U) i (r : seq U)
    (a : seq T) :
  afold_from (fun acc x j => acc ++ [:: F x j]) i r a
  = r ++ [seq F (nth x0 a k) (i + k)%N | k <- iota 0 (size a)].
Proof.
elim: a i r => [|x a IH] i r /=; first by rewrite cats0.
rewrite IH -catA /= addn0; congr (_ ++ _ :: _).
rewrite -[1%N]addn0 iotaDl -map_comp.
by apply: eq_map => k /=; rewrite addSnnS.
Qed.

Lemma diagE (m n : nat) (M : Matrix) :
  has_shape m n (value M) ->
  diag M = [seq if (i < n)%N then Some (get2 (value M) i i) else None
           | i <- iota 0 m].
Proof.
move=> shM; have szM : size (value M) = m by case/andP: shM => /eqP.
rewrite /diag /afold (afold_from_cat [::]) cat0s szM.
apply/eq_in_map => i; rewrite mem_iota add0n /= => lt_i.
by rewrite (has_shape_row shM).
Qed.

(** X26: [diag] returns one entry for each row: the cell [i][i], or
    [undefined] for the rows past the column count.  On a square matrix with
    at least one row, [diag] and [diagproduct] are the same for the matrix
    and its transpose, and [diagproduct] is the product of the entries of
    [diag]. *)
Theorem diag_entries (m n : nat) (M : Matrix) :
  (0 < m)%N -> has_shape m n (value M) ->
  [/\ diag M = [seq if (i < n)%N then Some (get2 (value M) i i) else None
               | i <- iota 0 m],
      m = n -> diag (transpose M) = diag M,
      m = n -> diagproduct (transpose M) = diagproduct M
    & m = n -> diagproduct M = \prod_(0 <= i < m) get2 (value M) i i].
Proof.
move=> m_gt0 shM; have szM : size (value M) = m by case/andP: shM => /eqP.
have shT := has_shape_transpose m_gt0 shM.
have szT : size (value (transpose M)) = n by case/andP: shT => /eqP.
split; first exact: diagE.
- move=> Emn; rewrite (diagE shT) (diagE shM) -Emn.
  apply/eq_in_map => i; rewrite mem_iota add0n /= => lt_i.
  by rewrite lt_i (get2_transpose m_gt0 shM) // -Emn.
- move=> Emn; rewrite !diagproductE szT szM -Emn.
  rewrite !big_nat; apply: eq_bigr => i /andP[_ lt_i].
  by rewrite (get2_transpose m_gt0 shM) // -Emn.
- by rewrite diagproductE szM.
Qed.

Lemma diag_entries_witness :
  let M := Matrix_of [:: [:: 1; 2]; [:: 3; 4]] in
  [/\ diag M = [seq if (i < 2)%N then Some (get2 (value M) i i) else None
               | i <- iota 0 2],
      2%N = 2%N -> diag (transpose M) = diag M,
      2%N = 2%N -> diagproduct (transpose M) = diagproduct M
    & 2%N = 2%N -> diagproduct M = \prod_(0 <= i < 2) get2 (value M) i i].
Proof. by move=> M; apply: (@diag_entries 2 2 M). Defined.
